(** * The IR core of the compiler: data model, builders, SSA renaming,
      flow recomputation, serializer and optimizer

    A shallow embedding of [src/compiler/common/ir/ir.c] and
    [src/compiler/common/ir/opt.c].  The C code works on a graph of heap
    records that point at each other (variables, code blocks, instructions);
    the embedding keeps that shape: a [memory] holds one table per record
    type, indexed by address, and every C function becomes a computation in
    a state-and-failure monad over [memory]. *)

From Stdlib Require Import ZArith String Ascii List Lia DecimalString.
From stdpp Require Import base option gmap sets list strings.

Local Open Scope N_scope.

(** ** Enumerations of [ir_types.h] *)

Inductive ir_prim_t :=
  | IR_PRIM_S8 | IR_PRIM_U8 | IR_PRIM_S16 | IR_PRIM_U16
  | IR_PRIM_S32 | IR_PRIM_U32 | IR_PRIM_S64 | IR_PRIM_U64
  | IR_PRIM_S128 | IR_PRIM_U128
  | IR_PRIM_BOOL
  | IR_PRIM_F32 | IR_PRIM_F64.

Inductive ir_op2_type_t :=
  | IR_OP2_SGT | IR_OP2_SLE | IR_OP2_SLT | IR_OP2_SGE | IR_OP2_SEQ
  | IR_OP2_SNE | IR_OP2_SCS | IR_OP2_SCC
  | IR_OP2_ADD | IR_OP2_SUB | IR_OP2_MUL | IR_OP2_DIV | IR_OP2_MOD
  | IR_OP2_SHL | IR_OP2_SHR | IR_OP2_BAND | IR_OP2_BOR | IR_OP2_BXOR
  | IR_OP2_LAND | IR_OP2_LOR.

Inductive ir_op1_type_t :=
  | IR_OP1_MOV | IR_OP1_SEQZ | IR_OP1_SNEZ | IR_OP1_NEG | IR_OP1_BNEG
  | IR_OP1_LNOT.

Inductive ir_flow_type_t :=
  | IR_FLOW_JUMP | IR_FLOW_BRANCH | IR_FLOW_CALL_DIRECT | IR_FLOW_CALL_PTR
  | IR_FLOW_RETURN.

Global Instance ir_prim_eq_dec : EqDecision ir_prim_t.
Proof. solve_decision. Defined.
Global Instance ir_op1_eq_dec : EqDecision ir_op1_type_t.
Proof. solve_decision. Defined.
Global Instance ir_op2_eq_dec : EqDecision ir_op2_type_t.
Proof. solve_decision. Defined.

(** ** Records

    A pointer is an address; [NULL] is address 0, at which nothing is ever
    allocated. *)

Abbreviation addr := N (only parsing).
Definition NULL : addr := 0.

(** [ir_const_t]: a primitive tag and a 128-bit payload in two 64-bit
    halves. *)
Record ir_const_t := {
  prim_type : ir_prim_t;
  constl : Z;
  consth : Z }.

(** [ir_operand_t]: [is_const] selects between the constant and the
    variable pointer. *)
Inductive ir_operand_t :=
  | op_const (iconst : ir_const_t)
  | op_var (var : addr).

Definition is_const (o : ir_operand_t) : bool :=
  match o with op_const _ => true | op_var _ => false end.

(** [ir_combinator_t]: predecessor block and the operand bound on that
    edge. *)
Record ir_combinator_t := {
  prev : addr;
  bind : ir_operand_t }.

(** The union of [ir_expr_t], selected by [type]. *)
Inductive ir_expr_u :=
  | e_combinator (from : list ir_combinator_t)
  | e_unary (oper : ir_op1_type_t) (value : ir_operand_t)
  | e_binary (oper : ir_op2_type_t) (lhs rhs : ir_operand_t)
  | e_undefined.

(** The union of [ir_flow_t], selected by [type].  [f_return] with
    [has_value] clear is [f_return None]. *)
Inductive ir_flow_u :=
  | f_jump (target : addr)
  | f_branch (cond : ir_operand_t) (target : addr)
  | f_call_direct (args : list ir_operand_t) (label : string)
  | f_call_ptr (args : list ir_operand_t) (fptr : ir_operand_t)
  | f_return (value : option ir_operand_t).

(** [flow->type] *)
Definition flow_type (f : ir_flow_u) : ir_flow_type_t :=
  match f with
  | f_jump _ => IR_FLOW_JUMP
  | f_branch _ _ => IR_FLOW_BRANCH
  | f_call_direct _ _ => IR_FLOW_CALL_DIRECT
  | f_call_ptr _ _ => IR_FLOW_CALL_PTR
  | f_return _ => IR_FLOW_RETURN
  end.

(** [ir_insn_t] with its two extensions [ir_expr_t] and [ir_flow_t];
    [is_expr] is the constructor. *)
Inductive ir_insn_body :=
  | expr (dest : addr) (e : ir_expr_u)
  | flow (f : ir_flow_u).

Record ir_insn_t := {
  parent : addr;
  body : ir_insn_body }.

(** [ir_var_t].  [assigned_at] is the intrusive list of the expressions
    that assign the variable, [used_at] the pointer set of the instructions
    that read it. *)
Record ir_var_t := {
  var_name : string;
  var_prim_type : ir_prim_t;
  assigned_at : list addr;
  used_at : gset addr }.

(** [ir_code_t]. *)
Record ir_code_t := {
  code_name : string;
  insns : list addr;
  pred : gset addr;
  succ : gset addr;
  visited : bool;
  dfs_index : nat }.

(** [ir_func_t]; [args_len] is the length of [args]. *)
Record ir_func_t := {
  func_name : string;
  args : list addr;
  entry : addr;
  code_list : list addr;
  vars_list : list addr;
  enforce_ssa : bool }.

(** The heap: the function under construction and the live records of each
    type.  [brk] is the next address [calloc] hands out. *)
Record memory := {
  func : ir_func_t;
  heap_var : gmap N ir_var_t;
  heap_code : gmap N ir_code_t;
  heap_insn : gmap N ir_insn_t;
  brk : addr }.

(** ** Outcomes

    A call returns, aborts with a diagnostic, leaves defined behaviour (it
    follows a pointer to nothing), or is cut off by the step budget of a
    loop. *)

Inductive bug :=
  | BUG_expr_after_jump      (* Cannot have expr after jump or branch *)
  | BUG_call_after_jump      (* Cannot have call after jump or branch *)
  | BUG_return_after_jump    (* Cannot have return after jump or branch *)
  | BUG_ssa_assigned_twice   (* SSA IR variable assigned twice *)
  | BUG_phi_types            (* IR phi has conflicting bind and return types *)
  | BUG_expr1_bool           (* IR seqz/snez must return a boolean *)
  | BUG_expr1_types          (* IR expr1 has conflicting operand and return types *)
  | BUG_expr2_types          (* IR expr2 has conflicting operand and return types *)
  | BUG_branch_cond          (* IR branch requires a boolean condition *)
  | BUG_replace_self.        (* IR variable asked to be replaced with itself *)

Inductive outcome (A : Type) :=
  | Done (a : A) (m : memory)
  | Abort (b : bug)
  | Wild
  | Timeout.
Arguments Done {A} a m.
Arguments Abort {A} b.
Arguments Wild {A}.
Arguments Timeout {A}.

Definition M (A : Type) : Type := memory -> outcome A.

Definition ret {A} (a : A) : M A := fun m => Done a m.

Definition bind_M {A B} (c : M A) (k : A -> M B) : M B :=
  fun m =>
    match c m with
    | Done a m' => k a m'
    | Abort b => Abort b
    | Wild => Wild
    | Timeout => Timeout
    end.

Notation "x <- c ;; k" := (bind_M c (fun x => k))
  (at level 100, c at next level, k at level 200, right associativity).
Notation "c ;;; k" := (bind_M c (fun _ => k))
  (at level 100, k at level 200, right associativity).

Definition abort {A} (b : bug) : M A := fun _ => Abort b.
Definition wild {A} : M A := fun _ => Wild.
Definition timeout {A} : M A := fun _ => Timeout.

Definition when (b : bool) (c : M unit) : M unit :=
  if b then c else ret tt.

(** [for]/[foreach] over the elements a container held when the loop
    started. *)
Fixpoint foreach {A} (l : list A) (f : A -> M unit) : M unit :=
  match l with
  | [] => ret tt
  | x :: l' => f x ;;; foreach l' f
  end.

(** ** Memory access *)

Definition get_func : M ir_func_t := fun m => Done (func m) m.

Definition set_func (f : ir_func_t) : M unit := fun m =>
  Done tt {| func := f; heap_var := heap_var m; heap_code := heap_code m;
             heap_insn := heap_insn m; brk := brk m |}.

(** [calloc]: a fresh address. *)
Definition calloc : M addr := fun m =>
  Done (brk m) {| func := func m; heap_var := heap_var m;
                  heap_code := heap_code m; heap_insn := heap_insn m;
                  brk := N.succ (brk m) |}.

Definition get_var (v : addr) : M ir_var_t := fun m =>
  match heap_var m !! v with Some x => Done x m | None => Wild end.

Definition put_var (v : addr) (x : ir_var_t) : M unit := fun m =>
  Done tt {| func := func m; heap_var := <[v := x]> (heap_var m);
             heap_code := heap_code m; heap_insn := heap_insn m;
             brk := brk m |}.

Definition free_var (v : addr) : M unit := fun m =>
  Done tt {| func := func m; heap_var := delete v (heap_var m);
             heap_code := heap_code m; heap_insn := heap_insn m;
             brk := brk m |}.

Definition get_code (c : addr) : M ir_code_t := fun m =>
  match heap_code m !! c with Some x => Done x m | None => Wild end.

Definition put_code (c : addr) (x : ir_code_t) : M unit := fun m =>
  Done tt {| func := func m; heap_var := heap_var m;
             heap_code := <[c := x]> (heap_code m);
             heap_insn := heap_insn m; brk := brk m |}.

Definition free_code (c : addr) : M unit := fun m =>
  Done tt {| func := func m; heap_var := heap_var m;
             heap_code := delete c (heap_code m);
             heap_insn := heap_insn m; brk := brk m |}.

Definition get_insn (i : addr) : M ir_insn_t := fun m =>
  match heap_insn m !! i with Some x => Done x m | None => Wild end.

Definition put_insn (i : addr) (x : ir_insn_t) : M unit := fun m =>
  Done tt {| func := func m; heap_var := heap_var m;
             heap_code := heap_code m;
             heap_insn := <[i := x]> (heap_insn m); brk := brk m |}.

Definition free_insn (i : addr) : M unit := fun m =>
  Done tt {| func := func m; heap_var := heap_var m;
             heap_code := heap_code m;
             heap_insn := delete i (heap_insn m); brk := brk m |}.

(** Field updates through a pointer: they read the record first, so a
    dangling pointer is [Wild]. *)

Definition set_used_at (v : addr) (f : gset addr -> gset addr) : M unit :=
  x <- get_var v ;;
  put_var v {| var_name := var_name x; var_prim_type := var_prim_type x;
               assigned_at := assigned_at x; used_at := f (used_at x) |}.

Definition set_assigned_at (v : addr) (f : list addr -> list addr) : M unit :=
  x <- get_var v ;;
  put_var v {| var_name := var_name x; var_prim_type := var_prim_type x;
               assigned_at := f (assigned_at x); used_at := used_at x |}.

Definition set_insns (c : addr) (f : list addr -> list addr) : M unit :=
  x <- get_code c ;;
  put_code c {| code_name := code_name x; insns := f (insns x);
                pred := pred x; succ := succ x; visited := visited x;
                dfs_index := dfs_index x |}.

Definition set_pred (c : addr) (f : gset addr -> gset addr) : M unit :=
  x <- get_code c ;;
  put_code c {| code_name := code_name x; insns := insns x;
                pred := f (pred x); succ := succ x; visited := visited x;
                dfs_index := dfs_index x |}.

Definition set_succ (c : addr) (f : gset addr -> gset addr) : M unit :=
  x <- get_code c ;;
  put_code c {| code_name := code_name x; insns := insns x;
                pred := pred x; succ := f (succ x); visited := visited x;
                dfs_index := dfs_index x |}.

Definition set_visited (c : addr) (b : bool) : M unit :=
  x <- get_code c ;;
  put_code c {| code_name := code_name x; insns := insns x;
                pred := pred x; succ := succ x; visited := b;
                dfs_index := dfs_index x |}.

Definition set_parent (i p : addr) : M unit :=
  x <- get_insn i ;;
  put_insn i {| parent := p; body := body x |}.

Definition set_body (i : addr) (b : ir_insn_body) : M unit :=
  x <- get_insn i ;;
  put_insn i {| parent := parent x; body := b |}.

Definition set_code_list (f : list addr -> list addr) : M unit :=
  fn <- get_func ;;
  set_func {| func_name := func_name fn; args := args fn; entry := entry fn;
              code_list := f (code_list fn); vars_list := vars_list fn;
              enforce_ssa := enforce_ssa fn |}.

Definition set_vars_list (f : list addr -> list addr) : M unit :=
  fn <- get_func ;;
  set_func {| func_name := func_name fn; args := args fn; entry := entry fn;
              code_list := code_list fn; vars_list := f (vars_list fn);
              enforce_ssa := enforce_ssa fn |}.

(** ** Containers

    [list.h] and the pointer set are not part of the sources at hand.  The
    intrusive list is the list of its nodes in order; the set is a finite
    set whose [len] is its size and whose iteration visits [elements]. *)

Definition dlist_append (x : addr) (l : list addr) : list addr := l ++ [x].
Definition dlist_prepend (x : addr) (l : list addr) : list addr := x :: l.
Definition dlist_remove (x : addr) (l : list addr) : list addr :=
  filter (fun y => y ≠ x) l.
Definition dlist_head (l : list addr) : addr := default NULL (head l).
Definition dlist_tail (l : list addr) : addr := default NULL (last l).

Definition set_add (x : addr) (s : gset addr) : gset addr := s ∪ {[x]}.
Definition set_remove (x : addr) (s : gset addr) : gset addr := s ∖ {[x]}.
Definition set_contains (s : gset addr) (x : addr) : bool :=
  bool_decide (x ∈ s).
Definition set_addall (other : gset addr) (s : gset addr) : gset addr :=
  s ∪ other.
Definition PTR_SET_EMPTY : gset addr := ∅.

(** [set_next(set, NULL)->value]: the first element of the iteration. *)
Definition set_first (s : gset addr) : addr := default NULL (head (elements s)).

(** [snprintf(.., "%zu", n)] *)
Definition fmt_zu (n : nat) : string := NilEmpty.string_of_uint (Nat.to_uint n).

(** ** Operands *)

(** [!o.is_const && o.var == v] *)
Definition is_var (o : ir_operand_t) (v : addr) : bool :=
  match o with
  | op_const _ => false
  | op_var x => bool_decide (x = v)
  end.

(** [if (!o.is_const) set_add(&o.var->used_at, insn)] *)
Definition use_operand (o : ir_operand_t) (insn : addr) : M unit :=
  match o with
  | op_const _ => ret tt
  | op_var v => set_used_at v (set_add insn)
  end.

(** [if (!o.is_const) set_remove(&o.var->used_at, insn)] *)
Definition unuse_operand (o : ir_operand_t) (insn : addr) : M unit :=
  match o with
  | op_const _ => ret tt
  | op_var v => set_used_at v (set_remove insn)
  end.

(** [o.is_const ? o.iconst.prim_type : o.var->prim_type] *)
Definition operand_prim (o : ir_operand_t) : M ir_prim_t :=
  match o with
  | op_const c => ret (prim_type c)
  | op_var v => x <- get_var v ;; ret (var_prim_type x)
  end.

(** ** Creation (ir.c) *)

(** [ir_var_create]: [name = None] is the [NULL] name. *)
Definition ir_var_create (type : ir_prim_t) (name : option string) : M addr :=
  var <- calloc ;;
  fn <- get_func ;;
  put_var var {| var_name := match name with
                             | Some s => s
                             | None => fmt_zu (length (vars_list fn))
                             end;
                 var_prim_type := type;
                 assigned_at := [];
                 used_at := PTR_SET_EMPTY |} ;;;
  set_vars_list (dlist_append var) ;;;
  ret var.

(** [ir_code_create] *)
Definition ir_code_create (name : option string) : M addr :=
  code <- calloc ;;
  fn <- get_func ;;
  put_code code {| code_name := match name with
                                | Some s => s
                                | None => fmt_zu (length (code_list fn))
                                end;
                   insns := [];
                   pred := PTR_SET_EMPTY;
                   succ := PTR_SET_EMPTY;
                   visited := false;
                   dfs_index := 0%nat |} ;;;
  set_code_list (dlist_append code) ;;;
  ret code.

(** Memory before [ir_func_create]: no record is live. *)
Definition no_memory : memory :=
  {| func := {| func_name := EmptyString; args := []; entry := NULL;
                code_list := []; vars_list := []; enforce_ssa := false |};
     heap_var := ∅; heap_code := ∅; heap_insn := ∅; brk := 1 |}.

Fixpoint ir_func_create_args (args_name : option (list (option string)))
    (i n : nat) : M unit :=
  match n with
  | O => ret tt
  | S n' =>
      name <- match args_name with
              | None => ret None
              | Some names =>
                  match names !! i with
                  | Some s => ret s
                  | None => wild
                  end
              end ;;
      a <- ir_var_create IR_PRIM_S32 name ;;
      fn <- get_func ;;
      set_func {| func_name := func_name fn; args := args fn ++ [a];
                  entry := entry fn; code_list := code_list fn;
                  vars_list := vars_list fn;
                  enforce_ssa := enforce_ssa fn |} ;;;
      ir_func_create_args args_name (S i) n'
  end.

(** [ir_func_create]: the arguments are created first, then the entry
    block. *)
Definition ir_func_create (name : string) (entry_name : option string)
    (args_len : nat) (args_name : option (list (option string))) : M unit :=
  fn <- get_func ;;
  set_func {| func_name := name; args := []; entry := NULL;
              code_list := []; vars_list := []; enforce_ssa := false |} ;;;
  ir_func_create_args args_name 0 args_len ;;;
  e <- ir_code_create entry_name ;;
  fn <- get_func ;;
  set_func {| func_name := func_name fn; args := args fn; entry := e;
              code_list := code_list fn; vars_list := vars_list fn;
              enforce_ssa := enforce_ssa fn |}.

(** ** Builders (ir.c) *)

(** The check each builder but [ir_add_jump] and [ir_add_branch] makes:
    the block is not empty and its last instruction is a jump or a branch. *)
Definition last_is_jump_or_branch (code : addr) : M bool :=
  c <- get_code code ;;
  if bool_decide (length (insns c) = 0%nat) then ret false
  else
    last <- get_insn (dlist_tail (insns c)) ;;
    match body last with
    | flow (f_branch _ _) | flow (f_jump _) => ret true
    | _ => ret false
    end.

(** [dest->assigned_at.len && code->func->enforce_ssa] *)
Definition ssa_assigned_twice (dest : addr) : M bool :=
  d <- get_var dest ;;
  fn <- get_func ;;
  ret (negb (bool_decide (length (assigned_at d) = 0%nat)) && enforce_ssa fn).

(** [ir_add_combinator] *)
Definition ir_add_combinator (code dest : addr) (from : list ir_combinator_t)
    : M unit :=
  e <- calloc ;;
  put_insn e {| parent := code; body := expr dest (e_combinator from) |} ;;;
  after <- last_is_jump_or_branch code ;;
  if after then abort BUG_expr_after_jump else
  twice <- ssa_assigned_twice dest ;;
  if twice then abort BUG_ssa_assigned_twice else
  foreach from (fun c =>
    bind_prim <- operand_prim (bind c) ;;
    d <- get_var dest ;;
    if bool_decide (bind_prim ≠ var_prim_type d) then abort BUG_phi_types
    else use_operand (bind c) e) ;;;
  set_assigned_at dest (dlist_append e) ;;;
  set_insns code (dlist_append e).

(** [ir_add_expr1] *)
Definition ir_add_expr1 (code dest : addr) (oper : ir_op1_type_t)
    (operand : ir_operand_t) : M unit :=
  e <- calloc ;;
  put_insn e {| parent := code; body := expr dest (e_unary oper operand) |} ;;;
  after <- last_is_jump_or_branch code ;;
  if after then abort BUG_expr_after_jump else
  use_operand operand e ;;;
  d <- get_var dest ;;
  (if bool_decide (oper = IR_OP1_SNEZ) || bool_decide (oper = IR_OP1_SEQZ) then
     if bool_decide (var_prim_type d ≠ IR_PRIM_BOOL) then abort BUG_expr1_bool
     else ret tt
   else if bool_decide (oper ≠ IR_OP1_MOV) then
     operand_prim' <- operand_prim operand ;;
     if bool_decide (operand_prim' ≠ var_prim_type d) then abort BUG_expr1_types
     else ret tt
   else ret tt) ;;;
  twice <- ssa_assigned_twice dest ;;
  if twice then abort BUG_ssa_assigned_twice else
  set_assigned_at dest (dlist_append e) ;;;
  set_insns code (dlist_append e).

(** [ir_add_expr2] *)
Definition ir_add_expr2 (code dest : addr) (oper : ir_op2_type_t)
    (lhs rhs : ir_operand_t) : M unit :=
  e <- calloc ;;
  put_insn e {| parent := code; body := expr dest (e_binary oper lhs rhs) |} ;;;
  after <- last_is_jump_or_branch code ;;
  if after then abort BUG_expr_after_jump else
  lhs_prim <- operand_prim lhs ;;
  d <- get_var dest ;;
  if bool_decide (lhs_prim ≠ var_prim_type d) then abort BUG_expr2_types else
  rhs_prim <- operand_prim rhs ;;
  if bool_decide (rhs_prim ≠ var_prim_type d) then abort BUG_expr2_types else
  use_operand lhs e ;;;
  use_operand rhs e ;;;
  twice <- ssa_assigned_twice dest ;;
  if twice then abort BUG_ssa_assigned_twice else
  set_assigned_at dest (dlist_append e) ;;;
  set_insns code (dlist_append e).

(** [ir_add_undefined] *)
Definition ir_add_undefined (code dest : addr) : M unit :=
  e <- calloc ;;
  put_insn e {| parent := code; body := expr dest e_undefined |} ;;;
  after <- last_is_jump_or_branch code ;;
  if after then abort BUG_expr_after_jump else
  twice <- ssa_assigned_twice dest ;;
  if twice then abort BUG_ssa_assigned_twice else
  set_assigned_at dest (dlist_append e) ;;;
  set_insns code (dlist_append e).

(** [ir_add_call_direct] *)
Definition ir_add_call_direct (from : addr) (label : string)
    (params : list ir_operand_t) : M unit :=
  fl <- calloc ;;
  put_insn fl {| parent := from; body := flow (f_call_direct params label) |} ;;;
  after <- last_is_jump_or_branch from ;;
  if after then abort BUG_call_after_jump else
  foreach params (fun p => use_operand p fl) ;;;
  set_insns from (dlist_append fl).

(** [ir_add_call_ptr] *)
Definition ir_add_call_ptr (from : addr) (funcptr : ir_operand_t)
    (params : list ir_operand_t) : M unit :=
  fl <- calloc ;;
  put_insn fl {| parent := from; body := flow (f_call_ptr params funcptr) |} ;;;
  after <- last_is_jump_or_branch from ;;
  if after then abort BUG_call_after_jump else
  use_operand funcptr fl ;;;
  foreach params (fun p => use_operand p fl) ;;;
  set_insns from (dlist_append fl).

(** [ir_add_jump] *)
Definition ir_add_jump (from to : addr) : M unit :=
  fl <- calloc ;;
  put_insn fl {| parent := from; body := flow (f_jump to) |} ;;;
  set_succ from (set_add to) ;;;
  set_pred to (set_add from) ;;;
  set_insns from (dlist_append fl).

(** [ir_add_branch] *)
Definition ir_add_branch (from : addr) (cond : ir_operand_t) (to : addr)
    : M unit :=
  fl <- calloc ;;
  put_insn fl {| parent := from; body := flow (f_branch cond to) |} ;;;
  cond_prim <- operand_prim cond ;;
  if bool_decide (cond_prim ≠ IR_PRIM_BOOL) then abort BUG_branch_cond else
  use_operand cond fl ;;;
  set_succ from (set_add to) ;;;
  set_pred to (set_add from) ;;;
  set_insns from (dlist_append fl).

(** [ir_add_return0] *)
Definition ir_add_return0 (from : addr) : M unit :=
  fl <- calloc ;;
  put_insn fl {| parent := from; body := flow (f_return None) |} ;;;
  after <- last_is_jump_or_branch from ;;
  if after then abort BUG_return_after_jump else
  set_insns from (dlist_append fl).

(** [ir_add_return1] *)
Definition ir_add_return1 (from : addr) (value : ir_operand_t) : M unit :=
  fl <- calloc ;;
  put_insn fl {| parent := from; body := flow (f_return (Some value)) |} ;;;
  after <- last_is_jump_or_branch from ;;
  if after then abort BUG_return_after_jump else
  use_operand value fl ;;;
  set_insns from (dlist_append fl).

(** ** Deletion and replacement (ir.c) *)

(** [ir_insn_delete].  In the [IR_FLOW_CALL_PTR] arm the test on the
    address operand is [addr.is_const], as in the source: with a variable
    address nothing is removed, with a constant address the variable member
    of an operand that holds a constant is followed. *)
Definition ir_insn_delete (insn : addr) : M unit :=
  i <- get_insn insn ;;
  match body i with
  | expr dest e =>
      set_assigned_at dest (dlist_remove insn) ;;;
      match e with
      | e_unary _ value => unuse_operand value insn
      | e_binary _ lhs rhs =>
          unuse_operand lhs insn ;;; unuse_operand rhs insn
      | e_combinator from =>
          foreach from (fun c => unuse_operand (bind c) insn)
      | e_undefined => ret tt
      end
  | flow f =>
      match f with
      | f_branch cond _ => unuse_operand cond insn
      | f_return value =>
          match value with
          | Some v => unuse_operand v insn
          | None => ret tt
          end
      | f_call_direct args _ =>
          foreach args (fun a => unuse_operand a insn)
      | f_call_ptr args fptr =>
          (if is_const fptr then wild else ret tt) ;;;
          foreach args (fun a => unuse_operand a insn)
      | f_jump _ => ret tt
      end
  end ;;;
  set_insns (parent i) (dlist_remove insn) ;;;
  free_insn insn.

(** [ir_var_delete] *)
Definition ir_var_delete (var : addr) : M unit :=
  x <- get_var var ;;
  let to_delete :=
    fold_left (fun s e => set_add e s) (assigned_at x)
              (set_addall (used_at x) PTR_SET_EMPTY) in
  foreach (elements to_delete) ir_insn_delete ;;;
  set_vars_list (dlist_remove var) ;;;
  free_var var.

(** The rewrite [ir_var_replace] applies to one instruction of
    [var->used_at].  A unary operand and a return value are overwritten
    without comparing them with [var]; so is every call argument that is
    not a constant. *)
Definition ir_var_replace_insn (var : addr) (value : ir_operand_t)
    (insn : addr) : M unit :=
  i <- get_insn insn ;;
  match body i with
  | expr dest (e_unary oper _) =>
      set_body insn (expr dest (e_unary oper value)) ;;;
      use_operand value insn
  | expr dest (e_binary oper lhs rhs) =>
      let lhs' := if is_var lhs var then value else lhs in
      let rhs' := if is_var rhs var then value else rhs in
      set_body insn (expr dest (e_binary oper lhs' rhs')) ;;;
      when (is_var lhs var) (use_operand value insn) ;;;
      when (is_var rhs var) (use_operand value insn)
  | expr dest (e_combinator from) =>
      set_body insn (expr dest (e_combinator
        (map (fun c => if is_var (bind c) var
                       then {| prev := prev c; bind := value |} else c)
             from))) ;;;
      foreach from (fun c => when (is_var (bind c) var) (use_operand value insn))
  | expr _ e_undefined => ret tt
  | flow (f_branch cond target) =>
      if is_var cond var then
        set_body insn (flow (f_branch value target)) ;;;
        use_operand value insn
      else ret tt
  | flow (f_call_ptr args fptr) =>
      let fptr' := if is_var fptr var then value else fptr in
      set_body insn (flow (f_call_ptr
        (map (fun a => if is_const a then a else value) args) fptr')) ;;;
      when (is_var fptr var) (use_operand value insn) ;;;
      foreach args (fun a => when (negb (is_const a)) (use_operand value insn))
  | flow (f_call_direct args label) =>
      set_body insn (flow (f_call_direct
        (map (fun a => if is_const a then a else value) args) label)) ;;;
      foreach args (fun a => when (negb (is_const a)) (use_operand value insn))
  | flow (f_return value0) =>
      match value0 with
      | Some (op_var _) =>
          set_body insn (flow (f_return (Some value))) ;;;
          use_operand value insn
      | _ => ret tt
      end
  | flow (f_jump _) => ret tt
  end.

(** [ir_var_replace] *)
Definition ir_var_replace (var : addr) (value : ir_operand_t) : M unit :=
  if is_var value var then abort BUG_replace_self else
  x <- get_var var ;;
  foreach (elements (used_at x)) (ir_var_replace_insn var value) ;;;
  set_used_at var (fun _ => PTR_SET_EMPTY).

(** [remove_combinator_path] *)
Fixpoint remove_first_path (code : addr) (from : list ir_combinator_t)
    : option ir_operand_t * list ir_combinator_t :=
  match from with
  | [] => (None, [])
  | c :: from' =>
      if bool_decide (prev c = code) then (Some (bind c), from')
      else let '(b, rest) := remove_first_path code from' in (b, c :: rest)
  end.

Definition remove_combinator_path (e code : addr) : M unit :=
  i <- get_insn e ;;
  match body i with
  | expr dest (e_combinator from) =>
      let '(removed, from') := remove_first_path code from in
      match removed with
      | Some b => unuse_operand b e
      | None => ret tt
      end ;;;
      set_body e (expr dest (e_combinator from')) ;;;
      match from' with
      | [c] => ir_var_replace dest (bind c) ;;; ir_insn_delete e
      | _ => ret tt
      end
  | _ => wild
  end.

(** *** The target of a jump or of a branch

    [ir_func_recalc_flow] and [ir_code_delete] test [flow->type] for
    [IR_FLOW_JUMP] or [IR_FLOW_BRANCH] and then read the target of either
    through [flow->f_jump.target]: the two members of the union are taken
    to begin with the target, and for a branch what is read is
    [f_branch.target].  ([ir_add_branch] stores an [ir_operand_t] in
    [f_branch.cond], so [ir.c] is written against a declaration of the
    union later than the one in [ir_types.h], where that member is an
    [ir_var_t *] placed before the target; the model follows [ir.c].) *)
Definition f_jump_target (f : ir_flow_u) : option addr :=
  match f with
  | f_jump target => Some target
  | f_branch _ target => Some target
  | _ => None
  end.

(** [ir_code_delete] *)
Definition ir_code_delete (code : addr) : M unit :=
  c <- get_code code ;;
  foreach (elements (pred c)) (fun p =>
    set_succ p (set_remove code) ;;;
    pc <- get_code p ;;
    foreach (insns pc) (fun insn =>
      i <- get_insn insn ;;
      match body i with
      | flow f =>
          match f_jump_target f with
          | Some target =>
              if bool_decide (target = code) then ir_insn_delete insn
              else ret tt
          | None => ret tt
          end
      | expr _ _ => ret tt
      end)) ;;;
  c <- get_code code ;;
  foreach (elements (succ c)) (fun s =>
    set_pred s (set_remove code) ;;;
    sc <- get_code s ;;
    foreach (insns sc) (fun insn =>
      i <- get_insn insn ;;
      match body i with
      | expr _ (e_combinator _) => remove_combinator_path insn code
      | _ => ret tt
      end)) ;;;
  c <- get_code code ;;
  foreach (insns c) ir_insn_delete ;;;
  set_code_list (dlist_remove code) ;;;
  free_code code.

(** ** Flow recomputation (ir.c) *)

(** [ir_func_recalc_flow] *)
Definition ir_func_recalc_flow : M unit :=
  fn <- get_func ;;
  foreach (code_list fn) (fun code =>
    set_pred code (fun _ => PTR_SET_EMPTY) ;;;
    set_succ code (fun _ => PTR_SET_EMPTY)) ;;;
  fn <- get_func ;;
  foreach (code_list fn) (fun code =>
    c <- get_code code ;;
    foreach (insns c) (fun insn =>
      i <- get_insn insn ;;
      match body i with
      | expr _ _ => ret tt
      | flow f =>
          match f_jump_target f with
          | Some target =>
              set_pred target (set_add code) ;;;
              set_succ code (set_add target)
          | None => ret tt
          end
      end)).

(** ** SSA conversion: combinator placement and renaming (ir.c) *)

(** [create_combinator]: one entry per predecessor, each bound to the
    constant 0 of the destination's type; the new expression is added to
    [dest->used_at] once per predecessor. *)
Definition create_combinator (code dest : addr) : M unit :=
  e <- calloc ;;
  c <- get_code code ;;
  d <- get_var dest ;;
  put_insn e {| parent := code;
                body := expr dest (e_combinator
                  (map (fun p => {| prev := p;
                                    bind := op_const {| prim_type := var_prim_type d;
                                                        constl := 0; consth := 0 |} |})
                       (elements (pred c)))) |} ;;;
  foreach (elements (pred c)) (fun _ => set_used_at dest (set_add e)) ;;;
  set_assigned_at dest (dlist_append e) ;;;
  set_insns code (dlist_prepend e).

(** [replace_insn_var]; [to] may be [NULL]. *)
Definition replace_insn_var (insn from to : addr) : M unit :=
  set_used_at from (set_remove insn) ;;;
  i <- get_insn insn ;;
  let swap (o : ir_operand_t) := if is_var o from then op_var to else o in
  let note (o : ir_operand_t) :=
    when (is_var o from) (set_used_at to (set_add insn)) in
  match body i with
  | expr dest (e_binary oper lhs rhs) =>
      note lhs ;;; note rhs ;;;
      set_body insn (expr dest (e_binary oper (swap lhs) (swap rhs)))
  | expr dest (e_unary oper value) =>
      note value ;;;
      set_body insn (expr dest (e_unary oper (swap value)))
  | expr _ _ => ret tt
  | flow (f_branch cond target) =>
      note cond ;;;
      set_body insn (flow (f_branch (swap cond) target))
  | flow (f_return (Some value)) =>
      note value ;;;
      set_body insn (flow (f_return (Some (swap value))))
  | flow (f_call_direct args label) =>
      foreach args note ;;;
      set_body insn (flow (f_call_direct (map swap args) label))
  | flow (f_call_ptr args fptr) =>
      note fptr ;;;
      foreach args note ;;;
      set_body insn (flow (f_call_ptr (map swap args) (swap fptr)))
  | flow _ => ret tt
  end.

(** [replace_phi_vars]: the first combinator at the head of [code] whose
    destination is in [from] has the entries for [pred] rewritten, those
    that are not constants. *)
Fixpoint replace_phi_vars_insns (pred : addr) (from : gset addr) (to : addr)
    (l : list addr) : M unit :=
  match l with
  | [] => ret tt
  | insn :: l' =>
      i <- get_insn insn ;;
      match body i with
      | flow _ => ret tt
      | expr dest (e_combinator entries) =>
          if set_contains from dest then
            let hit (c : ir_combinator_t) :=
              bool_decide (prev c = pred) && negb (is_const (bind c)) in
            foreach entries (fun c =>
              when (hit c) (set_used_at to (set_add insn))) ;;;
            set_body insn (expr dest (e_combinator
              (map (fun c => if hit c
                             then {| prev := prev c; bind := op_var to |}
                             else c) entries)))
          else replace_phi_vars_insns pred from to l'
      | expr _ _ => ret tt
      end
  end.

Definition replace_phi_vars (pred code : addr) (from : gset addr) (to : addr)
    : M unit :=
  c <- get_code code ;;
  replace_phi_vars_insns pred from to (insns c).

(** The instruction loop of [rename_assignments]: the current name [to] and
    the set behind [phi_from] are carried along. *)
Fixpoint rename_insns (from : addr) (l : list addr) (to : addr)
    (phi_from : gset addr) : M (addr * gset addr) :=
  match l with
  | [] => ret (to, phi_from)
  | insn :: l' =>
      replace_insn_var insn from to ;;;
      i <- get_insn insn ;;
      match body i with
      | expr dest e =>
          if bool_decide (dest = from) then
            set_assigned_at from (dlist_remove insn) ;;;
            f <- get_var from ;;
            to' <- ir_var_create (var_prim_type f) None ;;
            set_body insn (expr to' e) ;;;
            set_assigned_at to' (dlist_append insn) ;;;
            rename_insns from l' to'
              (match e with
               | e_combinator _ => set_add to' phi_from
               | _ => phi_from
               end)
          else rename_insns from l' to phi_from
      | flow _ => rename_insns from l' to phi_from
      end
  end.

(** [rename_assignments]: a depth-first walk over [succ]; [fuel] bounds the
    depth of the recursion. *)
Fixpoint rename_assignments (fuel : nat) (code from to : addr)
    (phi_from : gset addr) : M (gset addr) :=
  match fuel with
  | O => timeout
  | S fuel' =>
      c <- get_code code ;;
      if visited c then ret phi_from else
      set_visited code true ;;;
      c <- get_code code ;;
      r <- rename_insns from (insns c) to phi_from ;;
      let '(to, phi_from) := r in
      (if bool_decide (to ≠ NULL) then
         c <- get_code code ;;
         foreach (elements (succ c)) (fun s =>
           replace_phi_vars code s phi_from to)
       else ret tt) ;;;
      c <- get_code code ;;
      (fix walk (l : list addr) (phi_from : gset addr) : M (gset addr) :=
         match l with
         | [] => ret phi_from
         | s :: l' =>
             phi_from <- rename_assignments fuel' s from to phi_from ;;
             walk l' phi_from
         end) (elements (succ c)) phi_from
  end.

(** ** The optimizer (opt.c)

    Every [do ... while] and every depth-first walk takes a step budget
    [fuel]; a loop that has not finished when the budget is used up is
    [Timeout]. *)

Section Optimizer.

(** The constant evaluator of [ir/interp.h], which is not part of the
    sources at hand. *)
Variable ir_cast : ir_prim_t -> ir_const_t -> ir_const_t.
Variable ir_calc1 : ir_op1_type_t -> ir_const_t -> ir_const_t.
Variable ir_calc2 : ir_op2_type_t -> ir_const_t -> ir_const_t -> ir_const_t.

(** One sweep over [vars_list] of [opt_unused_vars]; the result is [loop]. *)
Fixpoint unused_vars_sweep (l : list addr) (loop : bool) : M bool :=
  match l with
  | [] => ret loop
  | var :: l' =>
      x <- get_var var ;;
      if bool_decide (size (used_at x) = 0%nat) then
        ir_var_delete var ;;; unused_vars_sweep l' true
      else unused_vars_sweep l' loop
  end.

Fixpoint opt_unused_vars_loop (fuel : nat) (deleted : bool) : M bool :=
  match fuel with
  | O => timeout
  | S fuel' =>
      fn <- get_func ;;
      loop <- unused_vars_sweep (vars_list fn) false ;;
      if loop then opt_unused_vars_loop fuel' true else ret deleted
  end.

(** [opt_unused_vars] *)
Definition opt_unused_vars (fuel : nat) : M bool :=
  opt_unused_vars_loop fuel false.

(** [dead_code_dfs] *)
Fixpoint dead_code_dfs (fuel : nat) (code : addr) : M bool :=
  match fuel with
  | O => timeout
  | S fuel' =>
      c <- get_code code ;;
      if visited c then ret false else
      set_visited code true ;;;
      c <- get_code code ;;
      (fix walk (l : list addr) (dead changed : bool) : M bool :=
         match l with
         | [] => ret changed
         | insn :: l' =>
             i <- get_insn insn ;;
             if dead then ir_insn_delete insn ;;; walk l' dead true
             else
               match body i with
               | expr _ _ => walk l' dead changed
               | flow (f_jump target) =>
                   ch <- dead_code_dfs fuel' target ;;
                   walk l' true (changed || ch)
               | flow (f_return _) => walk l' true changed
               | flow (f_branch (op_const k) target) =>
                   if Z.testbit (constl k) 0 then
                     ch <- dead_code_dfs fuel' target ;;
                     walk l' true (changed || ch)
                   else
                     ir_insn_delete insn ;;; walk l' dead changed
               | flow (f_branch (op_var _) target) =>
                   ch <- dead_code_dfs fuel' target ;;
                   walk l' dead (changed || ch)
               | flow _ => walk l' dead changed
               end
         end) (insns c) false false
  end.

(** One round of the loop of [opt_dead_code]. *)
Definition dead_code_round (fuel : nat) : M bool :=
  fn <- get_func ;;
  foreach (code_list fn) (fun code => set_visited code false) ;;;
  fn <- get_func ;;
  loop <- dead_code_dfs fuel (dlist_head (code_list fn)) ;;
  fn <- get_func ;;
  foreach (code_list fn) (fun code =>
    c <- get_code code ;;
    if visited c then ret tt else ir_code_delete code) ;;;
  ir_func_recalc_flow ;;;
  ret loop.

Fixpoint opt_dead_code_loop (budget fuel : nat) (changed : bool) : M bool :=
  match fuel with
  | O => timeout
  | S fuel' =>
      loop <- dead_code_round budget ;;
      if loop then opt_dead_code_loop budget fuel' (changed || loop)
      else ret (changed || loop)
  end.

(** [opt_dead_code] *)
Definition opt_dead_code (fuel : nat) : M bool :=
  opt_dead_code_loop fuel fuel false.

(** [const_prop_expr] *)
Definition const_prop_expr (e : addr) : M bool :=
  i <- get_insn e ;;
  match body i with
  | expr dest (e_unary oper (op_const k)) =>
      d <- get_var dest ;;
      let iconst := if bool_decide (oper = IR_OP1_MOV)
                    then ir_cast (var_prim_type d) k
                    else ir_calc1 oper k in
      ir_var_replace dest (op_const iconst) ;;;
      ir_var_delete dest ;;;
      ret true
  | expr dest (e_binary oper (op_const a) (op_const b)) =>
      ir_var_replace dest (op_const (ir_calc2 oper a b)) ;;;
      ir_var_delete dest ;;;
      ret true
  | _ => ret false
  end.

(** One sweep over [vars_list] of [opt_const_prop]; the state of the loop
    is the pair [(loop, propagated)]. *)
Fixpoint const_prop_sweep (l : list addr) (loop propagated : bool)
    : M (bool * bool) :=
  match l with
  | [] => ret (loop, propagated)
  | var :: l' =>
      x <- get_var var ;;
      if bool_decide (length (assigned_at x) ≠ 1%nat) then
        const_prop_sweep l' loop propagated
      else
        p <- const_prop_expr (dlist_head (assigned_at x)) ;;
        const_prop_sweep l' (loop || p) (propagated || (loop || p))
  end.

Fixpoint opt_const_prop_loop (fuel : nat) (propagated : bool) : M bool :=
  match fuel with
  | O => timeout
  | S fuel' =>
      fn <- get_func ;;
      r <- const_prop_sweep (vars_list fn) false propagated ;;
      let '(loop, propagated) := r in
      if loop then opt_const_prop_loop fuel' propagated else ret propagated
  end.

(** [opt_const_prop] *)
Definition opt_const_prop (fuel : nat) : M bool :=
  opt_const_prop_loop fuel false.

(** [merge_code] *)
Definition merge_code (first second : addr) : M unit :=
  f <- get_code first ;;
  ir_insn_delete (dlist_tail (insns f)) ;;;
  s <- get_code second ;;
  foreach (insns s) (fun insn => set_parent insn first) ;;;
  s <- get_code second ;;
  set_insns first (fun l => l ++ insns s) ;;;
  set_insns second (fun _ => []) ;;;
  s <- get_code second ;;
  foreach (elements (succ s)) (fun x =>
    set_pred x (set_remove second) ;;;
    set_pred x (set_add first)) ;;;
  set_succ first (fun _ => PTR_SET_EMPTY) ;;;
  set_pred second (fun _ => PTR_SET_EMPTY) ;;;
  s <- get_code second ;;
  set_succ first (fun _ => succ s) ;;;
  set_succ second (fun _ => PTR_SET_EMPTY) ;;;
  ir_code_delete second.

(** The [while (code->succ.len == 1)] loop of [branch_opt_dfs]: when the
    only successor has another number of predecessors than one, the body
    does nothing and the loop goes round again. *)
Fixpoint branch_opt_while (fuel : nat) (code : addr) (changed : bool)
    : M bool :=
  match fuel with
  | O => timeout
  | S fuel' =>
      c <- get_code code ;;
      if bool_decide (size (succ c) = 1%nat) then
        let s := set_first (succ c) in
        sc <- get_code s ;;
        if bool_decide (size (pred sc) = 1%nat) then
          merge_code code s ;;;
          branch_opt_while fuel' code true
        else branch_opt_while fuel' code changed
      else ret changed
  end.

(** [branch_opt_dfs] *)
Fixpoint branch_opt_dfs (fuel : nat) (code : addr) : M bool :=
  match fuel with
  | O => timeout
  | S fuel' =>
      c <- get_code code ;;
      if visited c then ret false else
      set_visited code true ;;;
      changed <- branch_opt_while fuel' code false ;;
      c <- get_code code ;;
      (fix walk (l : list addr) (changed : bool) : M bool :=
         match l with
         | [] => ret changed
         | s :: l' =>
             ch <- branch_opt_dfs fuel' s ;;
             walk l' (changed || ch)
         end) (elements (succ c)) changed
  end.

(** [opt_branches] *)
Definition opt_branches (fuel : nat) : M bool :=
  fn <- get_func ;;
  foreach (code_list fn) (fun code => set_visited code false) ;;;
  fn <- get_func ;;
  branch_opt_dfs fuel (dlist_head (code_list fn)).

Fixpoint optimize_loop (budget fuel : nat) (changed : bool) : M bool :=
  match fuel with
  | O => timeout
  | S fuel' =>
      l1 <- opt_unused_vars budget ;;
      l2 <- opt_const_prop budget ;;
      l3 <- opt_dead_code budget ;;
      l4 <- opt_branches budget ;;
      let loop := false || l1 || l2 || l3 || l4 in
      if loop then optimize_loop budget fuel' (changed || loop)
      else ret (changed || loop)
  end.

(** [optimize] *)
Definition optimize (fuel : nat) : M bool :=
  optimize_loop fuel fuel false.

End Optimizer.

(** ** The serializer (ir.c) *)

(** Modelled from the spec: the table [ir_prim_sizes], declared in
    [ir_types.h] and defined outside the sources at hand.  Section 3 of the
    specification gives the byte sizes in the order of the enumeration:
    1,1,2,2,4,4,8,8,16,16,1,4,8. *)
Definition ir_prim_sizes (p : ir_prim_t) : nat :=
  match p with
  | IR_PRIM_S8 | IR_PRIM_U8 => 1
  | IR_PRIM_S16 | IR_PRIM_U16 => 2
  | IR_PRIM_S32 | IR_PRIM_U32 => 4
  | IR_PRIM_S64 | IR_PRIM_U64 => 8
  | IR_PRIM_S128 | IR_PRIM_U128 => 16
  | IR_PRIM_BOOL => 1
  | IR_PRIM_F32 => 4
  | IR_PRIM_F64 => 8
  end%nat.

(** Modelled from the spec: the table [ir_prim_names], declared in
    [ir_types.h] and defined outside the sources at hand.  The specification
    writes the constants of its scenarios as [s32'0x00000005]: the name of a
    primitive type in lower case. *)
Definition ir_prim_names (p : ir_prim_t) : string :=
  match p with
  | IR_PRIM_S8 => "s8" | IR_PRIM_U8 => "u8"
  | IR_PRIM_S16 => "s16" | IR_PRIM_U16 => "u16"
  | IR_PRIM_S32 => "s32" | IR_PRIM_U32 => "u32"
  | IR_PRIM_S64 => "s64" | IR_PRIM_U64 => "u64"
  | IR_PRIM_S128 => "s128" | IR_PRIM_U128 => "u128"
  | IR_PRIM_BOOL => "bool"
  | IR_PRIM_F32 => "f32" | IR_PRIM_F64 => "f64"
  end%string.

(** What is written to the [FILE]: text, and the two floating-point
    conversions, kept as the constant whose storage [memcpy] reads the
    [float] or the [double] from. *)
Inductive chunk :=
  | text (s : string)
  | fmt_f (iconst : ir_const_t)     (* fprintf(to, " /* %f */", fval) *)
  | fmt_lf (iconst : ir_const_t).   (* fprintf(to, " /* %lf */", dval) *)

(** A [uint64_t] holds its value modulo 2^64. *)
Definition uint64 (z : Z) : N := Z.to_N (z mod 2 ^ 64).

Definition hex_digit (d : N) : ascii :=
  match d with
  | 0 => "0" | 1 => "1" | 2 => "2" | 3 => "3" | 4 => "4" | 5 => "5"
  | 6 => "6" | 7 => "7" | 8 => "8" | 9 => "9" | 10 => "A" | 11 => "B"
  | 12 => "C" | 13 => "D" | 14 => "E" | _ => "F"
  end%char.

(** The digits of [n] in base 16, most significant first, as [%X] gives
    them: at least one digit, no leading zero otherwise.  Sixteen rounds
    cover every 64-bit value. *)
Fixpoint hex_of (rounds : nat) (n : N) : string :=
  match rounds with
  | O => EmptyString
  | S r =>
      if n <? 16 then String (hex_digit n) EmptyString
      else (hex_of r (n / 16) ++ String (hex_digit (n mod 16)) EmptyString)%string
  end.

Fixpoint zeros (k : nat) : string :=
  match k with
  | O => EmptyString
  | S k' => String "0"%char (zeros k')
  end.

(** [fprintf(to, "%0*" PRIX64, width, n)]: the field width is a minimum. *)
Definition fmt_0X64 (width : nat) (n : N) : string :=
  let digits := hex_of 16 n in
  (zeros (width - String.length digits) ++ digits)%string.

(** [fprintf(to, "%016" PRIX64 "%016" PRIX64, consth, constl)] *)
Definition fmt_0X128 (h l : N) : string :=
  (fmt_0X64 16 h ++ fmt_0X64 16 l)%string.

(** [ir_operand_serialize] *)
Definition ir_operand_serialize (operand : ir_operand_t) : M (list chunk) :=
  match operand with
  | op_const c =>
      if bool_decide (prim_type c = IR_PRIM_BOOL) then
        ret [text (if bool_decide (uint64 (constl c) ≠ 0) then "true" else "false")]
      else
        let size := ir_prim_sizes (prim_type c) in
        ret ([text (ir_prim_names (prim_type c)); text "'0x";
              text (if bool_decide (size = 16%nat)
                    then fmt_0X128 (uint64 (consth c)) (uint64 (constl c))
                    else fmt_0X64 (size * 2) (uint64 (constl c)))]
             ++ (if bool_decide (prim_type c = IR_PRIM_F32)
                 then [fmt_f c]
                 else if bool_decide (prim_type c = IR_PRIM_F64)
                 then [fmt_lf c]
                 else []))
  | op_var v =>
      x <- get_var v ;;
      ret [text "%"; text (var_name x)]
  end.

Section Serializer.

(** The tables [ir_op1_names], [ir_op2_names] and [ir_flow_names], declared
    in [ir_types.h] and defined outside the sources at hand. *)
Variable ir_op1_names : ir_op1_type_t -> string.
Variable ir_op2_names : ir_op2_type_t -> string.
Variable ir_flow_names : ir_flow_type_t -> string.

Definition nl : string := String "010"%char EmptyString.

(** The text one [fprintf] writes: its pieces, joined. *)
Definition cat (pieces : list string) : string := String.concat "" pieces.

(** The output of a loop: what each round writes, in order. *)
Fixpoint emit_each {A} (l : list A) (f : A -> M (list chunk)) : M (list chunk) :=
  match l with
  | [] => ret []
  | x :: l' => o <- f x ;; os <- emit_each l' f ;; ret (o ++ os)
  end.

Definition serialize_args (args : list ir_operand_t) : M (list chunk) :=
  emit_each args (fun a =>
    o <- ir_operand_serialize a ;; ret (text ", " :: o)).

(** The body of the instruction loop of [ir_func_serialize]; one [chunk]
    for each call of [fputs], [fputc] and [fprintf]. *)
Definition ir_insn_serialize (insn : addr) : M (list chunk) :=
  i <- get_insn insn ;;
  match body i with
  | expr dest e =>
      d <- get_var dest ;;
      match e with
      | e_combinator from =>
          os <- emit_each from (fun c =>
                  p <- get_code (prev c) ;;
                  o <- ir_operand_serialize (bind c) ;;
                  ret (text (cat [", <"; code_name p; "> "]) :: o)) ;;
          ret ([text "    "; text (cat ["phi %"; var_name d])] ++ os ++ [text nl])
      | e_unary oper value =>
          o <- ir_operand_serialize value ;;
          ret ([text "    ";
                text (cat [ir_op1_names oper; " %"; var_name d; ", "])]
               ++ o ++ [text nl])
      | e_binary oper lhs rhs =>
          l <- ir_operand_serialize lhs ;;
          r <- ir_operand_serialize rhs ;;
          ret ([text "    ";
                text (cat [ir_op2_names oper; " %"; var_name d; ", "])]
               ++ l ++ [text ", "] ++ r ++ [text nl])
      | e_undefined =>
          ret [text "    "; text (cat ["undef %"; var_name d; nl])]
      end
  | flow f =>
      os <- match f with
            | f_jump target =>
                t <- get_code target ;;
                ret [text (cat [" <"; code_name t; ">"; nl])]
            | f_branch cond target =>
                o <- ir_operand_serialize cond ;;
                t <- get_code target ;;
                ret ([text " "] ++ o ++ [text (cat [", <"; code_name t; ">"; nl])])
            | f_call_direct args label =>
                os <- serialize_args args ;;
                ret ([text (cat [" <"; label; ">"])] ++ os ++ [text nl])
            | f_call_ptr args fptr =>
                o <- ir_operand_serialize fptr ;;
                os <- serialize_args args ;;
                ret ([text " "] ++ o ++ os ++ [text nl])
            | f_return (Some value) =>
                o <- ir_operand_serialize value ;;
                ret ([text " "] ++ o ++ [text nl])
            | f_return None => ret [text nl]
            end ;;
      ret ([text "    "; text (ir_flow_names (flow_type f))] ++ os)
  end.

(** [ir_func_serialize] *)
Definition ir_func_serialize : M (list chunk) :=
  fn <- get_func ;;
  vs <- emit_each (vars_list fn) (fun var =>
          x <- get_var var ;;
          ret [text (cat ["    var "; ir_prim_names (var_prim_type x); " %"; var_name x; nl])]) ;;
  az <- emit_each (args fn) (fun a =>
          x <- get_var a ;;
          ret [text (cat ["    arg %"; var_name x; nl])]) ;;
  cs <- emit_each (code_list fn) (fun code =>
          c <- get_code code ;;
          os <- emit_each (insns c) ir_insn_serialize ;;
          ret (text (cat ["code <"; code_name c; ">"; nl]) :: os)) ;;
  ret ((if enforce_ssa fn then [text "ssa "] else [])
       ++ [text (cat ["function %"; func_name fn; nl])]
       ++ vs ++ az ++ cs).

End Serializer.

(** ** Observations and invariants *)

(** What a pointer leads to in a memory; nothing when it dangles. *)
Definition uses (m : memory) (v : addr) : gset addr :=
  match heap_var m !! v with Some x => used_at x | None => ∅ end.

Definition body_at (m : memory) (i : addr) : option ir_insn_body :=
  body <$> heap_insn m !! i.

Definition insns_of (m : memory) (c : addr) : list addr :=
  match heap_code m !! c with Some x => insns x | None => [] end.

Definition succ_of (m : memory) (c : addr) : gset addr :=
  match heap_code m !! c with Some x => succ x | None => ∅ end.

Definition pred_of (m : memory) (c : addr) : gset addr :=
  match heap_code m !! c with Some x => pred x | None => ∅ end.

(** Every operand position of an instruction. *)
Definition operands (b : ir_insn_body) : list ir_operand_t :=
  match b with
  | expr _ (e_combinator from) => map bind from
  | expr _ (e_unary _ value) => [value]
  | expr _ (e_binary _ lhs rhs) => [lhs; rhs]
  | expr _ e_undefined => []
  | flow (f_jump _) => []
  | flow (f_branch cond _) => [cond]
  | flow (f_call_direct args _) => args
  | flow (f_call_ptr args fptr) => fptr :: args
  | flow (f_return (Some value)) => [value]
  | flow (f_return None) => []
  end.

(** The instruction at [i] is live and names [v] in some operand position. *)
Definition references (m : memory) (i v : addr) : Prop :=
  exists b, body_at m i = Some b /\ Exists (fun o => is_var o v = true) (operands b).

Definition referencesb (m : memory) (i v : addr) : bool :=
  match body_at m i with
  | Some b => existsb (fun o => is_var o v) (operands b)
  | None => false
  end.

(** Use-set consistency: for every live variable [v] and every address
    [i], [i] is in [v]'s use-set exactly when the instruction at [i]
    references [v]. *)
Definition use_sets_consistent (m : memory) : Prop :=
  forall v x, heap_var m !! v = Some x ->
  forall i, i ∈ used_at x <-> references m i v.

Definition use_sets_consistentb (m : memory) : bool :=
  forallb (fun vx : addr * ir_var_t =>
    forallb (fun i => referencesb m i vx.1) (elements (used_at vx.2))
    && forallb (fun ib : addr * ir_insn_t =>
         implb (referencesb m ib.1 vx.1) (set_contains (used_at vx.2) ib.1))
         (map_to_list (heap_insn m)))
    (map_to_list (heap_var m)).

(** Every parameter slot of the function holds a variable of its variable
    list. *)
Definition args_in_vars (m : memory) : Prop :=
  Forall (fun a => a ∈ vars_list (func m)) (args (func m)).

(** The last instruction of block [code] is a jump or a branch. *)
Definition ends_in_jump_or_branch (m : memory) (code : addr) : Prop :=
  exists c i f,
    heap_code m !! code = Some c /\
    insns c <> [] /\
    heap_insn m !! dlist_tail (insns c) = Some i /\
    body i = flow f /\
    (flow_type f = IR_FLOW_JUMP \/ flow_type f = IR_FLOW_BRANCH).

(** The operand is a boolean constant or a live boolean variable. *)
Definition operand_is_bool (m : memory) (o : ir_operand_t) : Prop :=
  match o with
  | op_const c => prim_type c = IR_PRIM_BOOL
  | op_var v => exists x, heap_var m !! v = Some x /\ var_prim_type x = IR_PRIM_BOOL
  end.

(** The number a string of hexadecimal digits denotes. *)
Definition hex_digit_value (a : ascii) : N :=
  let n := N_of_ascii a in
  if (48 <=? n) && (n <=? 57) then n - 48
  else if (65 <=? n) && (n <=? 70) then n - 55
  else 0.

Fixpoint hex_value_from (acc : N) (s : string) : N :=
  match s with
  | EmptyString => acc
  | String a s' => hex_value_from (16 * acc + hex_digit_value a) s'
  end.

Definition hex_value (s : string) : N := hex_value_from 0 s.

(** The memory a call leaves behind; [no_memory] when it does not return. *)
Definition memory_after {A} (o : outcome A) : memory :=
  match o with Done _ m => m | _ => no_memory end.

(** ** Functions built through the builders

    Addresses are handed out in the order of the [calloc]s, from 1. *)

Definition bool_const (b : bool) : ir_operand_t :=
  op_const {| prim_type := IR_PRIM_BOOL; constl := if b then 1 else 0;
              consth := 0 |}.

Definition s32_const (z : Z) : ir_operand_t :=
  op_const {| prim_type := IR_PRIM_S32; constl := z; consth := 0 |}.

(** A loop: [entry] (1) jumps to [L] (2), and [L] jumps to itself.
<<
    code <entry>   jump <L>
    code <L>       jump <L>
>> *)
Definition loop_function : M unit :=
  ir_func_create "f" (Some "entry"%string) 0 None ;;;
  fn <- get_func ;;
  L <- ir_code_create (Some "L"%string) ;;
  ir_add_jump (entry fn) L ;;;
  ir_add_jump L L.

(** A branch that is never taken and a block nothing leads to: [entry] (1)
    and [B] (2).
<<
    code <entry>   branch false, <entry>
    code <B>       return
>> *)
Definition dead_function : M unit :=
  ir_func_create "f" (Some "entry"%string) 0 None ;;;
  fn <- get_func ;;
  B <- ir_code_create (Some "B"%string) ;;
  ir_add_branch (entry fn) (bool_const false) (entry fn) ;;;
  ir_add_return0 B.

(** A counter: variable [v] (2), blocks [entry] (1) and [L] (3).
<<
    code <entry>   mov %v, s32'1      (instruction 4)
                   jump <L>           (instruction 5)
    code <L>       add %v, %v, s32'1  (instruction 6)
                   jump <L>           (instruction 7)
>>
    [L] has the two predecessors [entry] and [L] and assigns [v]: it is
    where [insert_combinators] calls [create_combinator] for [v]. *)
Definition counter_function : M unit :=
  ir_func_create "f" (Some "entry"%string) 0 None ;;;
  fn <- get_func ;;
  v <- ir_var_create IR_PRIM_S32 (Some "v"%string) ;;
  L <- ir_code_create (Some "L"%string) ;;
  ir_add_expr1 (entry fn) v IR_OP1_MOV (s32_const 1) ;;;
  ir_add_jump (entry fn) L ;;;
  ir_add_expr2 L v IR_OP2_ADD (op_var v) (s32_const 1) ;;;
  ir_add_jump L L.

(** A call with two variables as arguments: parameters [a] (1) and [b]
    (2), block [entry] (3).
<<
    code <entry>   call.direct <g>, %a, %b   (instruction 4)
                   return %b                 (instruction 5)
>> *)
Definition call_function : M unit :=
  ir_func_create "f" (Some "entry"%string) 2
    (Some [Some "a"; Some "b"]%string) ;;;
  fn <- get_func ;;
  ir_add_call_direct (entry fn) "g" (map op_var (args fn)) ;;;
  ir_add_return1 (entry fn) (op_var (List.last (args fn) NULL)).

(** A call through a pointer held in a variable: parameter [p] (1), block
    [entry] (2).
<<
    code <entry>   call.ptr %p               (instruction 3)
>> *)
Definition callptr_function : M unit :=
  ir_func_create "f" (Some "entry"%string) 1 (Some [Some "p"%string]) ;;;
  fn <- get_func ;;
  ir_add_call_ptr (entry fn) (op_var (dlist_head (args fn))) [].

(** A branch: [entry] (1) and [A] (2).
<<
    code <entry>   branch true, <A>          (instruction 3)
    code <A>       return                    (instruction 4)
>> *)
Definition branch_function : M unit :=
  ir_func_create "f" (Some "entry"%string) 0 None ;;;
  fn <- get_func ;;
  A <- ir_code_create (Some "A"%string) ;;
  ir_add_branch (entry fn) (bool_const true) A ;;;
  ir_add_return0 A.

(** A parameter that is never read: parameter [a] (1), block [entry] (2).
<<
    code <entry>   return                    (instruction 3)
>> *)
Definition unused_arg_function : M unit :=
  ir_func_create "f" (Some "entry"%string) 1 (Some [Some "a"%string]) ;;;
  fn <- get_func ;;
  ir_add_return0 (entry fn).

(** The memory right after a builder has allocated and filled in its
    instruction. *)
Definition with_new_insn (m : memory) (x : ir_insn_t) : memory :=
  {| func := func m; heap_var := heap_var m; heap_code := heap_code m;
     heap_insn := <[brk m := x]> (heap_insn m); brk := N.succ (brk m) |}.

(** Closing a goal about a concrete memory by evaluation. *)
Ltac evaluate := vm_compute; reflexivity.
Ltac evaluate_each := repeat (split; [evaluate|]); try evaluate.

(** The characters [%X] writes: the digits and the capitals A to F. *)
Definition is_upper_hex (a : ascii) : bool :=
  let n := N_of_ascii a in
  ((48 <=? n) && (n <=? 57)) || ((65 <=? n) && (n <=? 70)).

Fixpoint all_chars (p : ascii -> bool) (s : string) : bool :=
  match s with
  | EmptyString => true
  | String a s' => p a && all_chars p s'
  end.

(** ** What a builder leaves behind

    The instruction [x] a builder appends to block [code] at the fresh
    address [e] changes the records of the variables it names or assigns
    and of the blocks it links, in these ways and no other. *)

Definition defines (x : ir_insn_body) (v : addr) : bool :=
  match x with
  | expr dest _ => bool_decide (dest = v)
  | flow _ => false
  end.

Definition mentions (x : ir_insn_body) (v : addr) : bool :=
  existsb (fun o => is_var o v) (operands x).

(** The edge [ir_add_jump] and [ir_add_branch] enter. *)
Definition edge_of (x : ir_insn_body) : option addr :=
  match x with
  | flow (f_jump target) | flow (f_branch _ target) => Some target
  | _ => None
  end.

Definition var_after (e : addr) (x : ir_insn_body) (v : addr) (d : ir_var_t)
    : ir_var_t :=
  {| var_name := var_name d;
     var_prim_type := var_prim_type d;
     assigned_at := if defines x v then dlist_append e (assigned_at d)
                    else assigned_at d;
     used_at := if mentions x v then set_add e (used_at d) else used_at d |}.

Definition code_after (e code : addr) (x : ir_insn_body) (c : addr)
    (b : ir_code_t) : ir_code_t :=
  {| code_name := code_name b;
     insns := if bool_decide (c = code) then dlist_append e (insns b)
              else insns b;
     pred := if bool_decide (edge_of x = Some c) then set_add code (pred b)
             else pred b;
     succ := match edge_of x with
             | Some t => if bool_decide (c = code) then set_add t (succ b)
                         else succ b
             | None => succ b
             end;
     visited := visited b;
     dfs_index := dfs_index b |}.

(** The primitive type of an operand: of the constant, or of the variable
    when it is live. *)
Definition prim_of (m : memory) (o : ir_operand_t) : option ir_prim_t :=
  match o with
  | op_const c => Some (prim_type c)
  | op_var v => var_prim_type <$> heap_var m !! v
  end.

(** Type agreement, as the builders check it: both operands of a binary
    expression have the type of the destination; so has the operand of a
    unary expression other than [mov], [seqz] and [snez]; the destination
    of [seqz] and [snez] is a Bool; every operand bound in a combinator has
    the type of the destination; the condition of a branch is a Bool. *)
Definition insn_typed (m : memory) (x : ir_insn_body) : Prop :=
  match x with
  | expr dest (e_binary _ lhs rhs) =>
      exists p, prim_of m (op_var dest) = Some p /\
                prim_of m lhs = Some p /\ prim_of m rhs = Some p
  | expr dest (e_unary oper value) =>
      match oper with
      | IR_OP1_MOV => True
      | IR_OP1_SEQZ | IR_OP1_SNEZ =>
          prim_of m (op_var dest) = Some IR_PRIM_BOOL
      | _ => exists p, prim_of m (op_var dest) = Some p /\
                       prim_of m value = Some p
      end
  | expr dest (e_combinator from) =>
      Forall (fun c => exists p, prim_of m (op_var dest) = Some p /\
                                 prim_of m (bind c) = Some p) from
  | flow (f_branch cond _) => prim_of m cond = Some IR_PRIM_BOOL
  | _ => True
  end.

Definition is_jump_or_branch (x : ir_insn_body) : bool :=
  match x with
  | flow (f_jump _) | flow (f_branch _ _) => true
  | _ => false
  end.

(** The block is not empty and its last instruction is a jump or a
    branch. *)
Definition terminated (m : memory) (code : addr) : bool :=
  match heap_code m !! code with
  | Some c =>
      match last (insns c) with
      | Some t =>
          match heap_insn m !! t with
          | Some i => is_jump_or_branch (body i)
          | None => false
          end
      | None => false
      end
  | None => false
  end.

Record appended (m m' : memory) (code : addr) (x : ir_insn_body) : Prop := {
  app_func : func m' = func m;
  app_brk : brk m' = N.succ (brk m);
  app_insn : heap_insn m'
             = <[brk m := {| parent := code; body := x |}]> (heap_insn m);
  app_var : forall v, heap_var m' !! v = var_after (brk m) x v <$> heap_var m !! v;
  app_code : forall c,
    heap_code m' !! c = code_after (brk m) code x c <$> heap_code m !! c;
  app_live_code : is_Some (heap_code m !! code);
  app_live_vars : forall v,
    mentions x v = true \/ defines x v = true -> is_Some (heap_var m !! v);
  app_live_edge : forall t,
    edge_of x = Some t -> is_Some (heap_code m !! t);
  app_typed : insn_typed m x;
  app_order : heap_insn m !! brk m = None ->
              terminated m code = true -> is_jump_or_branch x = true;
  app_ssa : enforce_ssa (func m) = true ->
            forall v d, defines x v = true -> heap_var m !! v = Some d ->
                        assigned_at d = [] }.

(** Memory with one of its tables replaced. *)
Definition with_var (m : memory) (h : gmap N ir_var_t) : memory :=
  {| func := func m; heap_var := h; heap_code := heap_code m;
     heap_insn := heap_insn m; brk := brk m |}.

Definition with_code (m : memory) (h : gmap N ir_code_t) : memory :=
  {| func := func m; heap_var := heap_var m; heap_code := h;
     heap_insn := heap_insn m; brk := brk m |}.

Definition with_insn (m : memory) (h : gmap N ir_insn_t) : memory :=
  {| func := func m; heap_var := heap_var m; heap_code := heap_code m;
     heap_insn := h; brk := brk m |}.

(** Field updates of the records. *)
Definition upd_used_at (f : gset addr -> gset addr) (x : ir_var_t) : ir_var_t :=
  {| var_name := var_name x; var_prim_type := var_prim_type x;
     assigned_at := assigned_at x; used_at := f (used_at x) |}.

Definition upd_assigned_at (f : list addr -> list addr) (x : ir_var_t)
    : ir_var_t :=
  {| var_name := var_name x; var_prim_type := var_prim_type x;
     assigned_at := f (assigned_at x); used_at := used_at x |}.

Definition upd_insns (f : list addr -> list addr) (x : ir_code_t) : ir_code_t :=
  {| code_name := code_name x; insns := f (insns x); pred := pred x;
     succ := succ x; visited := visited x; dfs_index := dfs_index x |}.

Definition upd_pred (f : gset addr -> gset addr) (x : ir_code_t) : ir_code_t :=
  {| code_name := code_name x; insns := insns x; pred := f (pred x);
     succ := succ x; visited := visited x; dfs_index := dfs_index x |}.

Definition upd_succ (f : gset addr -> gset addr) (x : ir_code_t) : ir_code_t :=
  {| code_name := code_name x; insns := insns x; pred := pred x;
     succ := f (succ x); visited := visited x; dfs_index := dfs_index x |}.

(** A computation that only reads: when it returns, the memory is the one
    it started in. *)
Definition reads_only {A} (c : M A) : Prop :=
  forall m a m', c m = Done a m' -> m' = m.

(** ** The invariants of the data model *)

(** The instruction at [e] is a live expression whose destination is [v]. *)
Definition assigns (m : memory) (e v : addr) : Prop :=
  exists i sub, heap_insn m !! e = Some i /\ body i = expr v sub.

(** Assignment-list consistency: the assignment list of a live variable
    holds exactly the live expressions that assign it. *)
Definition assignments_consistent (m : memory) : Prop :=
  forall v x, heap_var m !! v = Some x ->
  forall e, e ∈ assigned_at x <-> assigns m e v.

(** Predecessor/successor symmetry between live blocks. *)
Definition flow_symmetric (m : memory) : Prop :=
  forall a b ca cb,
    heap_code m !! a = Some ca -> heap_code m !! b = Some cb ->
    (b ∈ succ ca <-> a ∈ pred cb).

(** The instruction list of a live block holds exactly the live
    instructions whose parent it is. *)
Definition blocks_consistent (m : memory) : Prop :=
  forall c b, heap_code m !! c = Some b ->
  forall i, i ∈ insns b <-> exists x, heap_insn m !! i = Some x /\ parent x = c.

(** Nothing is live at or above the next address [calloc] hands out. *)
Definition allocated_below_brk (m : memory) : Prop :=
  forall a, brk m <= a ->
    heap_var m !! a = None /\ heap_code m !! a = None /\ heap_insn m !! a = None.

(** No live record refers to an address that is still to be handed out. *)
Definition refers_below_brk (m : memory) : Prop :=
  (forall i x, heap_insn m !! i = Some x ->
     parent x < brk m /\
     forall v, mentions (body x) v = true \/ defines (body x) v = true ->
               v < brk m) /\
  (forall c b, heap_code m !! c = Some b ->
     forall a, a ∈ pred b \/ a ∈ succ b -> a < brk m).

(** The variables and blocks the function lists are live. *)
Definition lists_live (m : memory) : Prop :=
  (forall v, v ∈ vars_list (func m) -> is_Some (heap_var m !! v)) /\
  (forall c, c ∈ code_list (func m) -> is_Some (heap_code m !! c)).

(** Type agreement holds of every live instruction. *)
Definition well_typed (m : memory) : Prop :=
  forall e i, heap_insn m !! e = Some i -> insn_typed m (body i).

(** The instruction at [e] is a live jump or branch. *)
Definition terminates (m : memory) (e : addr) : Prop :=
  exists i, heap_insn m !! e = Some i /\ is_jump_or_branch (body i) = true.

(** Terminator ordering: in the instruction list of a live block, whatever
    comes after a jump or a branch is a jump or a branch. *)
Definition terminators_last (m : memory) : Prop :=
  forall c b, heap_code m !! c = Some b ->
  forall l1 e1 l2 e2 l3, insns b = l1 ++ e1 :: l2 ++ e2 :: l3 ->
  terminates m e1 -> terminates m e2.

(** No dangling reference: the parent of a live instruction, its
    destination and the variables among its operands are live, and so are
    the predecessors and successors of a live block. *)
Definition references_live (m : memory) : Prop :=
  (forall i x, heap_insn m !! i = Some x ->
     is_Some (heap_code m !! parent x) /\
     forall v, mentions (body x) v = true \/ defines (body x) v = true ->
               is_Some (heap_var m !! v)) /\
  (forall c b, heap_code m !! c = Some b ->
     forall a, a ∈ pred b \/ a ∈ succ b -> is_Some (heap_code m !! a)).

(** SSA discipline: while the function enforces the SSA form, no live
    variable has more than one assignment. *)
Definition ssa_disciplined (m : memory) : Prop :=
  enforce_ssa (func m) = true ->
  forall v d, heap_var m !! v = Some d -> (length (assigned_at d) <= 1)%nat.

Record well_formed (m : memory) : Prop := {
  wf_uses : use_sets_consistent m;
  wf_assignments : assignments_consistent m;
  wf_flow : flow_symmetric m;
  wf_blocks : blocks_consistent m;
  wf_args : args_in_vars m;
  wf_lists : lists_live m;
  wf_alloc : allocated_below_brk m;
  wf_refs : refers_below_brk m;
  wf_typed : well_typed m;
  wf_order : terminators_last m;
  wf_ssa : ssa_disciplined m;
  wf_live : references_live m }.

(** ** Building a function: the calls a client makes *)

Inductive api_call :=
  | call_var_create (type : ir_prim_t) (name : option string)
  | call_code_create (name : option string)
  | call_add_combinator (code dest : addr) (from : list ir_combinator_t)
  | call_add_expr1 (code dest : addr) (oper : ir_op1_type_t)
      (operand : ir_operand_t)
  | call_add_expr2 (code dest : addr) (oper : ir_op2_type_t)
      (lhs rhs : ir_operand_t)
  | call_add_undefined (code dest : addr)
  | call_add_call_direct (from : addr) (label : string)
      (params : list ir_operand_t)
  | call_add_call_ptr (from : addr) (funcptr : ir_operand_t)
      (params : list ir_operand_t)
  | call_add_jump (from to : addr)
  | call_add_branch (from : addr) (cond : ir_operand_t) (to : addr)
  | call_add_return0 (from : addr)
  | call_add_return1 (from : addr) (value : ir_operand_t).

Definition run_call (c : api_call) : M unit :=
  match c with
  | call_var_create type name => ir_var_create type name ;;; ret tt
  | call_code_create name => ir_code_create name ;;; ret tt
  | call_add_combinator code dest from => ir_add_combinator code dest from
  | call_add_expr1 code dest oper operand =>
      ir_add_expr1 code dest oper operand
  | call_add_expr2 code dest oper lhs rhs =>
      ir_add_expr2 code dest oper lhs rhs
  | call_add_undefined code dest => ir_add_undefined code dest
  | call_add_call_direct from label params =>
      ir_add_call_direct from label params
  | call_add_call_ptr from funcptr params =>
      ir_add_call_ptr from funcptr params
  | call_add_jump from to => ir_add_jump from to
  | call_add_branch from cond to => ir_add_branch from cond to
  | call_add_return0 from => ir_add_return0 from
  | call_add_return1 from value => ir_add_return1 from value
  end.

(** A function taken through [ir_func_create] and then a list of calls. *)
Definition build (name : string) (entry_name : option string)
    (args_len : nat) (args_name : option (list (option string)))
    (calls : list api_call) : M unit :=
  ir_func_create name entry_name args_len args_name ;;;
  foreach calls run_call.

(** The block and the instruction a builder call appends. *)
Definition appended_by (c : api_call) : option (addr * ir_insn_body) :=
  match c with
  | call_var_create _ _ | call_code_create _ => None
  | call_add_combinator code dest from =>
      Some (code, expr dest (e_combinator from))
  | call_add_expr1 code dest oper operand =>
      Some (code, expr dest (e_unary oper operand))
  | call_add_expr2 code dest oper lhs rhs =>
      Some (code, expr dest (e_binary oper lhs rhs))
  | call_add_undefined code dest => Some (code, expr dest e_undefined)
  | call_add_call_direct from label params =>
      Some (from, flow (f_call_direct params label))
  | call_add_call_ptr from funcptr params =>
      Some (from, flow (f_call_ptr params funcptr))
  | call_add_jump from to => Some (from, flow (f_jump to))
  | call_add_branch from cond to => Some (from, flow (f_branch cond to))
  | call_add_return0 from => Some (from, flow (f_return None))
  | call_add_return1 from value => Some (from, flow (f_return (Some value)))
  end.

(** ** What [ir_insn_delete] leaves behind

    The operands [ir_insn_delete] takes the instruction out of the use-set
    of: all of them, but for the address operand of a call through a
    pointer. *)
Definition unused_operands (b : ir_insn_body) : list ir_operand_t :=
  match b with
  | flow (f_call_ptr args _) => args
  | _ => operands b
  end.

Definition var_without (e : addr) (b : ir_insn_body) (v : addr) (d : ir_var_t)
    : ir_var_t :=
  {| var_name := var_name d;
     var_prim_type := var_prim_type d;
     assigned_at := if defines b v then dlist_remove e (assigned_at d)
                    else assigned_at d;
     used_at := if existsb (fun o => is_var o v) (unused_operands b)
                then set_remove e (used_at d) else used_at d |}.

Record removed (m m' : memory) (e : addr) (i : ir_insn_t) : Prop := {
  rem_live : heap_insn m !! e = Some i;
  rem_func : func m' = func m;
  rem_brk : brk m' = brk m;
  rem_insn : heap_insn m' = delete e (heap_insn m);
  rem_var : forall v,
    heap_var m' !! v = var_without e (body i) v <$> heap_var m !! v;
  rem_code : heap_code m'
             = alter (upd_insns (dlist_remove e)) (parent i) (heap_code m);
  rem_live_code : is_Some (heap_code m !! parent i) }.

(** ** What the constant-propagation pass folds *)

(** A unary expression of a constant or a binary expression of two. *)
Definition is_const_expr (b : ir_insn_body) : bool :=
  match b with
  | expr _ (e_unary _ (op_const _)) => true
  | expr _ (e_binary _ (op_const _) (op_const _)) => true
  | _ => false
  end.

(** The variable is live and has exactly one assignment, which is live and
    an expression of constants. *)
Definition foldable (m : memory) (v : addr) : Prop :=
  exists x e i,
    heap_var m !! v = Some x /\ assigned_at x = [e] /\
    heap_insn m !! e = Some i /\ is_const_expr (body i) = true.

(** ** What [ir_var_replace] leaves behind *)

(** The instruction [ir_var_replace] leaves in the place of one that is in
    the use-set of [var]. *)
Definition replaced (var : addr) (value : ir_operand_t) (b : ir_insn_body)
    : ir_insn_body :=
  match b with
  | expr dest (e_unary oper _) => expr dest (e_unary oper value)
  | expr dest (e_binary oper lhs rhs) =>
      expr dest (e_binary oper (if is_var lhs var then value else lhs)
                               (if is_var rhs var then value else rhs))
  | expr dest (e_combinator from) =>
      expr dest (e_combinator
        (map (fun c => if is_var (bind c) var
                       then {| prev := prev c; bind := value |} else c) from))
  | expr _ e_undefined => b
  | flow (f_branch cond target) =>
      if is_var cond var then flow (f_branch value target) else b
  | flow (f_call_ptr args fptr) =>
      flow (f_call_ptr (map (fun a => if is_const a then a else value) args)
                       (if is_var fptr var then value else fptr))
  | flow (f_call_direct args label) =>
      flow (f_call_direct (map (fun a => if is_const a then a else value) args)
                          label)
  | flow (f_return (Some (op_var _))) => flow (f_return (Some value))
  | flow (f_return _) => b
  | flow (f_jump _) => b
  end.

Definition upd_body (f : ir_insn_body -> ir_insn_body) (i : ir_insn_t)
    : ir_insn_t :=
  {| parent := parent i; body := f (body i) |}.

(** Two variable heaps hold the same variables, with the same names, types
    and assignment lists: they differ in use-sets only. *)
Definition same_but_uses (hv hv' : gmap N ir_var_t) : Prop :=
  forall v,
    (fun x => (var_name x, var_prim_type x, assigned_at x)) <$> hv' !! v
    = (fun x => (var_name x, var_prim_type x, assigned_at x)) <$> hv !! v.

(** The computation changes nothing but use-sets. *)
Definition uses_only (c : M unit) : Prop :=
  forall m m', c m = Done tt m' ->
    func m' = func m /\ brk m' = brk m /\ heap_code m' = heap_code m /\
    heap_insn m' = heap_insn m /\ same_but_uses (heap_var m) (heap_var m').

(** ** What [ir_func_create] builds *)

(** The name of parameter [j]: the one given, or its index in decimal. *)
Definition arg_name (args_name : option (list (option string))) (j : nat)
    : string :=
  match args_name with
  | Some names =>
      match names !! j with
      | Some (Some s) => s
      | _ => fmt_zu j
      end
  | None => fmt_zu j
  end.

(** The state of [ir_func_create] after [i] rounds of its loop. *)
Record args_made (name : string) (args_name : option (list (option string)))
    (i : nat) (m : memory) : Prop := {
  am_name : func_name (func m) = name;
  am_vars : vars_list (func m) = args (func m);
  am_len : length (args (func m)) = i;
  am_nodup : NoDup (args (func m));
  am_below : forall a, a ∈ args (func m) -> a < brk m;
  am_fresh : forall a, brk m <= a -> heap_var m !! a = None;
  am_arg : forall j a, args (func m) !! j = Some a ->
             heap_var m !! a
             = Some {| var_name := arg_name args_name j;
                       var_prim_type := IR_PRIM_S32;
                       assigned_at := []; used_at := ∅ |};
  am_code : code_list (func m) = [];
  am_ssa : enforce_ssa (func m) = false;
  am_heap_code : heap_code m = ∅;
  am_heap_insn : heap_insn m = ∅ }.

(** ** What a builder accepts *)

(** The conditions under which a builder appends [x] to [code]: what it
    dereferences is live, the types agree, a block that ends in a jump or a
    branch is given only another one, and SSA is observed. *)
Record accepts (m : memory) (code : addr) (x : ir_insn_body) : Prop := {
  acc_code : is_Some (heap_code m !! code);
  acc_vars : forall v,
    mentions x v = true \/ defines x v = true -> is_Some (heap_var m !! v);
  acc_edge : forall t, edge_of x = Some t -> is_Some (heap_code m !! t);
  acc_typed : insn_typed m x;
  acc_order : terminated m code = true -> is_jump_or_branch x = true;
  acc_ssa : enforce_ssa (func m) = true ->
            forall v d, defines x v = true -> heap_var m !! v = Some d ->
                        assigned_at d = [] }.

(** The memory [M] of a builder that was called on [m], between the
    allocation of its instruction and the final updates of the lists. *)
Record during (m M : memory) : Prop := {
  du_func : func M = func m;
  du_code : heap_code M = heap_code m;
  du_insn : exists e, heap_insn M = <[brk m := e]> (heap_insn m);
  du_var : same_but_uses (heap_var m) (heap_var M) }.

(** The operand is a constant or a live variable. *)
Definition operand_live (m : memory) (o : ir_operand_t) : Prop :=
  match o with
  | op_var v => is_Some (heap_var m !! v)
  | op_const _ => True
  end.

(** The same variables and the same blocks are live in [M] as in [m]. *)
Definition same_domain (m M : memory) : Prop :=
  (forall v, is_Some (heap_var M !! v) <-> is_Some (heap_var m !! v)) /\
  (forall c, is_Some (heap_code M !! c) <-> is_Some (heap_code m !! c)) /\
  heap_insn M = heap_insn m.

(** ** What [ir_func_recalc_flow] computes *)

(** The target of the live jump at [insn], if it is one. *)
Definition jump_target_at (m : memory) (insn : addr) : option addr :=
  match heap_insn m !! insn with
  | Some i =>
      match body i with
      | flow (f_jump t) => Some t
      | _ => None
      end
  | None => None
  end.

(** The instruction at [insn] is a live branch. *)
Definition branch_at (m : memory) (insn : addr) : Prop :=
  exists i cond t, heap_insn m !! insn = Some i /\ body i = flow (f_branch cond t).

(** The target of the live jump or branch at [insn], if it is one. *)
Definition flow_target_at (m : memory) (insn : addr) : option addr :=
  match heap_insn m !! insn with
  | Some i =>
      match body i with
      | flow f => f_jump_target f
      | expr _ _ => None
      end
  | None => None
  end.

(** The instruction at [insn] is a live jump to [t] or a live branch to
    [t]. *)
Definition jump_or_branch_at (m : memory) (insn t : addr) : Prop :=
  exists i, heap_insn m !! insn = Some i /\
    (body i = flow (f_jump t) \/ exists cond, body i = flow (f_branch cond t)).

(** The flow edges of a block: one for each jump and each branch in its
    instruction list. *)
Definition flow_edges (m : memory) (code : addr) : list (addr * addr) :=
  map (fun t => (code, t)) (omap (flow_target_at m) (insns_of m code)).

(** What [ir_func_recalc_flow] needs in order to return: the listed blocks
    are live, and so are the instructions in their lists and the targets of
    the jumps and branches among them. *)
Definition flow_live (m : memory) : Prop :=
  forall c, c ∈ code_list (func m) ->
    is_Some (heap_code m !! c) /\
    forall insn, insn ∈ insns_of m c ->
      is_Some (heap_insn m !! insn) /\
      forall t, jump_or_branch_at m insn t -> is_Some (heap_code m !! t).

(** A block after the edges [E] have been entered on both ends. *)
Definition link_all (E : list (addr * addr)) (c : addr) (b : ir_code_t)
    : ir_code_t :=
  {| code_name := code_name b; insns := insns b;
     pred := pred b ∪ list_to_set (map fst (filter (fun e => e.2 = c) E));
     succ := succ b ∪ list_to_set (map snd (filter (fun e => e.1 = c) E));
     visited := visited b; dfs_index := dfs_index b |}.

(** A block after its two sets have been cleared. *)
Definition unlinked (b : ir_code_t) : ir_code_t :=
  {| code_name := code_name b; insns := insns b; pred := ∅; succ := ∅;
     visited := visited b; dfs_index := dfs_index b |}.

(** [M'] is [M] with the edges [E] entered; nothing else differs. *)
Definition linked (E : list (addr * addr)) (M M' : memory) : Prop :=
  func M' = func M /\ brk M' = brk M /\ heap_var M' = heap_var M /\
  heap_insn M' = heap_insn M /\
  forall c, heap_code M' !! c = link_all E c <$> heap_code M !! c.

(** ** What the deleting functions and the optimizer never do *)

(** [m'] has nothing [m] had not: the same name, parameter array, entry
    pointer and SSA flag, no new entry in the variable list or the block
    list, no allocation, and no live variable, block or instruction that
    was not live. *)
Record shrinks (m m' : memory) : Prop := {
  sh_name : func_name (func m') = func_name (func m);
  sh_args : args (func m') = args (func m);
  sh_entry : entry (func m') = entry (func m);
  sh_ssa : enforce_ssa (func m') = enforce_ssa (func m);
  sh_vars_list : forall v, v ∈ vars_list (func m') -> v ∈ vars_list (func m);
  sh_code_list : forall c, c ∈ code_list (func m') -> c ∈ code_list (func m);
  sh_brk : brk m' = brk m;
  sh_var : forall v, is_Some (heap_var m' !! v) -> is_Some (heap_var m !! v);
  sh_code : forall c, is_Some (heap_code m' !! c) -> is_Some (heap_code m !! c);
  sh_insn : forall i, is_Some (heap_insn m' !! i) -> is_Some (heap_insn m !! i) }.

Definition only_deletes {A} (c : M A) : Prop :=
  forall m a m', c m = Done a m' -> shrinks m m'.

(** A conditional: variable [c] (2), blocks [entry] (1), [A] (3) and [B]
    (4).
<<
    code <entry>   branch %c, <A>     (instruction 5)
                   jump <B>           (instruction 6)
    code <A>       return             (instruction 7)
    code <B>       return             (instruction 8)
>> *)
Definition if_function : M unit :=
  ir_func_create "f" (Some "entry"%string) 0 None ;;;
  fn <- get_func ;;
  c <- ir_var_create IR_PRIM_BOOL (Some "c"%string) ;;
  A <- ir_code_create (Some "A"%string) ;;
  B <- ir_code_create (Some "B"%string) ;;
  ir_add_branch (entry fn) (op_var c) A ;;;
  ir_add_jump (entry fn) B ;;;
  ir_add_return0 A ;;;
  ir_add_return0 B.

(** * Properties *)

(** ** The serializer's hexadecimal field *)

Lemma string_length_app (s1 s2 : string) :
  String.length (s1 ++ s2)%string = (String.length s1 + String.length s2)%nat.
Proof. induction s1 as [|a s1 IH]; simpl; [reflexivity | now rewrite IH]. Qed.

Lemma zeros_length (k : nat) : String.length (zeros k) = k.
Proof. induction k as [|k IH]; simpl; [reflexivity | now rewrite IH]. Qed.

Lemma hex_of_nonempty (r : nat) (n : N) :
  (1 <= String.length (hex_of (S r) n))%nat.
Proof.
  simpl. destruct (n <? 16); simpl; [lia |].
  rewrite string_length_app. simpl. lia.
Qed.

(** A numeral of at most [k] digits is a number below [16 ^ k]. *)
Lemma hex_of_length (r : nat) : forall (n : N) (k : nat),
  n < 16 ^ N.of_nat r -> (1 <= k)%nat ->
  ((String.length (hex_of r n) <= k)%nat <-> n < 16 ^ N.of_nat k).
Proof.
  induction r as [|r IH]; intros n k Hn Hk.
  - simpl in Hn. assert (n = 0) by lia. subst n. simpl. split; [|lia].
    intros _. apply N.neq_0_lt_0, N.pow_nonzero. lia.
  - simpl hex_of. destruct (N.ltb_spec n 16) as [Hlt|Hge].
    + simpl. split; [|lia]. intros _.
      apply N.lt_le_trans with (16 ^ 1); [simpl; lia|].
      apply N.pow_le_mono_r; lia.
    + rewrite string_length_app. simpl.
      assert (Hq : n / 16 < 16 ^ N.of_nat r).
      { apply N.Div0.div_lt_upper_bound.
        replace (16 * 16 ^ N.of_nat r) with (16 ^ N.of_nat (S r)); [exact Hn|].
        rewrite Nat2N.inj_succ, N.pow_succ_r'. reflexivity. }
      destruct k as [|[|k]]; [lia| |].
      * split.
        -- intros Hlen. destruct r as [|r].
           ++ simpl in Hq. assert (n / 16 = 0) by lia.
              apply N.div_small_iff in H; lia.
           ++ pose proof (hex_of_nonempty r (n / 16)). lia.
        -- simpl. lia.
      * specialize (IH (n / 16) (S k) Hq ltac:(lia)).
        replace (16 ^ N.of_nat (S (S k))) with (16 * 16 ^ N.of_nat (S k))
          by (rewrite (Nat2N.inj_succ (S k)), N.pow_succ_r'; reflexivity).
        split.
        -- intros Hlen. assert (Hq' : n / 16 < 16 ^ N.of_nat (S k)) by (apply IH; lia).
           pose proof (N.Div0.div_mod n 16) as Hdm.
           pose proof (N.mod_lt n 16 ltac:(lia)). lia.
        -- intros Hlt.
           assert (Hq' : n / 16 < 16 ^ N.of_nat (S k))
             by (apply N.Div0.div_lt_upper_bound; exact Hlt).
           apply IH in Hq'. lia.
Qed.

Lemma hex_digit_value_digit (d : N) : d < 16 -> hex_digit_value (hex_digit d) = d.
Proof.
  intros H. rewrite <- (N2Nat.id d).
  assert (Hn : (N.to_nat d < 16)%nat) by lia.
  generalize dependent (N.to_nat d). clear H. intros n Hn.
  do 16 (destruct n as [|n]; [reflexivity|]). lia.
Qed.

Lemma hex_value_from_app (s1 s2 : string) : forall acc,
  hex_value_from acc (s1 ++ s2)%string = hex_value_from (hex_value_from acc s1) s2.
Proof. induction s1 as [|a s1 IH]; intros acc; simpl; [reflexivity | apply IH]. Qed.

Lemma hex_value_zeros (k : nat) : hex_value_from 0 (zeros k) = 0.
Proof. induction k as [|k IH]; simpl; [reflexivity | exact IH]. Qed.

(** The numeral [%X] writes denotes the number written. *)
Lemma hex_value_hex_of (r : nat) : forall n : N,
  n < 16 ^ N.of_nat r -> hex_value_from 0 (hex_of r n) = n.
Proof.
  induction r as [|r IH]; intros n Hn.
  - simpl in *. lia.
  - simpl hex_of. destruct (N.ltb_spec n 16) as [Hlt|Hge].
    + simpl. rewrite hex_digit_value_digit by exact Hlt. lia.
    + rewrite hex_value_from_app, IH.
      * simpl. rewrite hex_digit_value_digit by (apply N.mod_lt; lia).
        pose proof (N.Div0.div_mod n 16). lia.
      * apply N.Div0.div_lt_upper_bound.
        rewrite Nat2N.inj_succ, N.pow_succ_r' in Hn. exact Hn.
Qed.

Lemma uint64_bound (z : Z) : uint64 z < 16 ^ N.of_nat 16.
Proof.
  unfold uint64. change (16 ^ N.of_nat 16) with (Z.to_N (2 ^ 64)).
  pose proof (Z.mod_pos_bound z (2 ^ 64) ltac:(lia)). lia.
Qed.

Lemma fmt_0X64_value (width : nat) (n : N) :
  n < 16 ^ N.of_nat 16 -> hex_value (fmt_0X64 width n) = n.
Proof.
  intros Hn. unfold hex_value, fmt_0X64.
  rewrite hex_value_from_app, hex_value_zeros. now apply hex_value_hex_of.
Qed.

Lemma fmt_0X64_length (width : nat) (n : N) :
  String.length (fmt_0X64 width n)
  = Nat.max width (String.length (hex_of 16 n)).
Proof. unfold fmt_0X64. rewrite string_length_app, zeros_length. lia. Qed.

(** C8, as the code has it.  For a constant of a primitive type other than
    Bool whose size is at most 8 bytes, the serializer writes the name of
    the type, then ['0x], then the upper-case hexadecimal numeral of the low
    64-bit half padded with zeros on the left to [2 * size] digits.  The
    field denotes the low half and has at least [2 * size] digits; it has
    exactly [2 * size] digits if and only if the low half is below
    [2 ^ (8 * size)]. *)
Theorem constant_hex_field (c : ir_const_t) (m : memory) :
  prim_type c <> IR_PRIM_BOOL ->
  (ir_prim_sizes (prim_type c) <= 8)%nat ->
  let size := ir_prim_sizes (prim_type c) in
  let field := fmt_0X64 (size * 2) (uint64 (constl c)) in
  (exists comment,
     ir_operand_serialize (op_const c) m
     = Done ([text (ir_prim_names (prim_type c)); text "'0x"; text field]
             ++ comment) m) /\
  hex_value field = uint64 (constl c) /\
  (size * 2 <= String.length field)%nat /\
  (String.length field = (size * 2)%nat
   <-> uint64 (constl c) < 2 ^ N.of_nat (8 * size)).
Proof.
  intros Hbool Hsize size field. repeat split.
  - unfold ir_operand_serialize.
    rewrite bool_decide_eq_false_2 by exact Hbool.
    rewrite (bool_decide_eq_false_2 (ir_prim_sizes (prim_type c) = 16%nat))
      by lia.
    eexists. reflexivity.
  - apply fmt_0X64_value, uint64_bound.
  - unfold field. rewrite fmt_0X64_length. lia.
  - unfold field. rewrite fmt_0X64_length. intros Hlen.
    assert (Hpos : (1 <= size * 2)%nat) by (unfold size; destruct (prim_type c); simpl; lia).
    replace (2 ^ N.of_nat (8 * size)) with (16 ^ N.of_nat (size * 2)).
    + apply (hex_of_length 16 _ _ (uint64_bound _) Hpos). lia.
    + change 16 with (2 ^ 4) at 1. rewrite <- N.pow_mul_r. f_equal. lia.
  - unfold field. rewrite fmt_0X64_length. intros Hlt.
    assert (Hpos : (1 <= size * 2)%nat) by (unfold size; destruct (prim_type c); simpl; lia).
    replace (2 ^ N.of_nat (8 * size)) with (16 ^ N.of_nat (size * 2)) in Hlt.
    + apply (hex_of_length 16 _ _ (uint64_bound _) Hpos) in Hlt. lia.
    + change 16 with (2 ^ 4) at 1. rewrite <- N.pow_mul_r. f_equal. lia.
Qed.

Lemma constant_hex_field_witness :
  let c := {| prim_type := IR_PRIM_S32; constl := 5; consth := 0 |} in
  prim_type c <> IR_PRIM_BOOL /\
  (ir_prim_sizes (prim_type c) <= 8)%nat /\
  (exists comment,
     ir_operand_serialize (op_const c) no_memory
     = Done ([text "s32"; text "'0x"; text "00000005"] ++ comment) no_memory).
Proof.
  split; [discriminate|]. split; [simpl; lia|].
  apply (constant_hex_field
           {| prim_type := IR_PRIM_S32; constl := 5; consth := 0 |} no_memory);
    [discriminate | simpl; lia].
Defined.

(** C8, as stated, fails: the 1-byte constant with low half [0x1FF] is
    written with three digits, not two. *)
Lemma constant_hex_field_overflows :
  ir_operand_serialize
    (op_const {| prim_type := IR_PRIM_S8; constl := 511; consth := 0 |})
    no_memory
  = Done [text "s8"; text "'0x"; text "1FF"] no_memory /\
  String.length "1FF" <> (2 * ir_prim_sizes IR_PRIM_S8)%nat.
Proof. split; [vm_compute; reflexivity | simpl; lia]. Qed.

(** ** Builders after a jump or a branch *)

Lemma bind_Done {A B} (c : M A) (k : A -> M B) (m m' : memory) (a : A) :
  c m = Done a m' -> bind_M c k m = k a m'.
Proof. unfold bind_M. now intros ->. Qed.

Lemma bind_Abort {A B} (c : M A) (k : A -> M B) (m : memory) (b : bug) :
  c m = Abort b -> bind_M c k m = Abort b.
Proof. unfold bind_M. now intros ->. Qed.

Lemma alloc_insn {B} (x : ir_insn_t) (k : addr -> M B) (m : memory) :
  bind_M calloc (fun e => bind_M (put_insn e x) (fun _ => k e)) m
  = k (brk m) (with_new_insn m x).
Proof. reflexivity. Qed.

Lemma last_check (m : memory) (code : addr) :
  ends_in_jump_or_branch m code ->
  last_is_jump_or_branch code m = Done true m.
Proof.
  intros (c & i & f & Hc & Hne & Hi & Hf & Hty).
  unfold last_is_jump_or_branch, bind_M, get_code. rewrite Hc.
  rewrite bool_decide_eq_false_2 by (destruct (insns c); [congruence | discriminate]).
  unfold get_insn. rewrite Hi, Hf.
  destruct f; simpl in Hty; destruct Hty; try discriminate; reflexivity.
Qed.

Lemma ends_with_new_insn (m : memory) (code : addr) (x : ir_insn_t) :
  ends_in_jump_or_branch m code ->
  heap_insn m !! brk m = None ->
  ends_in_jump_or_branch (with_new_insn m x) code.
Proof.
  intros (c & i & f & Hc & Hne & Hi & Hf & Hty) Hfresh.
  exists c, i, f. repeat split; try assumption.
  simpl. rewrite lookup_insert_ne; [exact Hi|].
  intros Heq. rewrite <- Heq in Hi. congruence.
Qed.

Lemma abort_after_terminator {B} (m : memory) (code : addr) (x : ir_insn_t)
    (b : bug) (k : addr -> M B) :
  ends_in_jump_or_branch m code ->
  heap_insn m !! brk m = None ->
  bind_M calloc (fun e => bind_M (put_insn e x) (fun _ =>
    bind_M (last_is_jump_or_branch code) (fun after =>
      if after then abort b else k e))) m = Abort b.
Proof.
  intros Hend Hfresh. rewrite alloc_insn.
  erewrite bind_Done by (apply last_check, ends_with_new_insn; eassumption).
  reflexivity.
Qed.

(** The common tail of [ir_add_jump] and [ir_add_branch]: the edge is
    entered on both ends and the instruction appended. *)
Lemma link_and_append (m : memory) (from to fl : addr) :
  is_Some (heap_code m !! from) -> is_Some (heap_code m !! to) ->
  exists m',
    (set_succ from (set_add to) ;;;
     set_pred to (set_add from) ;;;
     set_insns from (dlist_append fl)) m = Done tt m' /\
    heap_insn m' = heap_insn m /\
    insns_of m' from = insns_of m from ++ [fl] /\
    succ_of m' from = set_add to (succ_of m from) /\
    pred_of m' to = set_add from (pred_of m to).
Proof.
  intros [c Hc] [tc Htc].
  unfold set_succ, set_pred, set_insns, bind_M, get_code, put_code. simpl.
  rewrite Hc. simpl.
  destruct (decide (from = to)) as [<-|Hneq].
  - rewrite lookup_insert_eq. simpl. rewrite lookup_insert_eq. simpl.
    eexists. split; [reflexivity|].
    unfold insns_of, succ_of, pred_of. simpl.
    rewrite !lookup_insert_eq, Hc. simpl. done.
  - rewrite lookup_insert_ne by done. rewrite Htc. simpl.
    rewrite lookup_insert_ne by done. rewrite lookup_insert_eq. simpl.
    eexists. split; [reflexivity|].
    unfold insns_of, succ_of, pred_of. simpl.
    rewrite !lookup_insert_eq, Hc, Htc. simpl.
    rewrite lookup_insert_ne by done. rewrite lookup_insert_eq. done.
Qed.

Lemma operand_prim_bool (m : memory) (o : ir_operand_t) :
  operand_is_bool m o -> operand_prim o m = Done IR_PRIM_BOOL m.
Proof.
  destruct o as [k|v]; simpl.
  - intros ->. reflexivity.
  - intros (x & Hx & Hprim). unfold bind_M, get_var. rewrite Hx, Hprim.
    reflexivity.
Qed.

Lemma use_operand_bool (m : memory) (o : ir_operand_t) (i : addr) :
  operand_is_bool m o ->
  exists m', use_operand o i m = Done tt m' /\
             heap_code m' = heap_code m /\ heap_insn m' = heap_insn m.
Proof.
  destruct o as [k|v]; simpl.
  - intros _. exists m. done.
  - intros (x & Hx & _). unfold set_used_at, bind_M, get_var, put_var.
    rewrite Hx. eexists. split; [reflexivity|]. done.
Qed.

(** C9.  On a block whose last instruction is a jump or a branch,
    [ir_add_jump] and [ir_add_branch] (with a boolean condition) return:
    the new instruction is appended and the edge entered in the successor
    set of the block and the predecessor set of the target.  Each of the
    other builders aborts there with its diagnostic. *)
Theorem jump_and_branch_after_terminator (m : memory) (from : addr) :
  ends_in_jump_or_branch m from ->
  heap_insn m !! brk m = None ->
  (forall to, is_Some (heap_code m !! to) ->
     exists m', ir_add_jump from to m = Done tt m' /\
       insns_of m' from = insns_of m from ++ [brk m] /\
       body_at m' (brk m) = Some (flow (f_jump to)) /\
       succ_of m' from = set_add to (succ_of m from) /\
       pred_of m' to = set_add from (pred_of m to)) /\
  (forall cond to, is_Some (heap_code m !! to) -> operand_is_bool m cond ->
     exists m', ir_add_branch from cond to m = Done tt m' /\
       insns_of m' from = insns_of m from ++ [brk m] /\
       body_at m' (brk m) = Some (flow (f_branch cond to)) /\
       succ_of m' from = set_add to (succ_of m from) /\
       pred_of m' to = set_add from (pred_of m to)) /\
  (forall dest oper operand,
     ir_add_expr1 from dest oper operand m = Abort BUG_expr_after_jump) /\
  (forall dest oper lhs rhs,
     ir_add_expr2 from dest oper lhs rhs m = Abort BUG_expr_after_jump) /\
  (forall dest, ir_add_undefined from dest m = Abort BUG_expr_after_jump) /\
  (forall dest entries,
     ir_add_combinator from dest entries m = Abort BUG_expr_after_jump) /\
  (forall label params,
     ir_add_call_direct from label params m = Abort BUG_call_after_jump) /\
  (forall funcptr params,
     ir_add_call_ptr from funcptr params m = Abort BUG_call_after_jump) /\
  ir_add_return0 from m = Abort BUG_return_after_jump /\
  (forall value, ir_add_return1 from value m = Abort BUG_return_after_jump).
Proof.
  intros Hend Hfresh.
  assert (Hfrom : is_Some (heap_code m !! from))
    by (destruct Hend as (c & ? & ? & Hc & _); eauto).
  split; [|split; [|repeat split; intros; apply abort_after_terminator; assumption]].
  - intros to Hto. unfold ir_add_jump. rewrite alloc_insn.
    destruct (link_and_append
                (with_new_insn m {| parent := from; body := flow (f_jump to) |})
                from to (brk m) Hfrom Hto) as (m' & Hrun & Hi & Hins & Hs & Hp).
    exists m'. split; [exact Hrun|]. repeat split; try assumption.
    unfold body_at. rewrite Hi. simpl. now rewrite lookup_insert_eq.
  - intros cond to Hto Hbool. unfold ir_add_branch. rewrite alloc_insn.
    set (m1 := with_new_insn m {| parent := from; body := flow (f_branch cond to) |}).
    assert (Hbool1 : operand_is_bool m1 cond) by exact Hbool.
    erewrite bind_Done by (apply operand_prim_bool; exact Hbool1).
    rewrite bool_decide_eq_false_2 by (now intros []).
    destruct (use_operand_bool m1 cond (brk m) Hbool1) as (m2 & Hrun2 & Hc2 & Hi2).
    erewrite bind_Done by exact Hrun2.
    destruct (link_and_append m2 from to (brk m)) as (m' & Hrun & Hi & Hins & Hs & Hp);
      [rewrite Hc2; exact Hfrom | rewrite Hc2; exact Hto |].
    exists m'. split; [exact Hrun|].
    unfold insns_of, succ_of, pred_of in *. rewrite Hc2 in *. simpl in *.
    repeat split; try assumption.
    unfold body_at. rewrite Hi, Hi2. simpl. now rewrite lookup_insert_eq.
Qed.

Lemma jump_and_branch_after_terminator_witness :
  let m := memory_after (loop_function no_memory) in
  ends_in_jump_or_branch m 1 /\
  heap_insn m !! brk m = None /\
  (exists m', ir_add_jump 1 2 m = Done tt m' /\
              insns_of m' 1 = insns_of m 1 ++ [brk m]) /\
  ir_add_return0 1 m = Abort BUG_return_after_jump.
Proof.
  intros m.
  assert (Hend : ends_in_jump_or_branch m 1).
  { eexists _, _, _. split; [vm_compute; reflexivity|].
    split; [vm_compute; discriminate|].
    split; [vm_compute; reflexivity|].
    split; [reflexivity | left; reflexivity]. }
  assert (Hfresh : heap_insn m !! brk m = None) by (vm_compute; reflexivity).
  split; [exact Hend|]. split; [exact Hfresh|].
  destruct (jump_and_branch_after_terminator m 1 Hend Hfresh)
    as (Hjump & _ & _ & _ & _ & _ & _ & _ & Hret & _).
  split; [|exact Hret].
  destruct (Hjump 2) as (m' & Hrun & Hins & _).
  - vm_compute. eauto.
  - exists m'. split; assumption.
Defined.


(** ** The functions above, evaluated *)

(** C4, as the code behaves.  On [call.direct <g>, %a, %b] the call
    [ir_var_replace(a, s32'7)] returns with both arguments overwritten: the
    argument that names [b] is now the constant too, and the call is still
    in the use-set of [b]. *)
Theorem replace_overwrites_other_arguments :
  exists m m',
    call_function no_memory = Done tt m /\
    args (func m) = [1; 2] /\
    insns_of m 3 = [4; 5] /\
    body_at m 4 = Some (flow (f_call_direct [op_var 1; op_var 2] "g")) /\
    ir_var_replace 1 (s32_const 7) m = Done tt m' /\
    body_at m' 4 = Some (flow (f_call_direct [s32_const 7; s32_const 7] "g")) /\
    4 ∈ uses m' 2.
Proof. eexists _, _. evaluate_each. Qed.

(** C5, as the code behaves.  Deleting the instruction [call.ptr %p]
    frees it and unlinks it from its block, and leaves it in the use-set of
    [p]. *)
Theorem delete_keeps_callptr_address_use :
  exists m m',
    callptr_function no_memory = Done tt m /\
    insns_of m 2 = [3] /\
    body_at m 3 = Some (flow (f_call_ptr [] (op_var 1))) /\
    uses m 1 = {[3]} /\
    ir_insn_delete 3 m = Done tt m' /\
    insns_of m' 2 = [] /\
    body_at m' 3 = None /\
    uses m' 1 = {[3]}.
Proof. eexists _, _. evaluate_each. Qed.

(** C2, as the code behaves.  On the function with a branch on the
    constant false and a block nothing leads to, [opt_dead_code] and
    [optimize] return false, and the memory they leave has neither the
    branch nor the block. *)
Theorem optimize_reports_no_change_after_deleting
    (ir_cast : ir_prim_t -> ir_const_t -> ir_const_t)
    (ir_calc1 : ir_op1_type_t -> ir_const_t -> ir_const_t)
    (ir_calc2 : ir_op2_type_t -> ir_const_t -> ir_const_t -> ir_const_t) :
  exists m m',
    dead_function no_memory = Done tt m /\
    code_list (func m) = [1; 2] /\
    insns_of m 1 = [3] /\
    body_at m 3 = Some (flow (f_branch (bool_const false) 1)) /\
    opt_dead_code 2 m = Done false m' /\
    optimize ir_cast ir_calc1 ir_calc2 2 m = Done false m' /\
    code_list (func m') = [1] /\
    insns_of m' 1 = [] /\
    body_at m' 3 = None /\
    heap_code m' !! 2 = None.
Proof. eexists _, _. evaluate_each. Qed.

(** ** Use sets and the parameter array *)

Lemma referencesb_spec (m : memory) (i v : addr) :
  referencesb m i v = true <-> references m i v.
Proof.
  unfold referencesb, references. destruct (body_at m i) as [b|].
  - rewrite List.existsb_exists, <- List.Exists_exists. split.
    + intros H. exists b. split; [reflexivity | exact H].
    + intros (b' & [= <-] & H). exact H.
  - split; [discriminate | intros (b & [=] & _)].
Qed.

Lemma use_sets_consistentb_spec (m : memory) :
  use_sets_consistentb m = true <-> use_sets_consistent m.
Proof.
  unfold use_sets_consistentb, use_sets_consistent.
  rewrite List.forallb_forall. split.
  - intros H v x Hx i.
    specialize (H (v, x)). simpl in H.
    apply andb_true_iff in H as [Huses Hrefs];
      [|apply list_elem_of_In, elem_of_map_to_list; exact Hx].
    rewrite List.forallb_forall in Huses, Hrefs. split.
    + intros Hi. apply referencesb_spec, Huses, list_elem_of_In, elem_of_elements, Hi.
    + intros Href. pose proof Href as (b & Hb & _).
      unfold body_at in Hb. destruct (heap_insn m !! i) as [ins|] eqn:Hins; [|discriminate].
      assert (Hin : In (i, ins) (map_to_list (heap_insn m)))
        by (apply list_elem_of_In, elem_of_map_to_list, Hins).
      specialize (Hrefs (i, ins) Hin). simpl in Hrefs.
      apply referencesb_spec in Href. rewrite Href in Hrefs. simpl in Hrefs.
      unfold set_contains in Hrefs. now apply bool_decide_eq_true in Hrefs.
  - intros H [v x] Hin. simpl.
    apply list_elem_of_In, elem_of_map_to_list in Hin.
    specialize (H v x Hin). apply andb_true_iff. split.
    + apply List.forallb_forall. intros i Hi.
      apply referencesb_spec, H, elem_of_elements, list_elem_of_In, Hi.
    + apply List.forallb_forall. intros [i ins] _. simpl.
      destruct (referencesb m i v) eqn:Href; [|reflexivity]. simpl.
      unfold set_contains. apply bool_decide_eq_true.
      apply H, referencesb_spec, Href.
Qed.

(** C6, as the code behaves.  Use-set consistency holds of the memory
    the builders leave and fails after each of three operations:
    [ir_var_replace] on a call with another variable among its arguments,
    [ir_insn_delete] on a call through a variable, and the
    [create_combinator] of the SSA conversion, which enters the combinator
    in the use-set of its own destination. *)
Theorem use_sets_broken_by_public_operations :
  (exists m m',
     call_function no_memory = Done tt m /\
     use_sets_consistent m /\
     ir_var_replace 1 (s32_const 7) m = Done tt m' /\
     ~ use_sets_consistent m') /\
  (exists m m',
     callptr_function no_memory = Done tt m /\
     use_sets_consistent m /\
     ir_insn_delete 3 m = Done tt m' /\
     ~ use_sets_consistent m') /\
  (exists m m',
     counter_function no_memory = Done tt m /\
     use_sets_consistent m /\
     create_combinator 3 2 m = Done tt m' /\
     body_at m' 8 = Some (expr 2 (e_combinator
       [{| prev := 3; bind := s32_const 0 |};
        {| prev := 1; bind := s32_const 0 |}])) /\
     8 ∈ uses m' 2 /\
     ~ use_sets_consistent m').
Proof.
  split; [|split].
  - eexists _, _. split; [evaluate|].
    split; [apply use_sets_consistentb_spec; evaluate|].
    split; [evaluate|].
    rewrite <- use_sets_consistentb_spec. vm_compute. discriminate.
  - eexists _, _. split; [evaluate|].
    split; [apply use_sets_consistentb_spec; evaluate|].
    split; [evaluate|].
    rewrite <- use_sets_consistentb_spec. vm_compute. discriminate.
  - eexists _, _. split; [evaluate|].
    split; [apply use_sets_consistentb_spec; evaluate|].
    split; [evaluate|]. split; [evaluate|]. split; [evaluate|].
    rewrite <- use_sets_consistentb_spec. vm_compute. discriminate.
Qed.

(** C10, as the code behaves.  The parameter of the function is never
    read; [opt_unused_vars] deletes it from the variable list and frees it,
    and the parameter array still holds its address: [ir_func_serialize],
    which returned before, now follows a dangling pointer. *)
Theorem unused_vars_frees_a_parameter
    (ir_op1_names : ir_op1_type_t -> string)
    (ir_op2_names : ir_op2_type_t -> string)
    (ir_flow_names : ir_flow_type_t -> string) :
  exists m m',
    unused_arg_function no_memory = Done tt m /\
    args (func m) = [1] /\
    vars_list (func m) = [1] /\
    args_in_vars m /\
    (exists out, ir_func_serialize ir_op1_names ir_op2_names ir_flow_names m
                 = Done out m) /\
    opt_unused_vars 2 m = Done true m' /\
    args (func m') = [1] /\
    vars_list (func m') = [] /\
    heap_var m' !! 1 = None /\
    ~ args_in_vars m' /\
    ir_func_serialize ir_op1_names ir_op2_names ir_flow_names m' = Wild.
Proof.
  eexists _, _. split; [evaluate|]. split; [evaluate|]. split; [evaluate|].
  split; [vm_compute; repeat constructor|].
  split; [eexists; vm_compute; reflexivity|].
  split; [evaluate|]. split; [evaluate|]. split; [evaluate|]. split; [evaluate|].
  split; [|evaluate].
  vm_compute. intros H. inversion H as [|? ? Hin _]. inversion Hin.
Qed.

(** ** The branch pass on a loop *)

Lemma bind_Timeout {A B} (c : M A) (k : A -> M B) (m : memory) :
  c m = Timeout -> bind_M c k m = Timeout.
Proof. unfold bind_M. now intros ->. Qed.

(** A block whose only successor has another number of predecessors than
    one keeps the [while] loop of [branch_opt_dfs] going for ever: no step
    budget is enough. *)
Lemma branch_opt_while_spins (fuel : nat) (code : addr) (changed : bool)
    (m : memory) (c sc : ir_code_t) :
  heap_code m !! code = Some c ->
  size (succ c) = 1%nat ->
  heap_code m !! set_first (succ c) = Some sc ->
  size (pred sc) <> 1%nat ->
  branch_opt_while fuel code changed m = Timeout.
Proof.
  intros Hc Hsucc Hsc Hpred. induction fuel as [|fuel IH]; [reflexivity|].
  simpl. unfold bind_M, get_code. rewrite Hc.
  rewrite bool_decide_eq_true_2 by exact Hsucc.
  rewrite Hsc. rewrite bool_decide_eq_false_2 by exact Hpred.
  exact IH.
Qed.

Lemma branch_opt_dfs_spins (fuel : nat) (code : addr) (m : memory)
    (c sc : ir_code_t) :
  heap_code m !! code = Some c ->
  visited c = false ->
  size (succ c) = 1%nat ->
  heap_code m !! set_first (succ c) = Some sc ->
  size (pred sc) <> 1%nat ->
  branch_opt_dfs fuel code m = Timeout.
Proof.
  intros Hc Hvis Hsucc Hsc Hpred. destruct fuel as [|fuel]; [reflexivity|].
  simpl. unfold bind_M at 1, get_code at 1. rewrite Hc, Hvis.
  unfold bind_M at 1, set_visited, bind_M at 1, get_code at 1, put_code.
  rewrite Hc. apply bind_Timeout.
  destruct (decide (set_first (succ c) = code)) as [Heq|Hneq].
  - eapply branch_opt_while_spins; simpl.
    + apply lookup_insert_eq.
    + exact Hsucc.
    + simpl. rewrite Heq. apply lookup_insert_eq.
    + simpl. rewrite Heq, Hc in Hsc. injection Hsc as <-. exact Hpred.
  - eapply branch_opt_while_spins; simpl.
    + apply lookup_insert_eq.
    + exact Hsucc.
    + simpl. rewrite lookup_insert_ne by congruence. exact Hsc.
    + exact Hpred.
Qed.

(** C1, as the code behaves.  On the loop function no step budget lets
    [optimize] return: the first three passes change nothing, and in
    [opt_branches] the block [entry] has the single successor [L], which has
    two predecessors. *)
Theorem optimize_diverges_on_loop
    (ir_cast : ir_prim_t -> ir_const_t -> ir_const_t)
    (ir_calc1 : ir_op1_type_t -> ir_const_t -> ir_const_t)
    (ir_calc2 : ir_op2_type_t -> ir_const_t -> ir_const_t -> ir_const_t)
    (fuel : nat) :
  (loop_function ;;; optimize ir_cast ir_calc1 ir_calc2 fuel) no_memory
  = Timeout.
Proof.
  erewrite bind_Done by evaluate.
  destruct fuel as [|[|[|fuel]]]; [evaluate | evaluate | evaluate |].
  unfold optimize. cbn [optimize_loop].
  erewrite bind_Done by evaluate.
  erewrite bind_Done by evaluate.
  erewrite bind_Done by evaluate.
  apply bind_Timeout. unfold opt_branches.
  erewrite bind_Done by reflexivity.
  erewrite bind_Done by evaluate.
  erewrite bind_Done by reflexivity.
  eapply branch_opt_dfs_spins.
  - evaluate.
  - reflexivity.
  - evaluate.
  - evaluate.
  - vm_compute. discriminate.
Qed.

(** ** Combinator placeholders under the rename walk *)

Lemma mark_used_each {A} (l : list A) (dest : addr)
    (f : gset addr -> gset addr) (m m' : memory) :
  foreach l (fun _ => set_used_at dest f) m = Done tt m' ->
  func m' = func m /\ heap_code m' = heap_code m /\
  heap_insn m' = heap_insn m /\ brk m' = brk m.
Proof.
  revert m. induction l as [|x l IH]; intros m; simpl.
  - intros [= <-]. done.
  - unfold bind_M at 1, set_used_at, bind_M at 1, get_var, put_var.
    destruct (heap_var m !! dest); [|discriminate].
    intros H. apply IH in H. exact H.
Qed.

(** What [create_combinator] leaves at the head of the block: a combinator
    whose entries are all constants. *)
Lemma create_combinator_head (m m1 : memory) (code dest : addr) :
  create_combinator code dest m = Done tt m1 ->
  exists c1 rest entries,
    heap_code m1 !! code = Some c1 /\
    insns c1 = brk m :: rest /\
    heap_insn m1 !! brk m
    = Some {| parent := code; body := expr dest (e_combinator entries) |} /\
    Forall (fun e => is_const (bind e) = true) entries.
Proof.
  unfold create_combinator, bind_M at 1, calloc, bind_M at 1, get_code. simpl.
  destruct (heap_code m !! code) as [c|] eqn:Hc; [|discriminate].
  unfold bind_M at 1, get_var. simpl.
  destruct (heap_var m !! dest) as [d|] eqn:Hd; [|discriminate].
  unfold bind_M at 1, put_insn. simpl. unfold bind_M at 1.
  match goal with |- context [foreach ?l ?f ?m0] =>
    destruct (foreach l f m0) as [[] m2| | |] eqn:Hloop; try discriminate
  end.
  apply mark_used_each in Hloop as (Hf & Hcode & Hinsn & Hbrk). simpl in *.
  unfold set_assigned_at, bind_M at 1, bind_M at 1, get_var, put_var.
  destruct (heap_var m2 !! dest) as [d2|]; [|discriminate].
  unfold set_insns, bind_M, get_code, put_code. simpl. rewrite Hcode, Hc.
  intros [= <-]. simpl.
  eexists _, _, _. split; [apply lookup_insert_eq|].
  split; [reflexivity|]. split; [rewrite Hinsn; apply lookup_insert_eq|].
  apply Forall_map, Forall_true. done.
Qed.

Lemma foreach_skip {A} (l : list A) (p : A -> bool) (f : A -> M unit)
    (m : memory) :
  Forall (fun x => p x = false) l ->
  foreach l (fun x => when (p x) (f x)) m = Done tt m.
Proof.
  induction 1 as [|x l Hx _ IH]; simpl; [reflexivity|].
  unfold bind_M. rewrite Hx. simpl. exact IH.
Qed.

Lemma put_insn_same (m : memory) (i : addr) (x : ir_insn_t) :
  heap_insn m !! i = Some x -> put_insn i x m = Done tt m.
Proof.
  intros H. unfold put_insn. rewrite insert_id by exact H. now destruct m.
Qed.

(** C3, what the code does instead.  A combinator that [create_combinator]
    has just placed for [dest] is left exactly as it is by
    [replace_phi_vars], whatever the predecessor and the new name, when
    [dest] is among the names looked for: its entries are constants, and
    only entries that are not constants are rewritten. *)
Theorem placeholder_entries_never_renamed (m m1 : memory) (code dest : addr)
    (pred to : addr) (from : gset addr) :
  create_combinator code dest m = Done tt m1 ->
  dest ∈ from ->
  replace_phi_vars pred code from to m1 = Done tt m1.
Proof.
  intros Hcreate Hdest.
  apply create_combinator_head in Hcreate
    as (c1 & rest & entries & Hc1 & Hins & He & Hconst).
  unfold replace_phi_vars, bind_M, get_code. rewrite Hc1, Hins. simpl.
  unfold bind_M at 1, get_insn. rewrite He. simpl.
  unfold set_contains. rewrite bool_decide_eq_true_2 by exact Hdest.
  unfold bind_M at 1.
  rewrite (foreach_skip entries
             (fun c => bool_decide (prev c = pred) && negb (is_const (bind c)))).
  - assert (Hmap : map (fun c => if bool_decide (prev c = pred)
                                     && negb (is_const (bind c))
                                  then {| prev := prev c; bind := op_var to |}
                                  else c) entries = entries).
    { clear He. induction Hconst as [|e l Hb _ IH]; simpl; [reflexivity|].
      rewrite Hb, andb_false_r. f_equal. exact IH. }
    rewrite Hmap. unfold set_body, bind_M, get_insn. rewrite He. simpl.
    apply put_insn_same. exact He.
  - eapply Forall_impl; [exact Hconst|]. simpl. intros e ->. apply andb_false_r.
Qed.

Lemma placeholder_entries_never_renamed_witness :
  let m := memory_after (counter_function no_memory) in
  let m1 := memory_after (create_combinator 3 2 m) in
  create_combinator 3 2 m = Done tt m1 /\
  2 ∈ ({[2]} : gset N) /\
  replace_phi_vars 1 3 {[2]} 9 m1 = Done tt m1.
Proof.
  intros m m1.
  assert (Hcreate : create_combinator 3 2 m = Done tt m1) by evaluate.
  assert (Hin : 2 ∈ ({[2]} : gset N)) by evaluate.
  split; [exact Hcreate|]. split; [exact Hin|].
  exact (placeholder_entries_never_renamed m m1 3 2 1 9 {[2]} Hcreate Hin).
Defined.

(** The rename walk of [ir_func_to_ssa] for [v] on the counter function,
    started as [ir_func_to_ssa] starts it once the combinator is placed:
    [v] is renamed to 9 in [entry], the combinator's destination to 10 and
    the sum's to 11, and both entries of the combinator are still the
    constant 0. *)
Lemma rename_walk_keeps_placeholders :
  exists m m',
    (counter_function ;;; create_combinator 3 2) no_memory = Done tt m /\
    insns_of m 3 = [8; 6; 7] /\
    rename_assignments 3 1 2 NULL {[2]} m = Done {[2; 10]} m' /\
    body_at m' 4 = Some (expr 9 (e_unary IR_OP1_MOV (s32_const 1))) /\
    body_at m' 8 = Some (expr 10 (e_combinator
      [{| prev := 3; bind := s32_const 0 |};
       {| prev := 1; bind := s32_const 0 |}])) /\
    body_at m' 6
    = Some (expr 11 (e_binary IR_OP2_ADD (op_var 10) (s32_const 1))) /\
    uses m' 9 = ∅ /\ uses m' 11 = ∅.
Proof. eexists _, _. evaluate_each. Qed.

(** ** More on the serializer's constants *)

Lemma hex_value_from_shift (s : string) : forall acc,
  hex_value_from acc s = acc * 16 ^ N.of_nat (String.length s) + hex_value_from 0 s.
Proof.
  induction s as [|a s IH]; intros acc.
  - simpl. lia.
  - cbn [hex_value_from String.length]. rewrite (IH (16 * acc + _)), (IH (16 * 0 + _)).
    rewrite Nat2N.inj_succ, N.pow_succ_r'. lia.
Qed.

Lemma fmt_0X64_16_length (n : N) :
  n < 16 ^ N.of_nat 16 -> String.length (fmt_0X64 16 n) = 16%nat.
Proof.
  intros Hn. rewrite fmt_0X64_length.
  assert ((String.length (hex_of 16 n) <= 16)%nat)
    by (apply (hex_of_length 16 n 16 Hn); [lia | exact Hn]).
  lia.
Qed.

(** The field of a 16-byte constant: the two halves, high half first, in
    exactly 32 digits that denote [consth * 2^64 + constl]. *)
Theorem constant_hex_field_128 (c : ir_const_t) (m : memory) :
  ir_prim_sizes (prim_type c) = 16%nat ->
  let field := fmt_0X128 (uint64 (consth c)) (uint64 (constl c)) in
  ir_operand_serialize (op_const c) m
  = Done [text (ir_prim_names (prim_type c)); text "'0x"; text field] m /\
  String.length field = 32%nat /\
  hex_value field = uint64 (consth c) * 2 ^ 64 + uint64 (constl c).
Proof.
  intros Hsize field. split; [|split].
  - unfold ir_operand_serialize.
    rewrite bool_decide_eq_false_2 by (intros Hb; rewrite Hb in Hsize; discriminate).
    rewrite (bool_decide_eq_true_2 _ Hsize).
    rewrite !bool_decide_eq_false_2
      by (intros Hb; rewrite Hb in Hsize; discriminate).
    reflexivity.
  - unfold field, fmt_0X128. rewrite string_length_app.
    rewrite !fmt_0X64_16_length by apply uint64_bound. reflexivity.
  - unfold field, fmt_0X128, hex_value. rewrite hex_value_from_app.
    rewrite hex_value_from_shift.
    rewrite fmt_0X64_16_length by apply uint64_bound.
    fold (hex_value (fmt_0X64 16 (uint64 (consth c)))).
    fold (hex_value (fmt_0X64 16 (uint64 (constl c)))).
    rewrite !fmt_0X64_value by apply uint64_bound.
    reflexivity.
Qed.

Lemma constant_hex_field_128_witness :
  let c := {| prim_type := IR_PRIM_U128; constl := 255; consth := 1 |} in
  ir_prim_sizes (prim_type c) = 16%nat /\
  ir_operand_serialize (op_const c) no_memory
  = Done [text "u128"; text "'0x";
          text "000000000000000100000000000000FF"] no_memory.
Proof.
  split; [reflexivity|].
  apply (constant_hex_field_128
           {| prim_type := IR_PRIM_U128; constl := 255; consth := 1 |}
           no_memory).
  reflexivity.
Defined.

Lemma all_chars_app (p : ascii -> bool) (s1 s2 : string) :
  all_chars p (s1 ++ s2)%string = all_chars p s1 && all_chars p s2.
Proof.
  induction s1 as [|a s1 IH]; simpl; [reflexivity|].
  now rewrite IH, andb_assoc.
Qed.

Lemma hex_digit_upper (d : N) : is_upper_hex (hex_digit d) = true.
Proof.
  destruct d as [|p]; [reflexivity|].
  do 4 (try (destruct p as [p|p|]; try reflexivity)).
Qed.

Lemma hex_of_upper (r : nat) : forall n : N,
  all_chars is_upper_hex (hex_of r n) = true.
Proof.
  induction r as [|r IH]; intros n; simpl; [reflexivity|].
  destruct (n <? 16); simpl.
  - now rewrite hex_digit_upper.
  - rewrite all_chars_app, IH. simpl. now rewrite hex_digit_upper.
Qed.

Lemma fmt_0X64_upper (width : nat) (n : N) :
  all_chars is_upper_hex (fmt_0X64 width n) = true.
Proof.
  unfold fmt_0X64. rewrite all_chars_app, hex_of_upper, andb_true_r.
  induction (width - _)%nat as [|k IH]; simpl; [reflexivity | exact IH].
Qed.

(** Whatever the constant, if it is not a Bool the serializer writes three
    pieces of text, the name of the type, ['0x] and a field made of the
    characters 0-9 and A-F only, and after them one floating-point comment
    exactly when the type is F32 or F64. *)
Theorem constant_serialized_shape (c : ir_const_t) (m : memory) :
  prim_type c <> IR_PRIM_BOOL ->
  exists field comment,
    ir_operand_serialize (op_const c) m
    = Done ([text (ir_prim_names (prim_type c)); text "'0x"; text field]
            ++ comment) m /\
    all_chars is_upper_hex field = true /\
    comment = match prim_type c with
              | IR_PRIM_F32 => [fmt_f c]
              | IR_PRIM_F64 => [fmt_lf c]
              | _ => []
              end.
Proof.
  intros Hbool. unfold ir_operand_serialize.
  rewrite bool_decide_eq_false_2 by exact Hbool.
  eexists _, _. split; [reflexivity|]. split.
  - case_bool_decide.
    + unfold fmt_0X128. now rewrite all_chars_app, !fmt_0X64_upper.
    + apply fmt_0X64_upper.
  - destruct (prim_type c); reflexivity.
Qed.

Lemma constant_serialized_shape_witness :
  exists field,
    ir_operand_serialize
      (op_const {| prim_type := IR_PRIM_F32; constl := 1065353216; consth := 0 |})
      no_memory
    = Done [text "f32"; text "'0x"; text field;
            fmt_f {| prim_type := IR_PRIM_F32; constl := 1065353216; consth := 0 |}]
        no_memory /\
    all_chars is_upper_hex field = true.
Proof.
  destruct (constant_serialized_shape
              {| prim_type := IR_PRIM_F32; constl := 1065353216; consth := 0 |}
              no_memory) as (field & comment & Hrun & Hup & ->); [discriminate|].
  exists field. split; [exact Hrun | exact Hup].
Defined.

(** ** Stepping through a call that returns *)

Lemma bind_inv {A B} (c : M A) (k : A -> M B) (m m' : memory) (b : B) :
  bind_M c k m = Done b m' ->
  exists a m1, c m = Done a m1 /\ k a m1 = Done b m'.
Proof.
  unfold bind_M. destruct (c m) as [a m1| | |]; try discriminate. eauto.
Qed.

Lemma ret_inv {A} (a b : A) (m m' : memory) :
  ret a m = Done b m' -> a = b /\ m = m'.
Proof. now intros [= -> ->]. Qed.

Lemma calloc_inv (m m' : memory) (a : addr) :
  calloc m = Done a m' ->
  a = brk m /\
  m' = {| func := func m; heap_var := heap_var m; heap_code := heap_code m;
          heap_insn := heap_insn m; brk := N.succ (brk m) |}.
Proof. now intros [= <- <-]. Qed.

Lemma get_var_inv (v : addr) (m m' : memory) (x : ir_var_t) :
  get_var v m = Done x m' -> heap_var m !! v = Some x /\ m' = m.
Proof.
  unfold get_var. destruct (heap_var m !! v); [|discriminate]. now intros [= -> ->].
Qed.

Lemma get_code_inv (c : addr) (m m' : memory) (x : ir_code_t) :
  get_code c m = Done x m' -> heap_code m !! c = Some x /\ m' = m.
Proof.
  unfold get_code. destruct (heap_code m !! c); [|discriminate]. now intros [= -> ->].
Qed.

Lemma get_insn_inv (i : addr) (m m' : memory) (x : ir_insn_t) :
  get_insn i m = Done x m' -> heap_insn m !! i = Some x /\ m' = m.
Proof.
  unfold get_insn. destruct (heap_insn m !! i); [|discriminate]. now intros [= -> ->].
Qed.

Lemma insert_as_alter {V} (h : gmap N V) (k : N) (x : V) (f : V -> V) :
  h !! k = Some x -> <[k := f x]> h = alter f k h.
Proof.
  intros Hk. apply map_eq. intros j. rewrite lookup_insert, lookup_alter.
  case_decide; [subst; now rewrite Hk | reflexivity].
Qed.

Lemma set_used_at_inv (v : addr) (f : gset addr -> gset addr) (m m' : memory) :
  set_used_at v f m = Done tt m' ->
  is_Some (heap_var m !! v) /\
  m' = with_var m (alter (upd_used_at f) v (heap_var m)).
Proof.
  unfold set_used_at. intros H. apply bind_inv in H as (x & m1 & Hg & Hp).
  apply get_var_inv in Hg as [Hx ->]. injection Hp as <-.
  split; [eauto|]. unfold with_var. f_equal.
  apply (insert_as_alter _ _ _ (upd_used_at f) Hx).
Qed.

Lemma set_assigned_at_inv (v : addr) (f : list addr -> list addr)
    (m m' : memory) :
  set_assigned_at v f m = Done tt m' ->
  is_Some (heap_var m !! v) /\
  m' = with_var m (alter (upd_assigned_at f) v (heap_var m)).
Proof.
  unfold set_assigned_at. intros H. apply bind_inv in H as (x & m1 & Hg & Hp).
  apply get_var_inv in Hg as [Hx ->]. injection Hp as <-.
  split; [eauto|]. unfold with_var. f_equal.
  apply (insert_as_alter _ _ _ (upd_assigned_at f) Hx).
Qed.

Lemma set_insns_inv (c : addr) (f : list addr -> list addr) (m m' : memory) :
  set_insns c f m = Done tt m' ->
  is_Some (heap_code m !! c) /\
  m' = with_code m (alter (upd_insns f) c (heap_code m)).
Proof.
  unfold set_insns. intros H. apply bind_inv in H as (x & m1 & Hg & Hp).
  apply get_code_inv in Hg as [Hx ->]. injection Hp as <-.
  split; [eauto|]. unfold with_code. f_equal.
  apply (insert_as_alter _ _ _ (upd_insns f) Hx).
Qed.

Lemma set_pred_inv (c : addr) (f : gset addr -> gset addr) (m m' : memory) :
  set_pred c f m = Done tt m' ->
  is_Some (heap_code m !! c) /\
  m' = with_code m (alter (upd_pred f) c (heap_code m)).
Proof.
  unfold set_pred. intros H. apply bind_inv in H as (x & m1 & Hg & Hp).
  apply get_code_inv in Hg as [Hx ->]. injection Hp as <-.
  split; [eauto|]. unfold with_code. f_equal.
  apply (insert_as_alter _ _ _ (upd_pred f) Hx).
Qed.

Lemma set_succ_inv (c : addr) (f : gset addr -> gset addr) (m m' : memory) :
  set_succ c f m = Done tt m' ->
  is_Some (heap_code m !! c) /\
  m' = with_code m (alter (upd_succ f) c (heap_code m)).
Proof.
  unfold set_succ. intros H. apply bind_inv in H as (x & m1 & Hg & Hp).
  apply get_code_inv in Hg as [Hx ->]. injection Hp as <-.
  split; [eauto|]. unfold with_code. f_equal.
  apply (insert_as_alter _ _ _ (upd_succ f) Hx).
Qed.

(** The reads of the builders leave the memory alone. *)
Lemma last_is_jump_or_branch_inv (code : addr) (m m' : memory) (b : bool) :
  last_is_jump_or_branch code m = Done b m' ->
  m' = m /\ is_Some (heap_code m !! code).
Proof.
  unfold last_is_jump_or_branch. intros H.
  apply bind_inv in H as (c & m1 & Hg & H). apply get_code_inv in Hg as [Hc ->].
  split; [|eauto]. case_bool_decide.
  - now apply ret_inv in H.
  - apply bind_inv in H as (i & m1 & Hg & H). apply get_insn_inv in Hg as [_ ->].
    destruct (body i) as [|[]]; now apply ret_inv in H.
Qed.

Lemma operand_prim_inv (o : ir_operand_t) (m m' : memory) (p : ir_prim_t) :
  operand_prim o m = Done p m' -> m' = m.
Proof.
  destruct o as [k|v]; simpl; intros H.
  - now apply ret_inv in H.
  - apply bind_inv in H as (x & m1 & Hg & H). apply get_var_inv in Hg as [_ ->].
    now apply ret_inv in H.
Qed.

Lemma ssa_assigned_twice_inv (dest : addr) (m m' : memory) (b : bool) :
  ssa_assigned_twice dest m = Done b m' ->
  m' = m /\ is_Some (heap_var m !! dest).
Proof.
  unfold ssa_assigned_twice. intros H.
  apply bind_inv in H as (x & m1 & Hg & H). apply get_var_inv in Hg as [Hx ->].
  apply bind_inv in H as (fn & m1 & Hg & H). injection Hg as _ <-.
  apply ret_inv in H as [_ <-]. eauto.
Qed.

Lemma use_operand_inv (o : ir_operand_t) (i : addr) (m m' : memory) :
  use_operand o i m = Done tt m' ->
  m' = with_var m (match o with
                   | op_var v => alter (upd_used_at (set_add i)) v (heap_var m)
                   | op_const _ => heap_var m
                   end) /\
  match o with
  | op_var v => is_Some (heap_var m !! v)
  | op_const _ => True
  end.
Proof.
  destruct o as [k|v]; simpl; intros H.
  - apply ret_inv in H as [_ <-]. split; [now destruct m | exact I].
  - now apply set_used_at_inv in H as [Hv ->].
Qed.

(** What the two reads of the builders return. *)
Lemma operand_prim_spec (o : ir_operand_t) (m m' : memory) (p : ir_prim_t) :
  operand_prim o m = Done p m' -> prim_of m o = Some p.
Proof.
  destruct o as [k|v]; simpl; intros H.
  - now apply ret_inv in H as [<- _].
  - apply bind_inv in H as (x & m1 & Hg & H). apply get_var_inv in Hg as [-> ->].
    now apply ret_inv in H as [<- _].
Qed.

Lemma last_is_jump_or_branch_spec (code : addr) (m m' : memory) (b : bool) :
  last_is_jump_or_branch code m = Done b m' -> b = terminated m code.
Proof.
  unfold last_is_jump_or_branch, terminated, dlist_tail. intros H.
  apply bind_inv in H as (c & m1 & Hg & H). apply get_code_inv in Hg as [-> ->].
  case_bool_decide as Hlen.
  - apply ret_inv in H as [<- _].
    destruct (insns c); [reflexivity | discriminate Hlen].
  - apply bind_inv in H as (i & m1 & Hg & H). apply get_insn_inv in Hg as [Hi ->].
    destruct (last (insns c)) as [t|] eqn:Hlast.
    + simpl in Hi. rewrite Hi.
      destruct (body i) as [|[]]; now apply ret_inv in H as [<- _].
    + apply last_None in Hlast. now rewrite Hlast in Hlen.
Qed.

Lemma terminated_fresh (m M : memory) (e code : addr) (x : ir_insn_t) :
  heap_code M = heap_code m ->
  heap_insn M = <[e := x]> (heap_insn m) ->
  heap_insn m !! e = None ->
  terminated m code = true ->
  terminated M code = true.
Proof.
  unfold terminated. intros -> -> He.
  destruct (heap_code m !! code) as [c|]; [|done].
  destruct (last (insns c)) as [t|]; [|done].
  destruct (decide (t = e)) as [->|Hne].
  - now rewrite He.
  - now rewrite lookup_insert_ne.
Qed.

Lemma fmap_type_used_at (hv : gmap N ir_var_t) (v w : addr)
    (f : gset addr -> gset addr) :
  var_prim_type <$> alter (upd_used_at f) v hv !! w = var_prim_type <$> hv !! w.
Proof.
  rewrite lookup_alter. case_decide; [subst|reflexivity]. now destruct (hv !! w).
Qed.

Lemma fmap_type_lookup (hv : gmap N ir_var_t) (v : addr) (d : ir_var_t) :
  hv !! v = Some d -> var_prim_type <$> hv !! v = Some (var_prim_type d).
Proof. now intros ->. Qed.

Lemma prim_of_same_types (m m' : memory) (o : ir_operand_t) :
  (forall v, var_prim_type <$> heap_var m' !! v
             = var_prim_type <$> heap_var m !! v) ->
  prim_of m' o = prim_of m o.
Proof. intros H. destruct o as [k|v]; [reflexivity | apply H]. Qed.

Lemma prim_of_used_at (m : memory) (hv : gmap N ir_var_t) (v : addr)
    (f : gset addr -> gset addr) (o : ir_operand_t) :
  prim_of (with_var m (alter (upd_used_at f) v hv)) o
  = prim_of (with_var m hv) o.
Proof.
  apply prim_of_same_types. intros w. cbn [heap_var with_var].
  rewrite lookup_alter. case_decide; [subst|reflexivity].
  now destruct (hv !! w).
Qed.

Lemma prim_of_with_insn (m : memory) (hi : gmap N ir_insn_t) (o : ir_operand_t) :
  prim_of (with_insn m hi) o = prim_of m o.
Proof. now destruct o. Qed.

Lemma prim_of_with_var_same (m : memory) (o : ir_operand_t) :
  prim_of (with_var m (heap_var m)) o = prim_of m o.
Proof. now destruct o. Qed.

Lemma prim_of_use_operand (o : ir_operand_t) (i : addr) (m m' : memory) :
  use_operand o i m = Done tt m' ->
  forall o', prim_of m' o' = prim_of m o'.
Proof.
  intros H o'. apply use_operand_inv in H as [-> _].
  destruct o; [apply prim_of_with_var_same|].
  rewrite prim_of_used_at. apply prim_of_with_var_same.
Qed.

Lemma prim_of_same_heap (M m : memory) (o : ir_operand_t) :
  heap_var M = heap_var m -> prim_of M o = prim_of m o.
Proof. intros H. destruct o; simpl; [reflexivity | now rewrite H]. Qed.

Lemma ssa_assigned_twice_spec (dest : addr) (m m' : memory) (b : bool) :
  ssa_assigned_twice dest m = Done b m' ->
  exists d, heap_var m !! dest = Some d /\
            b = negb (bool_decide (length (assigned_at d) = 0%nat))
                && enforce_ssa (func m).
Proof.
  unfold ssa_assigned_twice. intros H.
  apply bind_inv in H as (x & m1 & Hg & H). apply get_var_inv in Hg as [Hx ->].
  apply bind_inv in H as (fn & m1 & Hg & H). injection Hg as <- <-.
  apply ret_inv in H as [<- _]. eauto.
Qed.

Lemma lookup_used_at_assigned (hv : gmap N ir_var_t) (v w : addr)
    (f : gset addr -> gset addr) (d : ir_var_t) :
  alter (upd_used_at f) v hv !! w = Some d ->
  exists d0, hv !! w = Some d0 /\ assigned_at d0 = assigned_at d.
Proof.
  rewrite lookup_alter. case_decide; [subst|eauto].
  destruct (hv !! w) as [d0|]; [|discriminate]. intros [= <-]. eauto.
Qed.

Lemma put_insn_inv (i : addr) (x : ir_insn_t) (m m' : memory) :
  put_insn i x m = Done tt m' -> m' = with_insn m (<[i := x]> (heap_insn m)).
Proof. now intros [= <-]. Qed.

Lemma abort_inv {A} (b : bug) (m m' : memory) (a : A) :
  abort b m = Done a m' -> False.
Proof. discriminate. Qed.

Lemma reads_ret {A} (a : A) : reads_only (ret a).
Proof. now intros m b m' [= _ ->]. Qed.

Lemma reads_abort {A} (b : bug) : reads_only (@abort A b).
Proof. intros m a m'. discriminate. Qed.

Lemma reads_wild {A} : reads_only (@wild A).
Proof. intros m a m'. discriminate. Qed.

Lemma reads_bind {A B} (c : M A) (k : A -> M B) :
  reads_only c -> (forall a, reads_only (k a)) -> reads_only (bind_M c k).
Proof.
  intros Hc Hk m b m' H. apply bind_inv in H as (a & m1 & H1 & H2).
  apply Hc in H1 as ->. now apply Hk in H2.
Qed.

Lemma reads_get_var (v : addr) : reads_only (get_var v).
Proof. intros m a m' H. now apply get_var_inv in H. Qed.

Lemma reads_get_code (c : addr) : reads_only (get_code c).
Proof. intros m a m' H. now apply get_code_inv in H. Qed.

Lemma reads_get_insn (i : addr) : reads_only (get_insn i).
Proof. intros m a m' H. now apply get_insn_inv in H. Qed.

Lemma reads_get_func : reads_only get_func.
Proof. now intros m a m' [= _ ->]. Qed.

Lemma reads_operand_prim (o : ir_operand_t) : reads_only (operand_prim o).
Proof. intros m a m' H. now apply operand_prim_inv in H. Qed.

Ltac reads :=
  repeat first
    [ apply reads_ret | apply reads_abort | apply reads_wild
    | apply reads_get_var | apply reads_get_code | apply reads_get_insn
    | apply reads_get_func | apply reads_operand_prim
    | apply reads_bind; [|intros ?]
    | match goal with
      | |- reads_only (if ?b then _ else _) => destruct b
      | |- reads_only (match ?x with _ => _ end) => destruct x
      end ].

Ltac step H :=
  lazymatch type of H with
  | bind_M ?c _ _ = Done _ _ =>
      let a := fresh "a" in
      let m1 := fresh "m" in
      let Hc := fresh "Hc" in
      apply bind_inv in H as (a & m1 & Hc & H);
      cbv beta in H;
      first
        [ apply calloc_inv in Hc as [-> ->]
        | (destruct a; apply put_insn_inv in Hc as ->)
        | apply get_var_inv in Hc as [Hc ->]
        | apply get_code_inv in Hc as [Hc ->]
        | apply get_insn_inv in Hc as [Hc ->]
        | (let Ht := fresh "Hterm" in
           pose proof (last_is_jump_or_branch_spec _ _ _ _ Hc) as Ht;
           apply last_is_jump_or_branch_inv in Hc as [-> Hc])
        | (destruct a; apply use_operand_inv in Hc as [-> Hc])
        | (let Hs := fresh "Hssa" in
           pose proof (ssa_assigned_twice_spec _ _ _ _ Hc) as Hs;
           apply ssa_assigned_twice_inv in Hc as [-> Hc])
        | (destruct a; apply set_assigned_at_inv in Hc as [Hc ->])
        | (destruct a; apply set_insns_inv in Hc as [Hc ->])
        | (destruct a; apply set_pred_inv in Hc as [Hc ->])
        | (destruct a; apply set_succ_inv in Hc as [Hc ->])
        | (let Hr := fresh "Hr" in
           assert (Hr : reads_only c) by (unfold ssa_assigned_twice; reads);
           pose proof (Hr _ _ _ Hc); subst m1; clear Hr)
        | idtac ]
  | (if ?b then _ else _) _ = Done _ _ =>
      let Hb := fresh "Hb" in
      destruct b eqn:Hb; try (exfalso; exact (abort_inv _ _ _ _ H))
  | abort _ _ = Done _ _ => exfalso; exact (abort_inv _ _ _ _ H)
  | set_insns _ _ _ = Done _ _ =>
      let Hc := fresh "Hc" in apply set_insns_inv in H as [Hc ->]
  | set_pred _ _ _ = Done _ _ =>
      let Hc := fresh "Hc" in apply set_pred_inv in H as [Hc ->]
  | set_succ _ _ _ = Done _ _ =>
      let Hc := fresh "Hc" in apply set_succ_inv in H as [Hc ->]
  | ret _ _ = Done _ _ => apply ret_inv in H as [? ?]; subst
  end;
  cbn [func heap_var heap_code heap_insn brk with_var with_code with_insn] in *.

Ltac split_cases :=
  repeat first [case_bool_decide | case_decide]; subst; simpl in *;
  try congruence; try reflexivity.

Ltac same_var_record :=
  match goal with
  | |- context [heap_var ?m !! ?v] => destruct (heap_var m !! v) as [[]|]
  end; simpl; [|reflexivity];
  unfold upd_used_at, upd_assigned_at, set_add, dlist_append; simpl;
  do 2 f_equal; try reflexivity; try set_solver.

Ltac same_code_record :=
  match goal with
  | |- context [heap_code ?m !! ?c] => destruct (heap_code m !! c) as [[]|]
  end; simpl; [|reflexivity];
  unfold upd_insns, upd_pred, upd_succ, set_add, dlist_append; simpl;
  do 2 f_equal; try reflexivity; try set_solver.

Ltac live_goal :=
  cbn [func heap_var heap_code heap_insn brk with_var with_code with_insn] in *;
  repeat match goal with
         | H : is_Some (alter _ _ _ !! _) |- _ =>
             rewrite lookup_alter_is_Some in H
         | H : is_Some (match ?o with op_const _ => _ | op_var _ => _ end !! _)
           |- _ => destruct o
         | H : match ?o with op_const _ => _ | op_var _ => _ end |- _ =>
             destruct o
         | H : ?x = true -> _, H' : ?x = true |- _ => specialize (H H')
         | H : forall v, existsb _ _ = true -> _, H' : existsb _ _ = true |- _ =>
             apply H in H'
         end;
  eauto.

Ltac live_vars_goal :=
  let v := fresh "v" in
  let Hv := fresh "Hv" in
  intros v Hv; unfold mentions, defines in Hv;
  repeat match goal with
         | o : ir_operand_t |- _ => destruct o
         end;
  simpl in Hv;
  repeat match goal with
         | H : _ \/ _ |- _ => destruct H
         | H : _ || _ = true |- _ => apply orb_true_iff in H
         | H : bool_decide _ = true |- _ => apply bool_decide_eq_true in H; subst
         | H : false = true |- _ => discriminate H
         end;
  live_goal.

Ltac live_edge_goal :=
  let t := fresh "t" in
  let Ht := fresh "Ht" in
  intros t Ht; simpl in Ht; try discriminate Ht;
  try (injection Ht as <-); live_goal.


Ltac typed_facts m :=
  repeat match goal with
         | H : bool_decide (_ ≠ _) = false |- _ =>
             apply bool_decide_eq_false, dec_stable in H
         | H : operand_prim _ _ = Done _ _ |- _ =>
             apply operand_prim_spec in H;
             try rewrite (prim_of_same_heap _ m) in H by reflexivity
         end.

Lemma ir_add_expr2_typed (m m' : memory) (code dest : addr)
    (oper : ir_op2_type_t) (lhs rhs : ir_operand_t) :
  ir_add_expr2 code dest oper lhs rhs m = Done tt m' ->
  insn_typed m (expr dest (e_binary oper lhs rhs)).
Proof.
  intros H. unfold ir_add_expr2 in H. repeat step H. typed_facts m. subst.
  simpl. exists (var_prim_type a1). now rewrite Hc1.
Qed.

Lemma ir_add_branch_typed (m m' : memory) (from : addr)
    (cond : ir_operand_t) (to : addr) :
  ir_add_branch from cond to m = Done tt m' ->
  insn_typed m (flow (f_branch cond to)).
Proof.
  intros H. unfold ir_add_branch in H. repeat step H. typed_facts m. now subst.
Qed.

Lemma ir_add_expr1_typed (m m' : memory) (code dest : addr)
    (oper : ir_op1_type_t) (operand : ir_operand_t) :
  ir_add_expr1 code dest oper operand m = Done tt m' ->
  insn_typed m (expr dest (e_unary oper operand)).
Proof.
  intros H. unfold ir_add_expr1 in H. repeat step H.
  assert (Hd : var_prim_type <$> heap_var m !! dest = Some (var_prim_type a0)).
  { apply fmap_type_lookup in Hc1.
    destruct operand; [exact Hc1 | now rewrite fmap_type_used_at in Hc1]. }
  clear - Hd Hc2.
  destruct oper; simpl in Hc2 |- *; try exact I.
  all: repeat step Hc2; apply bool_decide_eq_false, dec_stable in Hb.
  1, 2: now rewrite Hb in Hd.
  all: match goal with
       | H : operand_prim _ _ = Done _ _ |- _ =>
           apply operand_prim_spec in H;
           exists (var_prim_type a0); subst; split; [assumption|];
           destruct operand; simpl in H |- *;
           [exact H | now rewrite fmap_type_used_at in H]
       end.
Qed.



Lemma combinator_loop_typed (e dest : addr) (from : list ir_combinator_t) :
  forall m m',
    foreach from (fun c =>
      bind_prim <- operand_prim (bind c) ;;
      d <- get_var dest ;;
      if bool_decide (bind_prim ≠ var_prim_type d) then abort BUG_phi_types
      else use_operand (bind c) e) m = Done tt m' ->
    Forall (fun c => exists p, prim_of m (op_var dest) = Some p /\
                               prim_of m (bind c) = Some p) from.
Proof.
  induction from as [|c from IH]; intros m m' H; [constructor|].
  simpl in H. apply bind_inv in H as ([] & m1 & Hc & H).
  apply IH in H. repeat step Hc. typed_facts m. subst. constructor.
  - exists (var_prim_type a0). simpl. now rewrite Hc1.
  - eapply Forall_impl; [exact H|]. intros c' (p & Hdest & Hbind).
    exists p. now rewrite <- !(prim_of_use_operand _ _ _ _ Hc).
Qed.

Lemma ir_add_combinator_typed (m m' : memory) (code dest : addr)
    (from : list ir_combinator_t) :
  ir_add_combinator code dest from m = Done tt m' ->
  insn_typed m (expr dest (e_combinator from)).
Proof.
  intros H. unfold ir_add_combinator in H. do 6 step H.
  apply bind_inv in H as ([] & m1 & Hloop & _).
  apply combinator_loop_typed in Hloop. simpl.
  eapply Forall_impl; [exact Hloop|]. intros c (p & Hdest & Hbind). exists p.
  split; [exact Hdest|]. now rewrite (prim_of_same_heap _ m) in Hbind.
Qed.

Ltac order_goal :=
  let Hf := fresh "Hf" in
  let Ht := fresh "Ht" in
  intros Hf Ht;
  first
    [ reflexivity
    | match type of Hf with
      | heap_insn ?m !! _ = None =>
          match goal with
          | Hterm : false = terminated ?M ?c |- _ =>
              assert (terminated M c = true)
                by (eapply (terminated_fresh m);
                    [reflexivity | reflexivity | exact Hf | exact Ht]);
              congruence
          end
      end ].

Ltac typed_goal := first [exact I | assumption].

Ltac ssa_goal :=
  let He := fresh "He" in
  let v := fresh "v" in
  let d := fresh "d" in
  let Hv := fresh "Hv" in
  let Hd := fresh "Hd" in
  intros He v d Hv Hd; simpl in Hv; try discriminate Hv;
  apply bool_decide_eq_true in Hv; subst v;
  match goal with
  | Hs : exists _, _ /\ false = _ |- _ =>
      let d0 := fresh "d" in
      let Hd0 := fresh "Hd" in
      destruct Hs as (d0 & Hd0 & Hs);
      cbn [func heap_var with_var with_insn] in Hs, Hd0;
      rewrite He, andb_true_r in Hs;
      repeat match goal with
             | o : ir_operand_t |- _ => destruct o
             end;
      repeat (let d1 := fresh "d" in
              let Heq := fresh "Heq" in
              apply lookup_used_at_assigned in Hd0 as (d1 & Hd0 & Heq);
              rewrite <- Heq in Hs; clear Heq);
      rewrite Hd in Hd0; injection Hd0 as <-;
      symmetry in Hs; apply negb_false_iff, bool_decide_eq_true in Hs;
      now destruct (assigned_at d)
  end.

Ltac appended_goals :=
  split;
  cbn [func heap_var heap_code heap_insn brk with_var with_code with_insn];
  [ reflexivity | reflexivity | reflexivity
  | intros ?; unfold var_after, mentions, defines; simpl;
    repeat match goal with
           | o : ir_operand_t |- _ => destruct o
           end;
    rewrite ?lookup_alter; simpl; split_cases; same_var_record
  | intros ?; unfold code_after; simpl; rewrite ?lookup_alter;
    split_cases; same_code_record
  | live_goal
  | live_vars_goal
  | live_edge_goal
  | typed_goal
  | order_goal
  | ssa_goal ].

Theorem ir_add_expr1_appends (m m' : memory) (code dest : addr)
    (oper : ir_op1_type_t) (operand : ir_operand_t) :
  ir_add_expr1 code dest oper operand m = Done tt m' ->
  appended m m' code (expr dest (e_unary oper operand)).
Proof.
  intros H. pose proof (ir_add_expr1_typed _ _ _ _ _ _ H) as Htyped.
  unfold ir_add_expr1 in H. repeat step H.
  appended_goals.
Qed.

Theorem ir_add_expr2_appends (m m' : memory) (code dest : addr)
    (oper : ir_op2_type_t) (lhs rhs : ir_operand_t) :
  ir_add_expr2 code dest oper lhs rhs m = Done tt m' ->
  appended m m' code (expr dest (e_binary oper lhs rhs)).
Proof.
  intros H. pose proof (ir_add_expr2_typed _ _ _ _ _ _ _ H) as Htyped.
  unfold ir_add_expr2 in H. repeat step H.
  appended_goals.
Qed.

Theorem ir_add_undefined_appends (m m' : memory) (code dest : addr) :
  ir_add_undefined code dest m = Done tt m' ->
  appended m m' code (expr dest e_undefined).
Proof.
  intros H. unfold ir_add_undefined in H. repeat step H.
  appended_goals.
Qed.

Theorem ir_add_return0_appends (m m' : memory) (from : addr) :
  ir_add_return0 from m = Done tt m' ->
  appended m m' from (flow (f_return None)).
Proof.
  intros H. unfold ir_add_return0 in H. repeat step H.
  appended_goals.
Qed.

Theorem ir_add_return1_appends (m m' : memory) (from : addr)
    (value : ir_operand_t) :
  ir_add_return1 from value m = Done tt m' ->
  appended m m' from (flow (f_return (Some value))).
Proof.
  intros H. unfold ir_add_return1 in H. repeat step H.
  appended_goals.
Qed.

Theorem ir_add_jump_appends (m m' : memory) (from to : addr) :
  ir_add_jump from to m = Done tt m' ->
  appended m m' from (flow (f_jump to)).
Proof.
  intros H. unfold ir_add_jump in H. repeat step H.
  appended_goals.
Qed.

Theorem ir_add_branch_appends (m m' : memory) (from : addr)
    (cond : ir_operand_t) (to : addr) :
  ir_add_branch from cond to m = Done tt m' ->
  appended m m' from (flow (f_branch cond to)).
Proof.
  intros H. pose proof (ir_add_branch_typed _ _ _ _ _ H) as Htyped.
  unfold ir_add_branch in H. repeat step H.
  appended_goals.
Qed.

(** Entering one instruction in the use-sets of a list of operands. *)
Lemma foreach_use_operand_inv (i : addr) (args : list ir_operand_t) :
  forall m m',
    foreach args (fun o => use_operand o i) m = Done tt m' ->
    exists hv,
      m' = with_var m hv /\
      (forall v, hv !! v
                 = (if existsb (fun o => is_var o v) args
                    then upd_used_at (set_add i) else id) <$> heap_var m !! v) /\
      (forall v, existsb (fun o => is_var o v) args = true ->
                 is_Some (heap_var m !! v)).
Proof.
  induction args as [|o args IH]; intros m m' H; simpl in H.
  - apply ret_inv in H as [_ <-]. exists (heap_var m).
    split; [now destruct m|]. split; [|discriminate].
    intros v. simpl. now destruct (heap_var m !! v).
  - apply bind_inv in H as ([] & m1 & Ho & H).
    apply use_operand_inv in Ho as [-> Hlive].
    apply IH in H as (hv & -> & Hhv & Hlive'). exists hv.
    split; [reflexivity|]. split.
    + intros v. rewrite Hhv. cbn [heap_var with_var existsb].
      destruct o as [k|w]; simpl; [reflexivity|].
      rewrite lookup_alter. split_cases;
        destruct (existsb _ args); same_var_record.
    + intros v Hv. cbn [existsb] in Hv. apply orb_true_iff in Hv as [Hv|Hv].
      * destruct o as [k|w]; [discriminate|].
        simpl in Hv. now apply bool_decide_eq_true in Hv as <-.
      * apply Hlive' in Hv. cbn [heap_var with_var] in Hv.
        destruct o; [exact Hv|]. now rewrite lookup_alter_is_Some in Hv.
Qed.

Lemma foreach_through {A} (l : list A) (g : A -> ir_operand_t) (i : addr)
    (f : A -> M unit) :
  (forall x m m', f x m = Done tt m' -> use_operand (g x) i m = Done tt m') ->
  forall m m',
    foreach l f m = Done tt m' ->
    foreach (map g l) (fun o => use_operand o i) m = Done tt m'.
Proof.
  intros Hf. induction l as [|x l IH]; intros m m' H; simpl in *; [exact H|].
  apply bind_inv in H as ([] & m1 & Hx & H).
  apply Hf in Hx. apply IH in H. unfold bind_M. now rewrite Hx.
Qed.

Ltac appended_with Hhv :=
  split;
  cbn [func heap_var heap_code heap_insn brk with_var with_code with_insn];
  [ reflexivity | reflexivity | reflexivity
  | intros ?; unfold var_after, mentions, defines; simpl;
    rewrite ?lookup_alter; split_cases; rewrite !Hhv; simpl;
    repeat match goal with
           | o : ir_operand_t |- _ => destruct o
           end;
    rewrite ?lookup_alter; simpl; split_cases;
    repeat match goal with
           | |- context [existsb ?f ?l] => destruct (existsb f l)
           end;
    simpl; same_var_record
  | intros ?; unfold code_after; simpl; rewrite ?lookup_alter;
    split_cases; same_code_record
  | live_goal
  | live_vars_goal
  | live_edge_goal
  | typed_goal
  | order_goal
  | ssa_goal ].

Theorem ir_add_call_direct_appends (m m' : memory) (from : addr)
    (label : string) (params : list ir_operand_t) :
  ir_add_call_direct from label params m = Done tt m' ->
  appended m m' from (flow (f_call_direct params label)).
Proof.
  intros H. unfold ir_add_call_direct in H. do 4 step H.
  apply bind_inv in H as ([] & m1 & Hloop & H).
  apply foreach_use_operand_inv in Hloop as (hv & -> & Hhv & Hlive).
  step H. cbn [heap_var] in Hhv. appended_with Hhv.
Qed.

Theorem ir_add_call_ptr_appends (m m' : memory) (from : addr)
    (funcptr : ir_operand_t) (params : list ir_operand_t) :
  ir_add_call_ptr from funcptr params m = Done tt m' ->
  appended m m' from (flow (f_call_ptr params funcptr)).
Proof.
  intros H. unfold ir_add_call_ptr in H. do 5 step H.
  apply bind_inv in H as ([] & m1 & Hloop & H).
  apply foreach_use_operand_inv in Hloop as (hv & -> & Hhv & Hlive).
  step H. cbn [heap_var with_var] in Hhv. appended_with Hhv.
Qed.

Theorem ir_add_combinator_appends (m m' : memory) (code dest : addr)
    (from : list ir_combinator_t) :
  ir_add_combinator code dest from m = Done tt m' ->
  appended m m' code (expr dest (e_combinator from)).
Proof.
  intros H. pose proof (ir_add_combinator_typed _ _ _ _ _ H) as Htyped.
  unfold ir_add_combinator in H. do 6 step H.
  apply bind_inv in H as ([] & m1 & Hloop & H).
  apply (foreach_through from bind (brk m)) in Hloop.
  - apply foreach_use_operand_inv in Hloop as (hv & -> & Hhv & Hlive).
    repeat step H. cbn [heap_var with_var] in Hhv. appended_with Hhv.
  - clear. intros x m0 m0' H. repeat step H. exact H.
Qed.

(** ** The builders keep the invariants *)

(** Type agreement only reads the types of live variables. *)
Lemma insn_typed_mono (m m' : memory) (x : ir_insn_body) :
  (forall o p, prim_of m o = Some p -> prim_of m' o = Some p) ->
  insn_typed m x -> insn_typed m' x.
Proof.
  intros H. destruct x as [dest [from|oper v|oper l r|]|[t|c t|a l|a f|r]];
    simpl; try exact id.
  - intros Hall. eapply Forall_impl; [exact Hall|].
    intros c (p & Hd & Hb). exists p. split; [apply (H (op_var dest)) | apply H]; easy.
  - destruct oper; try exact id; try apply (H (op_var dest));
      intros (p & Hd & Hv); exists p;
      (split; [apply (H (op_var dest)) | apply H]; easy).
  - intros (p & Hd & Hl & Hr). exists p.
    split; [apply (H (op_var dest)); easy|]. split; apply H; easy.
  - apply H.
Qed.

Lemma terminated_of_split (m : memory) (code : addr) (b : ir_code_t)
    (l1 l2 : list addr) (e1 : addr) :
  terminators_last m ->
  heap_code m !! code = Some b ->
  insns b = l1 ++ e1 :: l2 ->
  terminates m e1 ->
  terminated m code = true.
Proof.
  intros Hord Hb Hsplit Hterm. unfold terminated. rewrite Hb, Hsplit.
  destruct l2 as [|z l2 _] using rev_ind.
  - rewrite last_snoc. now destruct Hterm as (i & -> & Hi).
  - rewrite app_comm_cons, app_assoc, last_snoc.
    destruct (Hord code b Hb l1 e1 l2 z []) as (i & -> & Hi); [|exact Hterm|exact Hi].
    now rewrite Hsplit.
Qed.

Section Appended.

Variables (m m' : memory) (code : addr) (x : ir_insn_body).
Hypothesis Happ : appended m m' code x.
Hypothesis Hfresh : allocated_below_brk m.

Lemma appended_var_inv (v : addr) (d' : ir_var_t) :
  heap_var m' !! v = Some d' ->
  exists d, heap_var m !! v = Some d /\ d' = var_after (brk m) x v d.
Proof.
  rewrite (app_var _ _ _ _ Happ). destruct (heap_var m !! v) as [d|]; [|discriminate].
  intros [= <-]. eauto.
Qed.

Lemma appended_code_inv (c : addr) (b' : ir_code_t) :
  heap_code m' !! c = Some b' ->
  exists b, heap_code m !! c = Some b /\ b' = code_after (brk m) code x c b.
Proof.
  rewrite (app_code _ _ _ _ Happ). destruct (heap_code m !! c) as [b|]; [|discriminate].
  intros [= <-]. eauto.
Qed.

Lemma appended_fresh_insn : heap_insn m !! brk m = None.
Proof. apply Hfresh. lia. Qed.

Lemma appended_body_at (i : addr) :
  body_at m' i = if bool_decide (i = brk m) then Some x else body_at m i.
Proof.
  unfold body_at. rewrite (app_insn _ _ _ _ Happ), lookup_insert.
  case_decide; case_bool_decide; subst; try congruence; reflexivity.
Qed.

Lemma mentions_spec (b : ir_insn_body) (v : addr) :
  mentions b v = true <-> Exists (fun o => is_var o v = true) (operands b).
Proof.
  unfold mentions. rewrite List.existsb_exists, List.Exists_exists. reflexivity.
Qed.

Lemma appended_references (i v : addr) :
  references m' i v <->
  (i = brk m /\ mentions x v = true) \/ (i <> brk m /\ references m i v).
Proof.
  unfold references. rewrite appended_body_at. case_bool_decide as Hi.
  - subst i. split.
    + intros (b & [= <-] & Hb). left. split; [reflexivity|]. now apply mentions_spec.
    + intros [[_ Hm]|[Hne _]]; [|congruence].
      exists x. split; [reflexivity|]. now apply mentions_spec.
  - split; [intros H; right; split; assumption|].
    intros [[Heq _]|[_ H]]; [congruence | exact H].
Qed.

Lemma appended_uses : use_sets_consistent m -> use_sets_consistent m'.
Proof.
  intros Hinv v d' Hd' i.
  apply appended_var_inv in Hd' as (d & Hd & ->).
  rewrite appended_references. specialize (Hinv v d Hd).
  assert (Hnot : brk m ∉ used_at d).
  { intros Hin. apply Hinv in Hin as (b & Hb & _).
    unfold body_at in Hb. now rewrite appended_fresh_insn in Hb. }
  unfold var_after. simpl. destruct (mentions x v) eqn:Hm.
  - unfold set_add. rewrite elem_of_union, elem_of_singleton, Hinv.
    split.
    + intros [Hr| ->]; [|left; done]. right. split; [|exact Hr].
      intros ->. apply Hnot, Hinv, Hr.
    + intros [[-> _]|[_ Hr]]; [right; reflexivity | left; exact Hr].
  - rewrite Hinv. split.
    + intros Hr. right. split; [|exact Hr]. intros ->. apply Hnot, Hinv, Hr.
    + intros [[_ H]|[_ Hr]]; [discriminate | exact Hr].
Qed.

Lemma appended_assigns (e v : addr) :
  assigns m' e v <->
  (e = brk m /\ defines x v = true) \/ (e <> brk m /\ assigns m e v).
Proof.
  unfold assigns. rewrite (app_insn _ _ _ _ Happ). split.
  - intros (i & sub & Hi & Hb). rewrite lookup_insert in Hi. case_decide as He.
    + injection Hi as <-. simpl in Hb. subst x. left. split; [done|].
      simpl. now apply bool_decide_eq_true.
    + right. split; [congruence|]. eauto.
  - intros [[-> Hd]|[Hne (i & sub & Hi & Hb)]].
    + destruct x as [dest sub|f]; [|discriminate]. simpl in Hd.
      apply bool_decide_eq_true in Hd as ->.
      eexists _, sub. rewrite lookup_insert_eq. split; reflexivity.
    + exists i, sub. rewrite lookup_insert_ne by congruence. split; assumption.
Qed.

Lemma appended_assignments :
  assignments_consistent m -> assignments_consistent m'.
Proof.
  intros Hinv v d' Hd' e.
  apply appended_var_inv in Hd' as (d & Hd & ->).
  rewrite appended_assigns. specialize (Hinv v d Hd).
  assert (Hnot : brk m ∉ assigned_at d).
  { intros Hin. apply Hinv in Hin as (i & sub & Hi & _).
    now rewrite appended_fresh_insn in Hi. }
  unfold var_after. simpl. destruct (defines x v) eqn:Hm.
  - unfold dlist_append. rewrite elem_of_app, list_elem_of_singleton, Hinv.
    split.
    + intros [Hr| ->]; [|left; done]. right. split; [|exact Hr].
      intros ->. apply Hnot, Hinv, Hr.
    + intros [[-> _]|[_ Hr]]; [right; reflexivity | left; exact Hr].
  - rewrite Hinv. split.
    + intros Hr. right. split; [|exact Hr]. intros ->. apply Hnot, Hinv, Hr.
    + intros [[_ H]|[_ Hr]]; [discriminate | exact Hr].
Qed.

Lemma appended_blocks : blocks_consistent m -> blocks_consistent m'.
Proof.
  intros Hinv c b' Hb' i.
  apply appended_code_inv in Hb' as (b & Hb & ->).
  specialize (Hinv c b Hb).
  assert (Hnot : brk m ∉ insns b).
  { intros Hin. apply Hinv in Hin as (y & Hy & _).
    now rewrite appended_fresh_insn in Hy. }
  rewrite (app_insn _ _ _ _ Happ). unfold code_after. simpl.
  case_bool_decide as Hc.
  - subst c. unfold dlist_append. rewrite elem_of_app, list_elem_of_singleton, Hinv.
    split.
    + intros [(y & Hy & Hp)| ->].
      * exists y. rewrite lookup_insert_ne; [done|].
        intros <-. now rewrite appended_fresh_insn in Hy.
      * eexists. rewrite lookup_insert_eq. split; reflexivity.
    + intros (y & Hy & Hp). rewrite lookup_insert in Hy. case_decide as He.
      * right. congruence.
      * left. eauto.
  - rewrite Hinv. split.
    + intros (y & Hy & Hp). exists y. rewrite lookup_insert_ne; [done|].
      intros <-. now rewrite appended_fresh_insn in Hy.
    + intros (y & Hy & Hp). rewrite lookup_insert in Hy. case_decide as He.
      * injection Hy as <-. simpl in Hp. congruence.
      * eauto.
Qed.

Lemma appended_flow : flow_symmetric m -> flow_symmetric m'.
Proof.
  intros Hinv a b ca' cb' Ha Hb.
  apply appended_code_inv in Ha as (ca & Ha & ->).
  apply appended_code_inv in Hb as (cb & Hb & ->).
  specialize (Hinv a b ca cb Ha Hb).
  unfold code_after, set_add. simpl.
  destruct (edge_of x) as [t|]; [|case_bool_decide; [congruence | exact Hinv]].
  repeat case_bool_decide; simplify_eq;
    rewrite ?elem_of_union, ?elem_of_singleton; naive_solver.
Qed.

Lemma appended_args : args_in_vars m -> args_in_vars m'.
Proof. unfold args_in_vars. now rewrite (app_func _ _ _ _ Happ). Qed.

Lemma appended_lists : lists_live m -> lists_live m'.
Proof.
  intros [Hv Hc]. unfold lists_live. rewrite (app_func _ _ _ _ Happ). split.
  - intros v Hin. rewrite (app_var _ _ _ _ Happ). apply fmap_is_Some, Hv, Hin.
  - intros c Hin. rewrite (app_code _ _ _ _ Happ). apply fmap_is_Some, Hc, Hin.
Qed.

Lemma appended_alloc : allocated_below_brk m'.
Proof.
  intros a Ha. rewrite (app_brk _ _ _ _ Happ) in Ha.
  destruct (Hfresh a ltac:(lia)) as (Hv & Hc & Hi).
  rewrite (app_var _ _ _ _ Happ), (app_code _ _ _ _ Happ), (app_insn _ _ _ _ Happ).
  rewrite Hv, Hc. rewrite lookup_insert_ne by lia. done.
Qed.

Lemma live_below {V} (h : gmap N V) (a : addr) :
  (forall a, brk m <= a -> h !! a = None) -> is_Some (h !! a) -> a < brk m.
Proof.
  intros Hnone [y Hy]. destruct (N.lt_ge_cases a (brk m)) as [|Hge]; [done|].
  rewrite (Hnone a Hge) in Hy. discriminate.
Qed.

Lemma appended_refs : refers_below_brk m -> refers_below_brk m'.
Proof.
  intros [Hi Hc]. unfold refers_below_brk. rewrite (app_brk _ _ _ _ Happ). split.
  - intros i y Hy. rewrite (app_insn _ _ _ _ Happ), lookup_insert in Hy.
    case_decide as He.
    + injection Hy as <-. simpl. split.
      * apply N.lt_lt_succ_r, (live_below (heap_code m)).
        -- intros a Ha. apply Hfresh, Ha.
        -- apply (app_live_code _ _ _ _ Happ).
      * intros v Hv. apply N.lt_lt_succ_r, (live_below (heap_var m)).
        -- intros a Ha. apply Hfresh, Ha.
        -- apply (app_live_vars _ _ _ _ Happ), Hv.
    + destruct (Hi i y Hy) as [Hp Hv]. split; [lia|].
      intros v Hm. specialize (Hv v Hm). lia.
  - intros c b' Hb' a Ha. apply appended_code_inv in Hb' as (b & Hb & ->).
    assert (Hcode : code < brk m).
    { apply (live_below (heap_code m)); [intros ? ?; now apply Hfresh|].
      apply (app_live_code _ _ _ _ Happ). }
    unfold code_after, set_add in Ha. simpl in Ha.
    assert (Hold : a ∈ pred b \/ a ∈ succ b -> a < N.succ (brk m))
      by (intros H; specialize (Hc c b Hb a H); lia).
    destruct (edge_of x) as [t|] eqn:Hedge.
    + assert (Ht : t < brk m).
      { apply (live_below (heap_code m)); [intros ? ?; now apply Hfresh|].
        now apply (app_live_edge _ _ _ _ Happ). }
      repeat case_bool_decide; subst;
        rewrite ?elem_of_union, ?elem_of_singleton in Ha;
        destruct Ha as [Ha|Ha]; try (apply Hold; tauto);
        destruct Ha as [Ha|Ha]; try (apply Hold; tauto); subst; lia.
    + case_bool_decide; [congruence|]. apply Hold, Ha.
Qed.

Lemma appended_prim_of (o : ir_operand_t) : prim_of m' o = prim_of m o.
Proof.
  apply prim_of_same_types. intros v. rewrite (app_var _ _ _ _ Happ).
  now destruct (heap_var m !! v).
Qed.

Lemma appended_typed : well_typed m -> well_typed m'.
Proof.
  intros Hinv e i Hi. apply (insn_typed_mono m).
  { intros o p. now rewrite appended_prim_of. }
  rewrite (app_insn _ _ _ _ Happ), lookup_insert in Hi. case_decide.
  - injection Hi as <-. apply (app_typed _ _ _ _ Happ).
  - apply (Hinv e i Hi).
Qed.

Lemma appended_terminates (e : addr) :
  e <> brk m -> terminates m' e <-> terminates m e.
Proof.
  intros Hne. unfold terminates.
  now rewrite (app_insn _ _ _ _ Happ), lookup_insert_ne.
Qed.

Lemma appended_order :
  blocks_consistent m -> terminators_last m -> terminators_last m'.
Proof.
  intros Hblk Hord c b' Hb' l1 e1 l2 e2 l3 Hsplit Hterm.
  apply appended_code_inv in Hb' as (b & Hb & ->).
  assert (Hold : forall e, e ∈ insns b -> e <> brk m).
  { intros e Hin ->. apply (Hblk c b Hb) in Hin as (y & Hy & _).
    now rewrite appended_fresh_insn in Hy. }
  assert (Hin : forall k1 k2 k3,
             insns b = k1 ++ e1 :: k2 ++ e2 :: k3 -> terminates m' e2).
  { intros k1 k2 k3 Hk.
    assert (H1 : e1 ∈ insns b) by (rewrite Hk; set_solver).
    assert (H2 : e2 ∈ insns b) by (rewrite Hk; set_solver).
    apply appended_terminates; [now apply Hold|].
    apply (Hord c b Hb _ _ _ _ _ Hk).
    apply appended_terminates; [now apply Hold | exact Hterm]. }
  unfold code_after in Hsplit. simpl in Hsplit. case_bool_decide as Hc.
  - subst c. unfold dlist_append in Hsplit.
    destruct l3 as [|z l3 _] using rev_ind.
    + replace (l1 ++ e1 :: l2 ++ [e2]) with ((l1 ++ e1 :: l2) ++ [e2]) in Hsplit
        by now rewrite <- app_assoc.
      apply app_inj_tail in Hsplit as [Hsplit <-].
      assert (H1 : e1 ∈ insns b) by (rewrite Hsplit; set_solver).
      apply appended_terminates in Hterm; [|now apply Hold].
      exists {| parent := code; body := x |}.
      rewrite (app_insn _ _ _ _ Happ), lookup_insert_eq. split; [reflexivity|].
      apply (app_order _ _ _ _ Happ appended_fresh_insn).
      now apply (terminated_of_split m code b l1 l2 e1).
    + replace (l1 ++ e1 :: l2 ++ e2 :: l3 ++ [z])
        with ((l1 ++ e1 :: l2 ++ e2 :: l3) ++ [z]) in Hsplit
        by (rewrite <- !app_assoc; simpl; now rewrite <- app_assoc).
      apply app_inj_tail in Hsplit as [Hsplit _]. now apply (Hin _ _ _ Hsplit).
  - now apply (Hin _ _ _ Hsplit).
Qed.

Lemma appended_ssa : ssa_disciplined m -> ssa_disciplined m'.
Proof.
  intros Hinv He v d' Hd'. rewrite (app_func _ _ _ _ Happ) in He.
  apply appended_var_inv in Hd' as (d & Hd & ->). simpl.
  destruct (defines x v) eqn:Hdef.
  - now rewrite (app_ssa _ _ _ _ Happ He v d Hdef Hd).
  - now apply (Hinv He v).
Qed.

Lemma appended_live : references_live m -> references_live m'.
Proof.
  intros [Hi Hc]. split.
  - intros i y Hy. rewrite (app_insn _ _ _ _ Happ), lookup_insert in Hy.
    rewrite (app_code _ _ _ _ Happ), fmap_is_Some.
    assert (Hvar : forall v, is_Some (heap_var m !! v) ->
                             is_Some (heap_var m' !! v))
      by (intros v; now rewrite (app_var _ _ _ _ Happ), fmap_is_Some).
    case_decide as He.
    + injection Hy as <-. simpl. split; [apply (app_live_code _ _ _ _ Happ)|].
      intros v Hv. apply Hvar, (app_live_vars _ _ _ _ Happ), Hv.
    + destruct (Hi i y Hy) as [Hp Hv]. split; [exact Hp|].
      intros v Hm. apply Hvar, Hv, Hm.
  - intros c b' Hb' a Ha. apply appended_code_inv in Hb' as (b & Hb & ->).
    rewrite (app_code _ _ _ _ Happ), fmap_is_Some.
    unfold code_after, set_add in Ha. simpl in Ha.
    assert (Hold : a ∈ pred b \/ a ∈ succ b -> is_Some (heap_code m !! a))
      by apply (Hc c b Hb).
    destruct (edge_of x) as [t|] eqn:Hedge.
    + pose proof (app_live_edge _ _ _ _ Happ t Hedge) as Ht.
      pose proof (app_live_code _ _ _ _ Happ) as Hcode.
      repeat case_bool_decide; subst;
        rewrite ?elem_of_union, ?elem_of_singleton in Ha;
        destruct Ha as [Ha|Ha]; try (apply Hold; tauto);
        destruct Ha as [Ha|Ha]; try (apply Hold; tauto); subst; assumption.
    + case_bool_decide; [congruence|]. apply Hold, Ha.
Qed.

Lemma appended_well_formed : well_formed m -> well_formed m'.
Proof.
  intros [? ? ? ? ? ? ? ? ? ? ? ?]. split.
  - now apply appended_uses.
  - now apply appended_assignments.
  - now apply appended_flow.
  - now apply appended_blocks.
  - now apply appended_args.
  - now apply appended_lists.
  - exact appended_alloc.
  - now apply appended_refs.
  - now apply appended_typed.
  - now apply appended_order.
  - now apply appended_ssa.
  - now apply appended_live.
Qed.

End Appended.

(** ** Creation keeps the invariants *)

Lemma ir_var_create_inv (type : ir_prim_t) (name : option string)
    (m m' : memory) (v : addr) :
  ir_var_create type name m = Done v m' ->
  v = brk m /\
  func m' = {| func_name := func_name (func m); args := args (func m);
               entry := entry (func m); code_list := code_list (func m);
               vars_list := vars_list (func m) ++ [brk m];
               enforce_ssa := enforce_ssa (func m) |} /\
  heap_var m'
  = <[brk m := {| var_name := match name with
                              | Some s => s
                              | None => fmt_zu (length (vars_list (func m)))
                              end;
                  var_prim_type := type; assigned_at := [];
                  used_at := ∅ |}]> (heap_var m) /\
  heap_code m' = heap_code m /\ heap_insn m' = heap_insn m /\
  brk m' = N.succ (brk m).
Proof. intros [= <- <-]. done. Qed.

Lemma ir_code_create_inv (name : option string) (m m' : memory) (c : addr) :
  ir_code_create name m = Done c m' ->
  c = brk m /\
  func m' = {| func_name := func_name (func m); args := args (func m);
               entry := entry (func m);
               code_list := code_list (func m) ++ [brk m];
               vars_list := vars_list (func m);
               enforce_ssa := enforce_ssa (func m) |} /\
  heap_code m'
  = <[brk m := {| code_name := match name with
                               | Some s => s
                               | None => fmt_zu (length (code_list (func m)))
                               end;
                  insns := []; pred := ∅; succ := ∅; visited := false;
                  dfs_index := 0%nat |}]> (heap_code m) /\
  heap_var m' = heap_var m /\ heap_insn m' = heap_insn m /\
  brk m' = N.succ (brk m).
Proof. intros [= <- <-]. done. Qed.

Lemma references_same_insns (m m' : memory) (i v : addr) :
  heap_insn m' = heap_insn m -> references m' i v <-> references m i v.
Proof. unfold references, body_at. now intros ->. Qed.

Lemma assigns_same_insns (m m' : memory) (e v : addr) :
  heap_insn m' = heap_insn m -> assigns m' e v <-> assigns m e v.
Proof. unfold assigns. now intros ->. Qed.

Lemma references_below (m : memory) (i v : addr) :
  refers_below_brk m -> references m i v -> v < brk m.
Proof.
  intros [Hi _] (b & Hb & Hex). unfold body_at in Hb.
  destruct (heap_insn m !! i) as [y|] eqn:Hy; [|discriminate].
  injection Hb as <-. apply (Hi i y Hy). left. now apply mentions_spec.
Qed.

Lemma assigns_below (m : memory) (e v : addr) :
  refers_below_brk m -> assigns m e v -> v < brk m.
Proof.
  intros [Hi _] (y & sub & Hy & Hb). apply (Hi e y Hy). right.
  rewrite Hb. simpl. now apply bool_decide_eq_true.
Qed.

Lemma ir_var_create_well_formed (type : ir_prim_t) (name : option string)
    (m m' : memory) (v : addr) :
  well_formed m -> ir_var_create type name m = Done v m' -> well_formed m'.
Proof.
  intros [Hu Ha Hf Hb Hg Hl Hal Hr Hty Hord Hssa Hlive] H.
  apply ir_var_create_inv in H as (-> & Hfn & Hv & Hc & Hi & Hbrk).
  split.
  - intros w d' Hd' i. rewrite (references_same_insns m m') by exact Hi.
    rewrite Hv, lookup_insert in Hd'. case_decide as Hw.
    + subst w. injection Hd' as <-. simpl. split; [set_solver|].
      intros Href. apply (references_below _ _ _ Hr) in Href. lia.
    + now apply Hu.
  - intros w d' Hd' e. rewrite (assigns_same_insns m m') by exact Hi.
    rewrite Hv, lookup_insert in Hd'. case_decide as Hw.
    + subst w. injection Hd' as <-. simpl. split; [intros Hin; inversion Hin|].
      intros Has. apply (assigns_below _ _ _ Hr) in Has. lia.
    + now apply Ha.
  - unfold flow_symmetric. rewrite Hc. exact Hf.
  - unfold blocks_consistent. rewrite Hc, Hi. exact Hb.
  - unfold args_in_vars in *. rewrite Hfn. simpl.
    eapply Forall_impl; [exact Hg|]. intros a Hin. simpl. set_solver.
  - destruct Hl as [Hlv Hlc]. unfold lists_live. rewrite Hfn, Hv, Hc. simpl. split.
    + intros w Hw. apply elem_of_app in Hw as [Hw|Hw].
      * rewrite lookup_insert. case_decide; [eauto | now apply Hlv].
      * apply list_elem_of_singleton in Hw as ->. rewrite lookup_insert_eq. eauto.
    + exact Hlc.
  - intros a Hge. rewrite Hbrk in Hge. rewrite Hv, Hc, Hi.
    destruct (Hal a ltac:(lia)) as (? & ? & ?).
    rewrite lookup_insert_ne by lia. done.
  - destruct Hr as [Hri Hrc]. unfold refers_below_brk. rewrite Hbrk, Hi, Hc. split.
    + intros i y Hy. destruct (Hri i y Hy) as [Hp Hm]. split; [lia|].
      intros w Hw. specialize (Hm w Hw). lia.
    + intros c b Hcb a Hin. specialize (Hrc c b Hcb a Hin). lia.
  - intros e i He. rewrite Hi in He. apply (insn_typed_mono m); [|now apply Hty in He].
    intros [k|w] p; simpl; [done|]. rewrite Hv, lookup_insert. case_decide; [|done].
    subst w. destruct (Hal (brk m) ltac:(lia)) as (Hnone & _). now rewrite Hnone.
  - unfold terminators_last, terminates. rewrite Hc, Hi. exact Hord.
  - intros He w d Hd. rewrite Hfn in He. simpl in He.
    rewrite Hv, lookup_insert in Hd. case_decide.
    + injection Hd as <-. simpl. lia.
    + now apply (Hssa He w).
  - destruct Hlive as [Hli Hlc]. unfold references_live. rewrite Hi, Hc. split.
    + intros i y Hy. destruct (Hli i y Hy) as [Hp Hm]. split; [exact Hp|].
      intros w Hw. rewrite Hv, lookup_insert. case_decide; [eauto|].
      now apply Hm.
    + exact Hlc.
Qed.

Lemma ir_code_create_well_formed (name : option string) (m m' : memory)
    (c : addr) :
  well_formed m -> ir_code_create name m = Done c m' -> well_formed m'.
Proof.
  intros [Hu Ha Hf Hb Hg Hl Hal Hr Hty Hord Hssa Hlive] H.
  apply ir_code_create_inv in H as (-> & Hfn & Hc & Hv & Hi & Hbrk).
  destruct Hr as [Hri Hrc]. split.
  - unfold use_sets_consistent. rewrite Hv. intros w d Hd i.
    rewrite (references_same_insns m m') by exact Hi. now apply Hu.
  - unfold assignments_consistent. rewrite Hv. intros w d Hd e.
    rewrite (assigns_same_insns m m') by exact Hi. now apply Ha.
  - intros a b ca cb Hca Hcb. rewrite Hc in Hca, Hcb.
    rewrite lookup_insert in Hca, Hcb.
    destruct (decide (brk m = a)), (decide (brk m = b)); simplify_eq; simpl.
    + set_solver.
    + split; [set_solver|]. intros Hin.
      specialize (Hrc b cb Hcb (brk m) (or_introl Hin)). lia.
    + split; [|set_solver]. intros Hin.
      specialize (Hrc a ca Hca (brk m) (or_intror Hin)). lia.
    + now apply Hf.
  - intros b cb Hcb i. rewrite Hi. rewrite Hc, lookup_insert in Hcb.
    case_decide as Hw.
    + subst b. injection Hcb as <-. simpl. split; [intros Hin; inversion Hin|].
      intros (y & Hy & Hp). destruct (Hri i y Hy) as [Hlt _]. lia.
    + now apply Hb.
  - unfold args_in_vars in *. now rewrite Hfn.
  - destruct Hl as [Hlv Hlc]. unfold lists_live. rewrite Hfn, Hv, Hc. simpl. split.
    + exact Hlv.
    + intros w Hw. apply elem_of_app in Hw as [Hw|Hw].
      * rewrite lookup_insert. case_decide; [eauto | now apply Hlc].
      * apply list_elem_of_singleton in Hw as ->. rewrite lookup_insert_eq. eauto.
  - intros a Hge. rewrite Hbrk in Hge. rewrite Hv, Hc, Hi.
    destruct (Hal a ltac:(lia)) as (? & ? & ?).
    rewrite lookup_insert_ne by lia. done.
  - unfold refers_below_brk. rewrite Hbrk, Hi, Hc. split.
    + intros i y Hy. destruct (Hri i y Hy) as [Hp Hm]. split; [lia|].
      intros w Hw. specialize (Hm w Hw). lia.
    + intros b cb Hcb a Hin. rewrite lookup_insert in Hcb. case_decide.
      * injection Hcb as <-. simpl in Hin. set_solver.
      * specialize (Hrc b cb Hcb a Hin). lia.
  - intros e i He. rewrite Hi in He. apply (insn_typed_mono m); [|now apply Hty in He].
    intros [k|w] p; simpl; [done|]. now rewrite Hv.
  - intros b cb Hcb l1 e1 l2 e2 l3 Hsplit. unfold terminates. rewrite Hi.
    rewrite Hc, lookup_insert in Hcb. case_decide.
    + injection Hcb as <-. simpl in Hsplit. now destruct l1.
    + now apply (Hord b cb Hcb l1 e1 l2 e2 l3).
  - intros He w d Hd. rewrite Hfn in He. simpl in He. rewrite Hv in Hd.
    now apply (Hssa He w).
  - destruct Hlive as [Hli Hlc]. unfold references_live. rewrite Hi, Hv. split.
    + intros i y Hy. destruct (Hli i y Hy) as [Hp Hm]. split; [|exact Hm].
      rewrite Hc, lookup_insert. case_decide; [eauto | exact Hp].
    + intros b cb Hcb a Hin. rewrite Hc, lookup_insert in Hcb.
      rewrite Hc, lookup_insert. case_decide as Hb1.
      * injection Hcb as <-. simpl in Hin. set_solver.
      * case_decide; [eauto|]. now apply (Hlc b cb Hcb).
Qed.

(** ** Any sequence of building calls keeps the invariants *)

Lemma well_formed_set_func (m : memory) (fn : ir_func_t) :
  well_formed m ->
  vars_list fn = vars_list (func m) -> code_list fn = code_list (func m) ->
  enforce_ssa fn = enforce_ssa (func m) ->
  Forall (fun a => a ∈ vars_list fn) (args fn) ->
  well_formed {| func := fn; heap_var := heap_var m; heap_code := heap_code m;
                 heap_insn := heap_insn m; brk := brk m |}.
Proof.
  intros [Hu Ha Hf Hb Hg Hl Hal Hr Hty Hord Hssa Hlive] Hv Hc He Hargs.
  split; try assumption.
  - destruct Hl as [Hlv Hlc]. split; simpl; [rewrite Hv | rewrite Hc]; assumption.
  - unfold ssa_disciplined. simpl. now rewrite He.
Qed.

Lemma well_formed_no_memory (name : string) :
  well_formed {| func := {| func_name := name; args := []; entry := NULL;
                            code_list := []; vars_list := [];
                            enforce_ssa := false |};
                 heap_var := ∅; heap_code := ∅; heap_insn := ∅; brk := 1 |}.
Proof.
  split.
  - intros v x Hx. simpl in Hx. now rewrite lookup_empty in Hx.
  - intros v x Hx. simpl in Hx. now rewrite lookup_empty in Hx.
  - intros a b ca cb Ha. simpl in Ha. now rewrite lookup_empty in Ha.
  - intros c b Hb. simpl in Hb. now rewrite lookup_empty in Hb.
  - constructor.
  - split; simpl; intros ? Hin; inversion Hin.
  - intros a _. simpl. now rewrite !lookup_empty.
  - split; simpl; intros ? ? H; now rewrite lookup_empty in H.
  - intros e i He. simpl in He. now rewrite lookup_empty in He.
  - intros c b Hb. simpl in Hb. now rewrite lookup_empty in Hb.
  - intros He. discriminate He.
  - split; simpl; intros ? ? H; now rewrite lookup_empty in H.
Qed.

Lemma ir_func_create_args_well_formed
    (args_name : option (list (option string))) (n : nat) :
  forall (i : nat) (m m' : memory),
    well_formed m ->
    ir_func_create_args args_name i n m = Done tt m' ->
    well_formed m'.
Proof.
  induction n as [|n IH]; intros i m m' Hwf H; simpl in H.
  - now apply ret_inv in H as [_ <-].
  - apply bind_inv in H as (name & m1 & Hname & H).
    assert (m1 = m) as ->.
    { destruct args_name as [names|]; [|now apply ret_inv in Hname].
      destruct (names !! i); [now apply ret_inv in Hname | discriminate]. }
    apply bind_inv in H as (a & m2 & Hcreate & H).
    pose proof (ir_var_create_well_formed _ _ _ _ _ Hwf Hcreate) as Hwf2.
    apply ir_var_create_inv in Hcreate as (-> & Hfn & _).
    apply bind_inv in H as (fn & m3 & Hget & H). injection Hget as <- <-.
    apply bind_inv in H as ([] & m3 & Hset & H). injection Hset as <-.
    apply IH in H; [exact H|].
    apply well_formed_set_func; try reflexivity; [exact Hwf2|]. simpl.
    apply Forall_app. split.
    + apply (wf_args _ Hwf2).
    + constructor; [|constructor]. rewrite Hfn. simpl. set_solver.
Qed.

Lemma ir_func_create_well_formed (name : string) (entry_name : option string)
    (args_len : nat) (args_name : option (list (option string)))
    (m : memory) :
  ir_func_create name entry_name args_len args_name no_memory = Done tt m ->
  well_formed m.
Proof.
  unfold ir_func_create. intros H.
  apply bind_inv in H as (fn & m1 & Hget & H). injection Hget as <- <-.
  apply bind_inv in H as ([] & m1 & Hset & H). injection Hset as <-.
  apply bind_inv in H as ([] & m2 & Hargs & H).
  apply ir_func_create_args_well_formed in Hargs;
    [|apply well_formed_no_memory].
  apply bind_inv in H as (e & m3 & Hcode & H).
  apply (ir_code_create_well_formed _ _ _ _ Hargs) in Hcode.
  apply bind_inv in H as (fn & m4 & Hget & H). injection Hget as <- <-.
  injection H as <-.
  apply well_formed_set_func; try reflexivity; [exact Hcode|].
  apply (wf_args _ Hcode).
Qed.

Lemma run_call_well_formed (c : api_call) (m m' : memory) :
  well_formed m -> run_call c m = Done tt m' -> well_formed m'.
Proof.
  intros Hwf H. pose proof (wf_alloc _ Hwf) as Hal.
  destruct c; simpl in H.
  - apply bind_inv in H as (v & m1 & Hc & H). apply ret_inv in H as [_ <-].
    eapply ir_var_create_well_formed; eassumption.
  - apply bind_inv in H as (v & m1 & Hc & H). apply ret_inv in H as [_ <-].
    eapply ir_code_create_well_formed; eassumption.
  - eapply appended_well_formed;
      [apply ir_add_combinator_appends; eassumption | assumption..].
  - eapply appended_well_formed;
      [apply ir_add_expr1_appends; eassumption | assumption..].
  - eapply appended_well_formed;
      [apply ir_add_expr2_appends; eassumption | assumption..].
  - eapply appended_well_formed;
      [apply ir_add_undefined_appends; eassumption | assumption..].
  - eapply appended_well_formed;
      [apply ir_add_call_direct_appends; eassumption | assumption..].
  - eapply appended_well_formed;
      [apply ir_add_call_ptr_appends; eassumption | assumption..].
  - eapply appended_well_formed;
      [apply ir_add_jump_appends; eassumption | assumption..].
  - eapply appended_well_formed;
      [apply ir_add_branch_appends; eassumption | assumption..].
  - eapply appended_well_formed;
      [apply ir_add_return0_appends; eassumption | assumption..].
  - eapply appended_well_formed;
      [apply ir_add_return1_appends; eassumption | assumption..].
Qed.

Lemma run_calls_well_formed (calls : list api_call) :
  forall m m',
    well_formed m -> foreach calls run_call m = Done tt m' -> well_formed m'.
Proof.
  induction calls as [|c calls IH]; intros m m' Hwf H; simpl in H.
  - now apply ret_inv in H as [_ <-].
  - apply bind_inv in H as ([] & m1 & Hc & H).
    eapply IH; [|exact H]. eapply run_call_well_formed; eassumption.
Qed.

Lemma built_well_formed (name : string) (entry_name : option string)
    (args_len : nat) (args_name : option (list (option string)))
    (calls : list api_call) (m : memory) :
  build name entry_name args_len args_name calls no_memory = Done tt m ->
  well_formed m.
Proof.
  unfold build. intros H. apply bind_inv in H as ([] & m1 & Hc & H).
  eapply run_calls_well_formed; [|exact H].
  eapply ir_func_create_well_formed. exact Hc.
Qed.

(** A function built through [ir_func_create] and any sequence of calls of
    [ir_var_create], [ir_code_create] and the ten builders, each of which
    returned, satisfies the invariants of the data model: use-set
    consistency, assignment-list consistency, predecessor/successor
    symmetry, instruction lists that agree with the parents, parameters
    that are variables of the function, type agreement of every
    instruction, terminator ordering in every block, and no reference to
    anything that is freed or not allocated. *)
Theorem build_well_formed (name : string) (entry_name : option string)
    (args_len : nat) (args_name : option (list (option string)))
    (calls : list api_call) (m : memory) :
  build name entry_name args_len args_name calls no_memory = Done tt m ->
  well_formed m.
Proof. apply built_well_formed. Qed.

Lemma build_well_formed_witness :
  let calls := [call_var_create IR_PRIM_S32 (Some "v"%string);
                call_code_create (Some "L"%string);
                call_add_expr1 1 2 IR_OP1_MOV (s32_const 1);
                call_add_jump 1 3;
                call_add_expr2 3 2 IR_OP2_ADD (op_var 2) (s32_const 1);
                call_add_jump 3 3] in
  build "f" (Some "entry"%string) 0 None calls no_memory
  = counter_function no_memory /\
  well_formed (memory_after (counter_function no_memory)).
Proof.
  intros calls. split; [vm_compute; reflexivity|].
  apply (build_well_formed "f" (Some "entry"%string) 0 None calls).
  vm_compute. reflexivity.
Defined.

(** Each of the ten builders, when it returns, has stored its instruction
    at the address [calloc] handed out and appended it to its block, has
    entered it in the use-set of exactly the variables it names and in the
    assignment list of its destination, and, for a jump or a branch, has
    entered the edge on both ends; every other record is as it was, the
    block, the variables and the target were live, the instruction
    satisfies type agreement, it is a jump or a branch if the block
    ended in one, and its destination had no assignment if the function
    enforces the SSA form. *)
Theorem builder_appends (c : api_call) (code : addr) (x : ir_insn_body)
    (m m' : memory) :
  appended_by c = Some (code, x) ->
  run_call c m = Done tt m' ->
  appended m m' code x.
Proof.
  intros Hc H. destruct c; simpl in Hc; try discriminate;
    injection Hc as <- <-; simpl in H.
  - now apply ir_add_combinator_appends.
  - now apply ir_add_expr1_appends.
  - now apply ir_add_expr2_appends.
  - now apply ir_add_undefined_appends.
  - now apply ir_add_call_direct_appends.
  - now apply ir_add_call_ptr_appends.
  - now apply ir_add_jump_appends.
  - now apply ir_add_branch_appends.
  - now apply ir_add_return0_appends.
  - now apply ir_add_return1_appends.
Qed.

Lemma builder_appends_witness :
  let m := memory_after (call_function no_memory) in
  let c := call_add_expr2 3 1 IR_OP2_ADD (op_var 1) (op_var 2) in
  exists m',
    appended_by c = Some (3, expr 1 (e_binary IR_OP2_ADD (op_var 1) (op_var 2))) /\
    run_call c m = Done tt m' /\
    uses m' 2 = {[4; 5; 6]} /\
    insns_of m' 3 = [4; 5; 6].
Proof.
  intros m c. eexists.
  assert (Hby : appended_by c
                = Some (3, expr 1 (e_binary IR_OP2_ADD (op_var 1) (op_var 2))))
    by reflexivity.
  split; [exact Hby|].
  assert (Hrun : run_call c m = Done tt (memory_after (run_call c m)))
    by (vm_compute; reflexivity).
  split; [exact Hrun|].
  pose proof (builder_appends c _ _ m _ Hby Hrun) as Happ.
  split; vm_compute; reflexivity.
Defined.

(** ** Deleting an instruction *)

Lemma unuse_operand_inv (o : ir_operand_t) (i : addr) (m m' : memory) :
  unuse_operand o i m = Done tt m' ->
  m' = with_var m (match o with
                   | op_var v => alter (upd_used_at (set_remove i)) v (heap_var m)
                   | op_const _ => heap_var m
                   end).
Proof.
  destruct o as [k|v]; simpl; intros H.
  - apply ret_inv in H as [_ <-]. now destruct m.
  - now apply set_used_at_inv in H as [Hv ->].
Qed.

Lemma foreach_unuse_operand_inv (i : addr) (args : list ir_operand_t) :
  forall m m',
    foreach args (fun o => unuse_operand o i) m = Done tt m' ->
    exists hv,
      m' = with_var m hv /\
      (forall v, hv !! v
                 = (if existsb (fun o => is_var o v) args
                    then upd_used_at (set_remove i) else id) <$> heap_var m !! v).
Proof.
  induction args as [|o args IH]; intros m m' H; simpl in H.
  - apply ret_inv in H as [_ <-]. exists (heap_var m).
    split; [now destruct m|].
    intros v. simpl. now destruct (heap_var m !! v).
  - apply bind_inv in H as ([] & m1 & Ho & H).
    apply unuse_operand_inv in Ho as ->.
    apply IH in H as (hv & -> & Hhv). exists hv.
    split; [reflexivity|].
    intros v. rewrite Hhv. cbn [heap_var with_var existsb].
    destruct o as [k|w]; simpl; [reflexivity|].
    rewrite lookup_alter. split_cases;
      destruct (existsb _ args);
      match goal with
      | |- context [heap_var ?m !! ?v] => destruct (heap_var m !! v) as [[]|]
      end; simpl; try reflexivity;
      unfold upd_used_at, set_remove; simpl; do 2 f_equal; set_solver.
Qed.

Ltac removed_var_goal :=
  intros ?; unfold var_without, defines, unused_operands, operands; simpl;
  repeat match goal with
         | o : ir_operand_t |- _ => destruct o
         | o : option ir_operand_t |- _ => destruct o
         end;
  rewrite ?lookup_alter; simpl; split_cases;
  rewrite ?lookup_alter; simpl; split_cases;
  match goal with
  | |- context [heap_var ?m !! ?v] => destruct (heap_var m !! v) as [[]|]
  end; simpl; try reflexivity;
  unfold upd_used_at, upd_assigned_at, set_remove; simpl;
  do 2 f_equal; try reflexivity; try set_solver.

Lemma foreach_map {A B} (g : A -> B) (f : B -> M unit) (l : list A)
    (m : memory) :
  foreach l (fun x => f (g x)) m = foreach (map g l) f m.
Proof.
  revert m. induction l as [|x l IH]; intros m; simpl; [reflexivity|].
  unfold bind_M. destruct (f (g x) m); try reflexivity. apply IH.
Qed.

Ltac removed_loop Hbody :=
  let hv := fresh "hv" in
  let Hhv := fresh "Hhv" in
  apply foreach_unuse_operand_inv in Hbody as (hv & -> & Hhv);
  cbn [func heap_var heap_code heap_insn brk with_var with_code with_insn] in *;
  split; [reflexivity|]; split; [reflexivity|]; split; [reflexivity|];
  split; [reflexivity|];
  intros ?; rewrite Hhv; unfold var_without, defines, unused_operands, operands;
  simpl; rewrite ?lookup_alter; simpl; split_cases;
  repeat match goal with
         | o : ir_operand_t |- _ => destruct o
         end;
  rewrite ?lookup_alter; simpl; split_cases;
  repeat match goal with
         | |- context [existsb ?f ?l] => destruct (existsb f l)
         end;
  match goal with
  | |- context [heap_var ?m !! ?v] => destruct (heap_var m !! v) as [[]|]
  end; simpl; try reflexivity;
  unfold upd_used_at, upd_assigned_at, set_remove; simpl;
  do 2 f_equal; try reflexivity; try set_solver.

Ltac removed_plain Hbody :=
  repeat (first [ step Hbody
                | apply unuse_operand_inv in Hbody as ->
                | apply ret_inv in Hbody as [_ <-] ]);
  repeat match goal with
         | H : unuse_operand _ _ _ = Done ?a _ |- _ =>
             destruct a; apply unuse_operand_inv in H as ->
         end;
  cbn [func heap_var heap_code heap_insn brk with_var with_code with_insn] in *;
  split; [reflexivity|]; split; [reflexivity|]; split; [reflexivity|];
  split; [reflexivity|]; removed_var_goal.

(** The effect of [ir_insn_delete], read off its body. *)
Lemma ir_insn_delete_effect (m m' : memory) (e : addr) :
  ir_insn_delete e m = Done tt m' ->
  exists i, removed m m' e i.
Proof.
  intros H. unfold ir_insn_delete in H.
  apply bind_inv in H as (i & m0 & Hi & H). apply get_insn_inv in Hi as [Hi ->].
  exists i.
  apply bind_inv in H as ([] & m1 & Hbody & H).
  apply bind_inv in H as ([] & m2 & Hins & H).
  apply set_insns_inv in Hins as [Hcode ->]. injection H as <-.
  assert (Hm1 : func m1 = func m /\ brk m1 = brk m /\ heap_insn m1 = heap_insn m
                /\ heap_code m1 = heap_code m
                /\ forall v, heap_var m1 !! v
                             = var_without e (body i) v <$> heap_var m !! v).
  { destruct (body i) as [dest sub|f].
    - step Hbody. destruct sub as [from|oper value|oper lhs rhs|].
      + rewrite (foreach_map bind (fun o => unuse_operand o e)) in Hbody.
        removed_loop Hbody.
      + removed_plain Hbody.
      + removed_plain Hbody.
      + removed_plain Hbody.
    - destruct f as [target|cond target|args label|args fptr|[value|]].
      + removed_plain Hbody.
      + removed_plain Hbody.
      + removed_loop Hbody.
      + step Hbody. destruct (is_const fptr); [discriminate|].
        clear Hc. removed_loop Hbody.
      + removed_plain Hbody.
      + removed_plain Hbody. }
  destruct Hm1 as (Hf & Hb & Hins & Hcd & Hv).
  split; cbn [func heap_var heap_code heap_insn brk with_var with_code with_insn];
    try assumption.
  - now rewrite Hins.
  - now rewrite Hcd.
  - now rewrite <- Hcd.
Qed.

(** Whenever [ir_insn_delete] returns, the instruction was live and has
    been freed and taken out of the instruction list of its parent, out of
    the assignment list of its destination and out of the use-set of every
    variable among its operands, the address operand of a call through a
    pointer excepted; no other record has changed. *)
Theorem ir_insn_delete_removes (m m' : memory) (e : addr) :
  ir_insn_delete e m = Done tt m' ->
  exists i, removed m m' e i.
Proof. apply ir_insn_delete_effect. Qed.

Lemma ir_insn_delete_removes_witness :
  let m := memory_after (callptr_function no_memory) in
  exists m' i,
    ir_insn_delete 3 m = Done tt m' /\
    removed m m' 3 i /\
    body i = flow (f_call_ptr [] (op_var 1)) /\
    unused_operands (body i) = [].
Proof.
  intros m.
  assert (Hrun : ir_insn_delete 3 m = Done tt (memory_after (ir_insn_delete 3 m)))
    by (vm_compute; reflexivity).
  destruct (ir_insn_delete_removes m _ 3 Hrun) as (i & Hrem).
  exists (memory_after (ir_insn_delete 3 m)), i.
  split; [exact Hrun|]. split; [exact Hrem|].
  pose proof (rem_live _ _ _ _ Hrem) as Hi.
  assert (Hi' : heap_insn m !! 3
                = Some {| parent := 2; body := flow (f_call_ptr [] (op_var 1)) |})
    by (vm_compute; reflexivity).
  rewrite Hi' in Hi. injection Hi as <-. split; reflexivity.
Defined.

(** Where an element of a filtered list sits in the list itself. *)
Lemma filter_split (P : addr -> Prop) `{forall a, Decision (P a)}
    (l : list addr) :
  forall l1 e l2,
    filter P l = l1 ++ e :: l2 ->
    exists k1 k2, l = k1 ++ e :: k2 /\ filter P k2 = l2.
Proof.
  induction l as [|a l IH]; intros l1 e l2 Hf.
  - now destruct l1.
  - rewrite filter_cons in Hf. destruct (decide (P a)) as [Ha|Ha].
    + destruct l1 as [|a' l1]; simpl in Hf.
      * injection Hf as -> Hf. now exists [], l.
      * injection Hf as -> Hf. apply IH in Hf as (k1 & k2 & -> & Hk).
        now exists (a' :: k1), k2.
    + apply IH in Hf as (k1 & k2 & -> & Hk). now exists (a :: k1), k2.
Qed.

Section Removed.

Variables (m m' : memory) (e : addr) (i : ir_insn_t).
Hypothesis Hrem : removed m m' e i.

Lemma removed_var_inv (v : addr) (d' : ir_var_t) :
  heap_var m' !! v = Some d' ->
  exists d, heap_var m !! v = Some d /\ d' = var_without e (body i) v d.
Proof.
  rewrite (rem_var _ _ _ _ Hrem). destruct (heap_var m !! v) as [d|]; [|discriminate].
  intros [= <-]. eauto.
Qed.

Lemma removed_code_inv (c : addr) (b' : ir_code_t) :
  heap_code m' !! c = Some b' ->
  exists b, heap_code m !! c = Some b /\
            b' = if bool_decide (parent i = c)
                 then upd_insns (dlist_remove e) b else b.
Proof.
  rewrite (rem_code _ _ _ _ Hrem), lookup_alter.
  case_decide; case_bool_decide; try congruence.
  - subst c. destruct (heap_code m !! parent i) as [b|]; [|discriminate].
    intros [= <-]. eauto.
  - intros H'. eauto.
Qed.

Lemma removed_references (j v : addr) :
  references m' j v <-> j <> e /\ references m j v.
Proof.
  unfold references, body_at. rewrite (rem_insn _ _ _ _ Hrem), lookup_delete.
  case_decide as Hj.
  - subst j. simpl. split; [intros (b & [=] & _) | intros [Hne _]; congruence].
  - split; [intros H; split; [congruence | exact H] | now intros [_ H]].
Qed.

Lemma removed_assigns (j v : addr) :
  assigns m' j v <-> j <> e /\ assigns m j v.
Proof.
  unfold assigns. rewrite (rem_insn _ _ _ _ Hrem), lookup_delete.
  case_decide as Hj.
  - subst j. split; [intros (y & sub & [=] & _) | intros [Hne _]; congruence].
  - split; [intros H; split; [congruence | exact H] | now intros [_ H]].
Qed.

Lemma removed_uses :
  (forall args fptr, body i <> flow (f_call_ptr args fptr)) ->
  use_sets_consistent m -> use_sets_consistent m'.
Proof.
  intros Hnot Hinv v d' Hd' j.
  apply removed_var_inv in Hd' as (d & Hd & ->).
  rewrite removed_references. specialize (Hinv v d Hd).
  assert (He : e ∈ used_at d <-> mentions (body i) v = true).
  { rewrite Hinv, mentions_spec. unfold references, body_at.
    rewrite (rem_live _ _ _ _ Hrem). simpl. split.
    - now intros (b & [= <-] & H).
    - intros H. eauto. }
  assert (Hop : unused_operands (body i) = operands (body i)).
  { destruct (body i) as [dest sub|[t|c t|a l|a f|r]]; try reflexivity.
    now destruct (Hnot a f). }
  unfold var_without. simpl. rewrite Hop. fold (mentions (body i) v).
  destruct (mentions (body i) v) eqn:Hm.
  - unfold set_remove. rewrite elem_of_difference, elem_of_singleton, Hinv. tauto.
  - rewrite Hinv. split; [|tauto]. intros Hr. split; [|exact Hr].
    intros ->. apply Hinv, He in Hr. discriminate.
Qed.

Lemma removed_assignments :
  assignments_consistent m -> assignments_consistent m'.
Proof.
  intros Hinv v d' Hd' j.
  apply removed_var_inv in Hd' as (d & Hd & ->).
  rewrite removed_assigns. specialize (Hinv v d Hd).
  unfold var_without. simpl. destruct (defines (body i) v) eqn:Hm.
  - unfold dlist_remove. rewrite list_elem_of_filter, Hinv. tauto.
  - rewrite Hinv. split; [|tauto]. intros Hr. split; [|exact Hr].
    intros ->. destruct Hr as (y & sub & Hy & Hb).
    rewrite (rem_live _ _ _ _ Hrem) in Hy. injection Hy as <-.
    rewrite Hb in Hm. simpl in Hm. now rewrite bool_decide_eq_true_2 in Hm.
Qed.

Lemma removed_flow : flow_symmetric m -> flow_symmetric m'.
Proof.
  intros Hinv a b ca' cb' Ha Hb.
  apply removed_code_inv in Ha as (ca & Ha & ->).
  apply removed_code_inv in Hb as (cb & Hb & ->).
  specialize (Hinv a b ca cb Ha Hb). repeat case_bool_decide; exact Hinv.
Qed.

Lemma removed_blocks : blocks_consistent m -> blocks_consistent m'.
Proof.
  intros Hinv c b' Hb' j.
  apply removed_code_inv in Hb' as (b & Hb & ->).
  specialize (Hinv c b Hb). rewrite (rem_insn _ _ _ _ Hrem).
  assert (Hiff : (exists y, delete e (heap_insn m) !! j = Some y /\ parent y = c)
                 <-> j <> e /\ exists y, heap_insn m !! j = Some y /\ parent y = c).
  { rewrite lookup_delete. case_decide as Hj.
    - subst j. split; [intros (y & [=] & _) | intros [Hne _]; congruence].
    - split; [intros H; split; [congruence | exact H] | now intros [_ H]]. }
  rewrite Hiff. case_bool_decide as Hc.
  - simpl. unfold dlist_remove. rewrite list_elem_of_filter, Hinv. tauto.
  - rewrite Hinv. split; [|tauto]. intros Hy. split; [|exact Hy].
    intros ->. destruct Hy as (y & Hy & Hp).
    rewrite (rem_live _ _ _ _ Hrem) in Hy. congruence.
Qed.

Lemma removed_args : args_in_vars m -> args_in_vars m'.
Proof. unfold args_in_vars. now rewrite (rem_func _ _ _ _ Hrem). Qed.

Lemma removed_lists : lists_live m -> lists_live m'.
Proof.
  intros [Hv Hc]. unfold lists_live. rewrite (rem_func _ _ _ _ Hrem). split.
  - intros v Hin. rewrite (rem_var _ _ _ _ Hrem). apply fmap_is_Some, Hv, Hin.
  - intros c Hin. rewrite (rem_code _ _ _ _ Hrem), lookup_alter_is_Some.
    apply Hc, Hin.
Qed.

Lemma removed_alloc : allocated_below_brk m -> allocated_below_brk m'.
Proof.
  intros Hal a Ha. rewrite (rem_brk _ _ _ _ Hrem) in Ha.
  destruct (Hal a Ha) as (Hv & Hc & Hi).
  rewrite (rem_var _ _ _ _ Hrem), (rem_code _ _ _ _ Hrem), (rem_insn _ _ _ _ Hrem).
  rewrite Hv. split; [done|]. split.
  - apply eq_None_not_Some. rewrite lookup_alter_is_Some, Hc. now intros [? ?].
  - rewrite lookup_delete. case_decide; done.
Qed.

Lemma removed_refs : refers_below_brk m -> refers_below_brk m'.
Proof.
  intros [Hi Hc]. unfold refers_below_brk. rewrite (rem_brk _ _ _ _ Hrem). split.
  - intros j y Hy. rewrite (rem_insn _ _ _ _ Hrem), lookup_delete in Hy.
    case_decide; [discriminate|]. now apply (Hi j).
  - intros c b' Hb' a Ha. apply removed_code_inv in Hb' as (b & Hb & ->).
    apply (Hc c b Hb). now case_bool_decide.
Qed.

Lemma removed_typed : well_typed m -> well_typed m'.
Proof.
  intros Hinv j y Hy. rewrite (rem_insn _ _ _ _ Hrem), lookup_delete in Hy.
  case_decide; [discriminate|]. apply (insn_typed_mono m); [|now apply (Hinv j)].
  intros [k|v] p; simpl; [done|]. rewrite (rem_var _ _ _ _ Hrem).
  now destruct (heap_var m !! v).
Qed.

Lemma removed_order :
  blocks_consistent m -> terminators_last m -> terminators_last m'.
Proof.
  intros Hblk Hord c b' Hb' l1 e1 l2 e2 l3 Hsplit (y1 & Hy1 & Hj1).
  apply removed_code_inv in Hb' as (b & Hb & ->).
  rewrite (rem_insn _ _ _ _ Hrem), lookup_delete in Hy1.
  case_decide as He1; [discriminate|].
  assert (Hkeep : forall k1 k2 k3,
             insns b = k1 ++ e1 :: k2 ++ e2 :: k3 -> e2 <> e ->
             terminates m' e2).
  { intros k1 k2 k3 Hk Hne.
    destruct (Hord c b Hb _ _ _ _ _ Hk) as (y2 & Hy2 & Hj2); [now exists y1|].
    exists y2. rewrite (rem_insn _ _ _ _ Hrem), lookup_delete.
    destruct (decide (e = e2)); [congruence | done]. }
  case_bool_decide as Hc.
  - simpl in Hsplit. unfold dlist_remove in Hsplit.
    assert (Hne : e2 <> e).
    { assert (Hin : e2 ∈ filter (fun y => y <> e) (insns b))
        by (rewrite Hsplit; set_solver).
      now apply list_elem_of_filter in Hin as [Hin _]. }
    apply filter_split in Hsplit as (k1 & k & Hk & Hsplit).
    apply filter_split in Hsplit as (k2 & k3 & -> & _).
    now apply (Hkeep _ _ _ Hk).
  - apply (Hkeep _ _ _ Hsplit). intros ->.
    assert (Hin : e ∈ insns b) by (rewrite Hsplit; set_solver).
    apply (Hblk c b Hb) in Hin as (y & Hy & Hp).
    rewrite (rem_live _ _ _ _ Hrem) in Hy. congruence.
Qed.

Lemma removed_ssa : ssa_disciplined m -> ssa_disciplined m'.
Proof.
  intros Hinv He v d' Hd'. rewrite (rem_func _ _ _ _ Hrem) in He.
  apply removed_var_inv in Hd' as (d & Hd & ->). simpl.
  specialize (Hinv He v d Hd). destruct (defines (body i) v); [|exact Hinv].
  unfold dlist_remove. etransitivity; [apply length_filter | exact Hinv].
Qed.

Lemma removed_live : references_live m -> references_live m'.
Proof.
  intros [Hi Hc]. split.
  - intros j y Hy. rewrite (rem_insn _ _ _ _ Hrem), lookup_delete in Hy.
    case_decide; [discriminate|]. destruct (Hi j y Hy) as [Hp Hv]. split.
    + now rewrite (rem_code _ _ _ _ Hrem), lookup_alter_is_Some.
    + intros v Hm. rewrite (rem_var _ _ _ _ Hrem), fmap_is_Some. now apply Hv.
  - intros c b' Hb' a Ha. apply removed_code_inv in Hb' as (b & Hb & ->).
    rewrite (rem_code _ _ _ _ Hrem), lookup_alter_is_Some.
    apply (Hc c b Hb). now case_bool_decide.
Qed.

Lemma removed_well_formed :
  (forall args fptr, body i <> flow (f_call_ptr args fptr)) ->
  well_formed m -> well_formed m'.
Proof.
  intros Hnot [? ? ? ? ? ? ? ? ? ? ? ?]. split.
  - now apply removed_uses.
  - now apply removed_assignments.
  - now apply removed_flow.
  - now apply removed_blocks.
  - now apply removed_args.
  - now apply removed_lists.
  - now apply removed_alloc.
  - now apply removed_refs.
  - now apply removed_typed.
  - now apply removed_order.
  - now apply removed_ssa.
  - now apply removed_live.
Qed.

End Removed.

(** ** The branch pass on a block with one shared successor *)

(** Clearing the visited marks of the listed blocks. *)
Lemma reset_visited (l : list addr) :
  forall m,
    (forall b, b ∈ l -> is_Some (heap_code m !! b)) ->
    exists m',
      foreach l (fun code => set_visited code false) m = Done tt m' /\
      func m' = func m /\
      forall b x, heap_code m !! b = Some x ->
        exists x', heap_code m' !! b = Some x' /\
                   succ x' = succ x /\ pred x' = pred x /\
                   (visited x' = visited x \/ visited x' = false) /\
                   (b ∈ l -> visited x' = false).
Proof.
  induction l as [|a l IH]; intros m Hlive.
  - exists m. split; [reflexivity|]. split; [reflexivity|].
    intros b x Hx. exists x. repeat split; try assumption; [now left|].
    intros Hin. inversion Hin.
  - destruct (Hlive a) as [xa Ha]; [set_solver|].
    simpl. unfold bind_M at 1, set_visited, bind_M at 1, get_code, put_code.
    rewrite Ha.
    match goal with
    | |- context [foreach l _ ?m1] =>
        destruct (IH m1) as (m' & Hrun & Hfn & Hrest)
    end.
    { intros b Hb. simpl. rewrite lookup_insert. case_decide; [eauto|].
      apply Hlive. set_solver. }
    exists m'. split; [exact Hrun|]. split; [exact Hfn|].
    intros b x Hx. destruct (decide (a = b)) as [->|Hne].
    + destruct (Hrest b {| code_name := code_name xa; insns := insns xa;
                           pred := pred xa; succ := succ xa; visited := false;
                           dfs_index := dfs_index xa |})
        as (x' & Hx' & Hs & Hp & Hv & _).
      { simpl. apply lookup_insert_eq. }
      assert (xa = x) as -> by congruence.
      exists x'. repeat split; try assumption.
      * right. now destruct Hv.
      * intros _. now destruct Hv.
    + destruct (Hrest b x) as (x' & Hx' & Hs & Hp & Hv & Hin).
      { simpl. now rewrite lookup_insert_ne. }
      exists x'. repeat split; try assumption.
      intros Hb. apply Hin. set_solver.
Qed.

(** [opt_branches] does not return on a function whose first listed block
    has exactly one successor and that successor has another number of
    predecessors than one: whatever the step budget, the [while] loop of
    [branch_opt_dfs] is still going round when it is used up. *)
Theorem opt_branches_spins (fuel : nat) (m : memory) (c sc : ir_code_t) :
  code_list (func m) <> [] ->
  (forall b, b ∈ code_list (func m) -> is_Some (heap_code m !! b)) ->
  heap_code m !! dlist_head (code_list (func m)) = Some c ->
  size (succ c) = 1%nat ->
  heap_code m !! set_first (succ c) = Some sc ->
  size (pred sc) <> 1%nat ->
  opt_branches fuel m = Timeout.
Proof.
  intros Hne Hlive Hc Hsucc Hsc Hpred.
  destruct (reset_visited _ m Hlive) as (m' & Hrun & Hfn & Hrest).
  unfold opt_branches. unfold bind_M at 1, get_func at 1.
  unfold bind_M at 1. rewrite Hrun.
  unfold bind_M at 1, get_func. rewrite Hfn.
  destruct (Hrest _ c Hc) as (c' & Hc' & Hs & Hp & _ & Hvis).
  destruct (Hrest _ sc Hsc) as (sc' & Hsc' & Hs' & Hp' & _ & _).
  apply (branch_opt_dfs_spins fuel _ m' c' sc').
  - exact Hc'.
  - apply Hvis. unfold dlist_head.
    destruct (code_list (func m)); [congruence | set_solver].
  - now rewrite Hs.
  - now rewrite Hs.
  - now rewrite Hp'.
Qed.

Lemma opt_branches_spins_witness :
  let m := memory_after (loop_function no_memory) in
  opt_branches 1000 m = Timeout.
Proof.
  intros m.
  assert (Hc : exists c, heap_code m !! dlist_head (code_list (func m)) = Some c)
    by (eexists; vm_compute; reflexivity).
  destruct Hc as [c Hc].
  assert (Hs : size (succ c) = 1%nat /\
               exists sc, heap_code m !! set_first (succ c) = Some sc /\
                          size (pred sc) <> 1%nat).
  { vm_compute in Hc. injection Hc as <-. split; [vm_compute; reflexivity|].
    eexists. split; [vm_compute; reflexivity|]. vm_compute. discriminate. }
  destruct Hs as (Hsucc & sc & Hsc & Hpred).
  apply (opt_branches_spins 1000 m c sc); try assumption.
  - vm_compute. discriminate.
  - intros b Hb. vm_compute in Hb.
    repeat (apply elem_of_cons in Hb as [->|Hb]; [vm_compute; eauto|]).
    inversion Hb.
Defined.

(** ** The unused-variable pass stops at a fixed point *)

Lemma unused_vars_sweep_true (l : list addr) :
  forall m r m', unused_vars_sweep l true m = Done r m' -> r = true.
Proof.
  induction l as [|v l IH]; intros m r m' H; simpl in H.
  - now apply ret_inv in H as [<- _].
  - apply bind_inv in H as (x & m1 & Hx & H). apply get_var_inv in Hx as [Hx ->].
    destruct (bool_decide _).
    + apply bind_inv in H as ([] & m1 & _ & H). now apply IH in H.
    + now apply IH in H.
Qed.

Lemma unused_vars_sweep_false (l : list addr) :
  forall m m',
    unused_vars_sweep l false m = Done false m' ->
    m' = m /\
    forall v, v ∈ l -> exists x, heap_var m !! v = Some x /\ used_at x <> ∅.
Proof.
  induction l as [|v l IH]; intros m m' H; simpl in H.
  - apply ret_inv in H as [_ <-]. split; [reflexivity|].
    intros v Hin. inversion Hin.
  - apply bind_inv in H as (x & m1 & Hx & H). apply get_var_inv in Hx as [Hx ->].
    case_bool_decide as Hsize.
    + apply bind_inv in H as ([] & m1 & _ & H).
      now apply unused_vars_sweep_true in H.
    + apply IH in H as [-> Hall]. split; [reflexivity|].
      intros w Hin. apply elem_of_cons in Hin as [->|Hin]; [|now apply Hall].
      exists x. split; [exact Hx|]. intros Hempty. apply Hsize.
      rewrite Hempty. apply size_empty.
Qed.

Lemma unused_vars_sweep_deleted (l : list addr) :
  forall m m',
    unused_vars_sweep l false m = Done true m' ->
    exists v x, v ∈ l /\ heap_var m !! v = Some x /\ used_at x = ∅.
Proof.
  induction l as [|v l IH]; intros m m' H; simpl in H.
  - now apply ret_inv in H as [? _].
  - apply bind_inv in H as (x & m1 & Hx & H). apply get_var_inv in Hx as [Hx ->].
    case_bool_decide as Hsize.
    + exists v, x. split; [set_solver|]. split; [exact Hx|].
      now apply size_empty_iff, leibniz_equiv in Hsize.
    + apply IH in H as (w & y & Hin & Hy & Hempty). exists w, y.
      split; [set_solver|]. now split.
Qed.

Lemma opt_unused_vars_loop_fixpoint (fuel : nat) :
  forall deleted m r m',
    opt_unused_vars_loop fuel deleted m = Done r m' ->
    (forall v, v ∈ vars_list (func m') ->
       exists x, heap_var m' !! v = Some x /\ used_at x <> ∅) /\
    (r = false -> deleted = false /\ m' = m) /\
    (r = true -> deleted = true \/
       exists v x, v ∈ vars_list (func m) /\ heap_var m !! v = Some x /\
                   used_at x = ∅).
Proof.
  induction fuel as [|fuel IH]; intros deleted m r m' H; [discriminate H|].
  simpl in H. unfold bind_M at 1, get_func at 1 in H.
  apply bind_inv in H as (loop & m1 & Hsweep & H). destruct loop.
  - apply IH in H as (Hall & Hfalse & _). split; [exact Hall|]. split.
    + intros Hr. now destruct (Hfalse Hr).
    + intros _. right. now apply unused_vars_sweep_deleted in Hsweep.
  - apply ret_inv in H as [<- <-].
    apply unused_vars_sweep_false in Hsweep as [-> Hall].
    split; [exact Hall|]. split; [now intros ->|]. intros ->. now left.
Qed.

(** Whenever [opt_unused_vars] returns, no variable the function still
    lists has an empty use-set; the result is true exactly when the
    function listed a variable with an empty use-set on entry; and with
    the result false nothing has been changed. *)
Theorem opt_unused_vars_fixpoint (fuel : nat) (m m' : memory) (r : bool) :
  opt_unused_vars fuel m = Done r m' ->
  (r = true <->
   exists v x, v ∈ vars_list (func m) /\ heap_var m !! v = Some x /\
               used_at x = ∅) /\
  (r = false -> m' = m) /\
  (forall v, v ∈ vars_list (func m') ->
     exists x, heap_var m' !! v = Some x /\ used_at x <> ∅).
Proof.
  unfold opt_unused_vars. intros H.
  apply opt_unused_vars_loop_fixpoint in H as (Hall & Hfalse & Htrue).
  split; [|split; [|exact Hall]].
  - split.
    + intros Hr. now destruct (Htrue Hr).
    + intros (v & x & Hin & Hx & Hempty). destruct r; [reflexivity|].
      destruct (Hfalse eq_refl) as [_ ->].
      destruct (Hall v Hin) as (y & Hy & Hne). congruence.
  - intros Hr. now destruct (Hfalse Hr).
Qed.

Lemma opt_unused_vars_fixpoint_witness :
  let m := memory_after (unused_arg_function no_memory) in
  let m' := memory_after (opt_unused_vars 3 m) in
  opt_unused_vars 3 m = Done true m' /\
  (exists v x, v ∈ vars_list (func m) /\ heap_var m !! v = Some x /\
               used_at x = ∅) /\
  (forall v, v ∈ vars_list (func m') ->
     exists x, heap_var m' !! v = Some x /\ used_at x <> ∅).
Proof.
  intros m m'.
  assert (Hrun : opt_unused_vars 3 m = Done true m') by (vm_compute; reflexivity).
  split; [exact Hrun|].
  destruct (opt_unused_vars_fixpoint 3 m m' true Hrun) as (Htrue & _ & Hall).
  split; [now apply Htrue | exact Hall].
Defined.

(** ** The constant-propagation pass stops at a fixed point *)

Section ConstProp.

Variable ir_cast : ir_prim_t -> ir_const_t -> ir_const_t.
Variable ir_calc1 : ir_op1_type_t -> ir_const_t -> ir_const_t.
Variable ir_calc2 : ir_op2_type_t -> ir_const_t -> ir_const_t -> ir_const_t.

Lemma const_prop_expr_inv (e : addr) (m m' : memory) (p : bool) :
  const_prop_expr ir_cast ir_calc1 ir_calc2 e m = Done p m' ->
  exists i, heap_insn m !! e = Some i /\ p = is_const_expr (body i) /\
            (p = false -> m' = m).
Proof.
  unfold const_prop_expr. intros H.
  apply bind_inv in H as (i & m1 & Hi & H). apply get_insn_inv in Hi as [Hi ->].
  exists i. split; [exact Hi|].
  destruct (body i) as [dest [from|oper [k|w]|oper [a|w] [b|w']|]|f]; simpl;
    try (apply ret_inv in H as [<- <-]; split; [reflexivity | done]).
  - apply bind_inv in H as (d & m1 & _ & H).
    apply bind_inv in H as ([] & m2 & _ & H).
    apply bind_inv in H as ([] & m3 & _ & H).
    apply ret_inv in H as [<- _]. split; [reflexivity | discriminate].
  - apply bind_inv in H as ([] & m2 & _ & H).
    apply bind_inv in H as ([] & m3 & _ & H).
    apply ret_inv in H as [<- _]. split; [reflexivity | discriminate].
Qed.

Lemma const_prop_sweep_spec (l : list addr) :
  forall loop prop m loop' prop' m',
    (loop = true -> prop = true) ->
    const_prop_sweep ir_cast ir_calc1 ir_calc2 l loop prop m
    = Done (loop', prop') m' ->
    (loop = true -> loop' = true) /\
    (prop' = prop || loop') /\
    (loop' = false -> m' = m /\ forall v, v ∈ l -> ~ foldable m v) /\
    (loop = false -> loop' = true -> exists v, v ∈ l /\ foldable m v).
Proof.
  induction l as [|v l IH]; intros loop prop m loop' prop' m' Hpre H; simpl in H.
  - apply ret_inv in H as [[= <- <-] <-]. split; [done|]. split.
    { destruct loop; [now rewrite Hpre | now rewrite orb_false_r]. }
    split; [|congruence]. intros _. split; [reflexivity|].
    intros v Hin. inversion Hin.
  - apply bind_inv in H as (x & m1 & Hx & H). apply get_var_inv in Hx as [Hx ->].
    case_bool_decide as Hlen.
    + apply (IH _ _ _ _ _ _ Hpre) in H as (H1 & H2 & H3 & H4).
      split; [exact H1|]. split; [exact H2|]. split.
      * intros Hl. destruct (H3 Hl) as [-> Hall]. split; [reflexivity|].
        intros w Hin. apply elem_of_cons in Hin as [->|Hin]; [|now apply Hall].
        intros (y & e & i & Hy & Has & _). apply Hlen.
        assert (y = x) as -> by congruence. now rewrite Has.
      * intros Hl Hl'. destruct (H4 Hl Hl') as (w & Hin & Hw).
        exists w. split; [set_solver | exact Hw].
    + destruct (assigned_at x) as [|e [|? ?]] eqn:Has; try discriminate Hlen.
      apply bind_inv in H as (p & m1 & Hp & H).
      apply const_prop_expr_inv in Hp as (i & Hi & -> & Hsame).
      apply IH in H as (H1 & H2 & H3 & H4);
        [|intros Hor; rewrite Hor; apply orb_true_r].
      assert (Hfold : is_const_expr (body i) = true -> foldable m v).
      { intros Hc. exists x, e, i. done. }
      split; [|split; [|split]].
      * intros ->. now apply H1.
      * rewrite H2. destruct loop; simpl.
        -- rewrite (H1 eq_refl). now rewrite !orb_true_r.
        -- destruct (is_const_expr (body i)); simpl.
           ++ rewrite (H1 eq_refl). now rewrite !orb_true_r.
           ++ now rewrite orb_false_r.
      * intros Hl. destruct loop; [now rewrite (H1 eq_refl) in Hl|].
        destruct (is_const_expr (body i)) eqn:Hc;
          [now rewrite (H1 eq_refl) in Hl|].
        rewrite (Hsame eq_refl) in H3. destruct (H3 Hl) as [-> Hall].
        split; [reflexivity|]. intros w Hin.
        apply elem_of_cons in Hin as [->|Hin]; [|now apply Hall].
        intros (y & e' & i' & Hy & Has' & Hi' & Hc').
        assert (y = x) as -> by congruence.
        rewrite Has in Has'. injection Has' as <-.
        change (dlist_head [e]) with e in Hi. congruence.
      * intros -> Hl. destruct (is_const_expr (body i)) eqn:Hc.
        -- exists v. split; [set_solver | now apply Hfold].
        -- rewrite (Hsame eq_refl) in H4.
           destruct (H4 eq_refl Hl) as (w & Hin & Hw).
           exists w. split; [set_solver | exact Hw].
Qed.

Lemma opt_const_prop_loop_fixpoint (fuel : nat) :
  forall prop m r m',
    opt_const_prop_loop ir_cast ir_calc1 ir_calc2 fuel prop m = Done r m' ->
    (forall v, v ∈ vars_list (func m') -> ~ foldable m' v) /\
    (r = false -> prop = false /\ m' = m) /\
    (r = true -> prop = true \/
       exists v, v ∈ vars_list (func m) /\ foldable m v).
Proof.
  induction fuel as [|fuel IH]; intros prop m r m' H; [discriminate H|].
  simpl in H. unfold bind_M at 1, get_func at 1 in H.
  apply bind_inv in H as ([loop prop1] & m1 & Hsweep & H).
  apply const_prop_sweep_spec in Hsweep as (_ & -> & H3 & H4); [|discriminate].
  destruct loop.
  - apply IH in H as (Hall & Hfalse & _). split; [exact Hall|]. split.
    + intros Hr. destruct (Hfalse Hr) as [Hp _]. now rewrite orb_true_r in Hp.
    + intros _. right. now apply H4.
  - apply ret_inv in H as [<- <-]. destruct (H3 eq_refl) as [-> Hall].
    rewrite orb_false_r. split; [exact Hall|]. split; [done|]. now left.
Qed.

(** Whenever [opt_const_prop] returns, no variable the function still lists
    has, as its only assignment, a unary expression of a constant or a
    binary expression of two constants; the result is true exactly when
    the function listed such a variable on entry; and with the result
    false nothing has been changed. *)
Theorem opt_const_prop_fixpoint (fuel : nat) (m m' : memory) (r : bool) :
  opt_const_prop ir_cast ir_calc1 ir_calc2 fuel m = Done r m' ->
  (r = true <-> exists v, v ∈ vars_list (func m) /\ foldable m v) /\
  (r = false -> m' = m) /\
  (forall v, v ∈ vars_list (func m') -> ~ foldable m' v).
Proof.
  unfold opt_const_prop. intros H.
  apply opt_const_prop_loop_fixpoint in H as (Hall & Hfalse & Htrue).
  split; [|split; [|exact Hall]].
  - split.
    + intros Hr. now destruct (Htrue Hr).
    + intros (v & Hin & Hv). destruct r; [reflexivity|].
      destruct (Hfalse eq_refl) as [_ ->]. now destruct (Hall v Hin).
  - intros Hr. now destruct (Hfalse Hr).
Qed.

End ConstProp.

Lemma opt_const_prop_fixpoint_witness :
  let cast := fun (_ : ir_prim_t) (k : ir_const_t) => k in
  let calc1 := fun (_ : ir_op1_type_t) (k : ir_const_t) => k in
  let calc2 := fun (_ : ir_op2_type_t) (a _ : ir_const_t) => a in
  let m := memory_after
             (build "f" (Some "entry"%string) 0 None
                [call_var_create IR_PRIM_S32 (Some "v"%string);
                 call_add_expr1 1 2 IR_OP1_MOV (s32_const 1);
                 call_add_return1 1 (op_var 2)] no_memory) in
  let m' := memory_after (opt_const_prop cast calc1 calc2 3 m) in
  opt_const_prop cast calc1 calc2 3 m = Done true m' /\
  (exists v, v ∈ vars_list (func m) /\ foldable m v) /\
  (forall v, v ∈ vars_list (func m') -> ~ foldable m' v).
Proof.
  intros cast calc1 calc2 m m'.
  assert (Hrun : opt_const_prop cast calc1 calc2 3 m = Done true m')
    by (vm_compute; reflexivity).
  split; [exact Hrun|].
  destruct (opt_const_prop_fixpoint cast calc1 calc2 3 m m' true Hrun)
    as (Htrue & _ & Hall).
  split; [now apply Htrue | exact Hall].
Defined.

(** ** Replacing a variable *)

Lemma same_but_uses_refl (hv : gmap N ir_var_t) : same_but_uses hv hv.
Proof. now intros v. Qed.

Lemma same_but_uses_trans (h1 h2 h3 : gmap N ir_var_t) :
  same_but_uses h1 h2 -> same_but_uses h2 h3 -> same_but_uses h1 h3.
Proof. intros H12 H23 v. now rewrite H23, H12. Qed.

Lemma same_but_uses_alter (hv : gmap N ir_var_t) (v : addr)
    (f : gset addr -> gset addr) :
  same_but_uses hv (alter (upd_used_at f) v hv).
Proof.
  intros w. rewrite lookup_alter. case_decide; [subst|reflexivity].
  now destruct (hv !! w).
Qed.

Lemma uses_only_ret : uses_only (ret tt).
Proof.
  intros m m' H. apply ret_inv in H as [_ <-].
  do 4 (split; [reflexivity|]). apply same_but_uses_refl.
Qed.

Lemma uses_only_use_operand (o : ir_operand_t) (i : addr) :
  uses_only (use_operand o i).
Proof.
  intros m m' H. apply use_operand_inv in H as [-> _].
  do 4 (split; [reflexivity|]). cbn [heap_var with_var].
  destruct o; [apply same_but_uses_refl | apply same_but_uses_alter].
Qed.

Lemma uses_only_when (b : bool) (c : M unit) :
  uses_only c -> uses_only (when b c).
Proof. destruct b; [easy | intros _; apply uses_only_ret]. Qed.

Lemma uses_only_bind (c1 c2 : M unit) :
  uses_only c1 -> uses_only c2 -> uses_only (c1 ;;; c2).
Proof.
  intros H1 H2 m m' H. apply bind_inv in H as ([] & m1 & Hc1 & Hc2).
  apply H1 in Hc1 as (? & ? & ? & ? & ?). apply H2 in Hc2 as (? & ? & ? & ? & ?).
  do 4 (split; [congruence|]). eapply same_but_uses_trans; eassumption.
Qed.

Lemma uses_only_foreach {A} (l : list A) (f : A -> M unit) :
  (forall a, uses_only (f a)) -> uses_only (foreach l f).
Proof.
  intros Hf. induction l as [|a l IH]; [apply uses_only_ret|].
  simpl. apply uses_only_bind; [apply Hf | exact IH].
Qed.

Lemma set_body_inv (i : addr) (b : ir_insn_body) (m m' : memory) :
  set_body i b m = Done tt m' ->
  exists x, heap_insn m !! i = Some x /\
            m' = with_insn m (<[i := {| parent := parent x; body := b |}]>
                                (heap_insn m)).
Proof.
  unfold set_body. intros H.
  apply bind_inv in H as (x & m1 & Hx & H). apply get_insn_inv in Hx as [Hx ->].
  apply put_insn_inv in H as ->. eauto.
Qed.

Ltac uses_only_goal :=
  repeat first
    [ apply uses_only_ret | apply uses_only_use_operand
    | apply uses_only_when | apply uses_only_bind
    | apply uses_only_foreach; intros ? ].

(** One round of the loop of [ir_var_replace]. *)
Lemma ir_var_replace_insn_inv (var : addr) (value : ir_operand_t)
    (insn : addr) (m m' : memory) :
  ir_var_replace_insn var value insn m = Done tt m' ->
  exists i,
    heap_insn m !! insn = Some i /\
    func m' = func m /\ brk m' = brk m /\ heap_code m' = heap_code m /\
    heap_insn m' = <[insn := upd_body (replaced var value) i]> (heap_insn m) /\
    same_but_uses (heap_var m) (heap_var m').
Proof.
  unfold ir_var_replace_insn. intros H.
  apply bind_inv in H as (i & m1 & Hi & H). apply get_insn_inv in Hi as [Hi ->].
  exists i. split; [exact Hi|].
  assert (Hnone : ret tt m = Done tt m' -> replaced var value (body i) = body i ->
                  func m' = func m /\ brk m' = brk m /\
                  heap_code m' = heap_code m /\
                  heap_insn m'
                  = <[insn := upd_body (replaced var value) i]> (heap_insn m) /\
                  same_but_uses (heap_var m) (heap_var m')).
  { intros Hr Hsame. apply ret_inv in Hr as [_ <-].
    do 3 (split; [reflexivity|]). split; [|apply same_but_uses_refl].
    unfold upd_body. rewrite Hsame. symmetry. apply insert_id.
    now destruct i. }
  assert (Hset : forall b' rest,
             uses_only rest ->
             (set_body insn b' ;;; rest) m = Done tt m' ->
             replaced var value (body i) = b' ->
             func m' = func m /\ brk m' = brk m /\
             heap_code m' = heap_code m /\
             heap_insn m'
             = <[insn := upd_body (replaced var value) i]> (heap_insn m) /\
             same_but_uses (heap_var m) (heap_var m')).
  { intros b' rest Hrest Hrun Hb'.
    apply bind_inv in Hrun as ([] & m1 & Hsb & Hrun).
    apply set_body_inv in Hsb as (x & Hx & ->).
    assert (x = i) as -> by congruence.
    apply Hrest in Hrun as (Hf & Hbrk & Hc & Hins & Hv).
    cbn [func heap_var heap_code heap_insn brk with_insn] in *.
    do 3 (split; [assumption|]). split; [|assumption].
    rewrite Hins. unfold upd_body. now rewrite Hb'. }
  destruct (body i) as [dest [from|oper v|oper l r|]|[t|c t|a l|a f|[[k|w]|]]];
    simpl in *;
    try (apply Hnone; [exact H | reflexivity]);
    try (eapply Hset; [|exact H|reflexivity]; uses_only_goal).
  destruct (is_var c var).
  - eapply Hset; [|exact H|reflexivity]. uses_only_goal.
  - apply Hnone; [exact H | reflexivity].
Qed.

Lemma ir_var_replace_loop (var : addr) (value : ir_operand_t) (l : list addr) :
  NoDup l ->
  forall m m',
    foreach l (ir_var_replace_insn var value) m = Done tt m' ->
    func m' = func m /\ brk m' = brk m /\ heap_code m' = heap_code m /\
    same_but_uses (heap_var m) (heap_var m') /\
    (forall j, j ∈ l -> is_Some (heap_insn m !! j)) /\
    forall j, heap_insn m' !! j
              = (if bool_decide (j ∈ l) then upd_body (replaced var value)
                 else id) <$> heap_insn m !! j.
Proof.
  induction 1 as [|a l Hnot Hnodup IH]; intros m m' H; simpl in H.
  - apply ret_inv in H as [_ <-]. do 3 (split; [reflexivity|]).
    split; [apply same_but_uses_refl|]. split; [intros j Hj; inversion Hj|].
    intros j. rewrite bool_decide_eq_false_2 by (intros Hj; inversion Hj).
    now destruct (heap_insn m !! j).
  - apply bind_inv in H as ([] & m1 & Hstep & H).
    apply ir_var_replace_insn_inv in Hstep as (i & Hi & Hf1 & Hb1 & Hc1 & Hi1 & Hv1).
    apply IH in H as (Hf & Hb & Hc & Hv & Hlive & Hins).
    do 3 (split; [congruence|]).
    split; [eapply same_but_uses_trans; eassumption|]. split.
    + intros j Hj. apply elem_of_cons in Hj as [->|Hj]; [eauto|].
      specialize (Hlive j Hj). rewrite Hi1, lookup_insert in Hlive.
      case_decide; [subst; eauto | exact Hlive].
    + intros j. rewrite Hins, Hi1, lookup_insert.
      destruct (decide (a = j)) as [->|Hne].
      * rewrite bool_decide_eq_false_2 by exact Hnot.
        rewrite bool_decide_eq_true_2 by set_solver. now rewrite Hi.
      * destruct (decide (j ∈ l)) as [Hin|Hnin].
        -- rewrite !bool_decide_eq_true_2 by set_solver. reflexivity.
        -- rewrite !bool_decide_eq_false_2 by set_solver. reflexivity.
Qed.

(** Neither operand position of what [ir_var_replace] leaves behind names
    the variable replaced. *)
Lemma replaced_operands (var : addr) (value : ir_operand_t) (b : ir_insn_body) :
  is_var value var = false ->
  Forall (fun o => is_var o var = false) (operands (replaced var value b)).
Proof.
  intros Hval.
  assert (Hargs : forall ps : list ir_operand_t,
             Forall (fun o => is_var o var = false)
                    (map (fun a => if is_const a then a else value) ps)).
  { induction ps as [|[k|w] ps IH]; simpl; constructor; done. }
  destruct b as [dest [from|oper v|oper l r|]|[t|c t|a l|a f|[[k|w]|]]]; simpl;
    repeat constructor; try assumption; try apply Hargs.
  - induction from as [|c from IH]; simpl; [constructor|].
    constructor; [|exact IH]. now destruct (is_var (bind c) var) eqn:Hc.
  - now destruct (is_var l var) eqn:Hl.
  - now destruct (is_var r var) eqn:Hr.
  - destruct (is_var c var) eqn:Hc; simpl; repeat constructor; assumption.
  - now destruct (is_var f var) eqn:Hf.
Qed.

Lemma replaced_dest (var : addr) (value : ir_operand_t) (b : ir_insn_body)
    (v : addr) :
  (exists sub, replaced var value b = expr v sub) <-> (exists sub, b = expr v sub).
Proof.
  destruct b as [dest [from|oper w|oper l r|]|[t|c t|a l|a f|[[k|w]|]]]; simpl;
    try (split; intros [sub [= <-]]; eauto; fail);
    try (split; intros [sub [=]]; fail).
  destruct (is_var c var); split; intros [sub [=]].
Qed.

(** Whenever [ir_var_replace] returns, for a variable whose use-set holds
    every instruction that names it: no live instruction names the
    variable any more and its use-set is empty; the variable itself is
    still live, no variable has been created or freed, and names, types
    and assignment lists are as they were; every instruction assigns what
    it assigned; instructions outside the former use-set, the blocks and
    the function record are unchanged. *)
Theorem ir_var_replace_clears (var : addr) (value : ir_operand_t)
    (m m' : memory) :
  (forall i, references m i var -> i ∈ uses m var) ->
  ir_var_replace var value m = Done tt m' ->
  (forall i, ~ references m' i var) /\
  uses m' var = ∅ /\
  is_Some (heap_var m' !! var) /\
  same_but_uses (heap_var m) (heap_var m') /\
  (forall e v, assigns m' e v <-> assigns m e v) /\
  (forall j, j ∉ uses m var -> heap_insn m' !! j = heap_insn m !! j) /\
  heap_code m' = heap_code m /\ func m' = func m.
Proof.
  intros Hcomplete H. unfold ir_var_replace in H.
  destruct (is_var value var) eqn:Hval; [discriminate H|].
  apply bind_inv in H as (x & m0 & Hx & H). apply get_var_inv in Hx as [Hx ->].
  apply bind_inv in H as ([] & m1 & Hloop & H).
  apply ir_var_replace_loop in Hloop as (Hf & Hb & Hc & Hv & Hlive & Hins);
    [|apply NoDup_elements].
  apply set_used_at_inv in H as [Hvar ->].
  cbn [func heap_var heap_code heap_insn brk with_var].
  unfold uses in *. rewrite Hx in Hcomplete. cbn [heap_var with_var].
  rewrite Hx, lookup_alter. rewrite decide_True by reflexivity.
  destruct (heap_var m1 !! var) as [x1|] eqn:Hx1; [|now destruct Hvar].
  assert (Hat : forall j, heap_insn m1 !! j
                          = (if bool_decide (j ∈ used_at x)
                             then upd_body (replaced var value) else id)
                            <$> heap_insn m !! j).
  { intros j. rewrite Hins. destruct (decide (j ∈ used_at x)).
    - rewrite !bool_decide_eq_true_2; [reflexivity | assumption | set_solver].
    - rewrite !bool_decide_eq_false_2; [reflexivity | assumption | set_solver]. }
  split; [|split; [reflexivity|]; split; [simpl; eauto|]; split; [|split; [|split]]].
  - intros j (b & Hb' & Hex). unfold body_at in Hb'. rewrite Hat in Hb'.
    destruct (heap_insn m !! j) as [y|] eqn:Hy; [|discriminate].
    case_bool_decide as Hin; simpl in Hb'; injection Hb' as <-.
    + apply Exists_exists in Hex as (o & Ho & Hov).
      pose proof (replaced_operands var value (body y) Hval) as Hall.
      rewrite Forall_forall in Hall.
      specialize (Hall o Ho). congruence.
    + apply Hin, Hcomplete. exists (body y). unfold body_at. now rewrite Hy.
  - eapply same_but_uses_trans; [exact Hv|]. apply same_but_uses_alter.
  - intros e v. unfold assigns. rewrite Hat.
    destruct (heap_insn m !! e) as [y|]; simpl;
      [|split; intros (? & ? & [=] & _)].
    case_bool_decide; simpl; [|reflexivity]. split.
    + intros (y' & sub & [= <-] & Hsub). simpl in Hsub.
      destruct (proj1 (replaced_dest var value (body y) v)) as [sub' Hsub'];
        [eauto|]. eauto.
    + intros (y' & sub & [= <-] & Hsub).
      destruct (proj2 (replaced_dest var value (body y) v)) as [sub' Hsub'];
        [eauto|]. eexists _, sub'. split; [reflexivity | exact Hsub'].
  - intros j Hj. rewrite Hat. rewrite bool_decide_eq_false_2 by exact Hj.
    now destruct (heap_insn m !! j).
  - split; assumption.
Qed.

Lemma ir_var_replace_clears_witness :
  let m := memory_after (call_function no_memory) in
  let m' := memory_after (ir_var_replace 2 (s32_const 7) m) in
  (forall i, references m i 2 -> i ∈ uses m 2) /\
  ir_var_replace 2 (s32_const 7) m = Done tt m' /\
  (forall i, ~ references m' i 2) /\
  uses m' 2 = ∅.
Proof.
  intros m m'.
  assert (Hwf : well_formed m).
  { apply (built_well_formed "f" (Some "entry"%string) 2
             (Some [Some "a"; Some "b"]%string)
             [call_add_call_direct 3 "g" [op_var 1; op_var 2];
              call_add_return1 3 (op_var 2)]).
    vm_compute. reflexivity. }
  assert (Hcomplete : forall i, references m i 2 -> i ∈ uses m 2).
  { intros i Hi. unfold uses.
    destruct (heap_var m !! 2) as [x|] eqn:Hx; [|vm_compute in Hx; discriminate].
    now apply (wf_uses _ Hwf 2 x Hx). }
  assert (Hrun : ir_var_replace 2 (s32_const 7) m = Done tt m')
    by (vm_compute; reflexivity).
  split; [exact Hcomplete|]. split; [exact Hrun|].
  destruct (ir_var_replace_clears 2 (s32_const 7) m m' Hcomplete Hrun)
    as (Hnone & Hempty & _).
  split; assumption.
Defined.

(** ** Deleting a variable *)

Lemma ir_insn_delete_loop (l : list addr) :
  NoDup l ->
  forall m m',
    foreach l ir_insn_delete m = Done tt m' ->
    func m' = func m /\ brk m' = brk m /\
    (forall j, j ∈ l -> is_Some (heap_insn m !! j)) /\
    (forall j, heap_insn m' !! j
               = if bool_decide (j ∈ l) then None else heap_insn m !! j) /\
    (forall v, is_Some (heap_var m' !! v) <-> is_Some (heap_var m !! v)) /\
    (forall c, is_Some (heap_code m' !! c) <-> is_Some (heap_code m !! c)).
Proof.
  induction 1 as [|a l Hnot Hnodup IH]; intros m m' H; simpl in H.
  - apply ret_inv in H as [_ <-]. do 2 (split; [reflexivity|]).
    split; [intros j Hj; inversion Hj|]. split; [|done].
    intros j. now rewrite bool_decide_eq_false_2 by (intros Hj; inversion Hj).
  - apply bind_inv in H as ([] & m1 & Hstep & H).
    apply ir_insn_delete_effect in Hstep as (i & Hrem).
    apply IH in H as (Hf & Hb & Hlive & Hins & Hv & Hc).
    split; [rewrite Hf; apply (rem_func _ _ _ _ Hrem)|].
    split; [rewrite Hb; apply (rem_brk _ _ _ _ Hrem)|].
    split; [|split; [|split]].
    + intros j Hj. apply elem_of_cons in Hj as [->|Hj].
      * rewrite (rem_live _ _ _ _ Hrem). eauto.
      * specialize (Hlive j Hj).
        rewrite (rem_insn _ _ _ _ Hrem), lookup_delete in Hlive.
        case_decide; [now destruct Hlive | exact Hlive].
    + intros j. rewrite Hins, (rem_insn _ _ _ _ Hrem), lookup_delete.
      destruct (decide (a = j)) as [->|Hne].
      * rewrite (bool_decide_eq_true_2 (j ∈ j :: l)) by set_solver.
        now destruct (bool_decide (j ∈ l)).
      * destruct (decide (j ∈ l)) as [Hin|Hnin].
        -- rewrite !bool_decide_eq_true_2 by set_solver. reflexivity.
        -- rewrite !bool_decide_eq_false_2 by set_solver. reflexivity.
    + intros v. rewrite Hv, (rem_var _ _ _ _ Hrem). apply fmap_is_Some.
    + intros c. rewrite Hc, (rem_code _ _ _ _ Hrem). apply lookup_alter_is_Some.
Qed.

(** Whenever [ir_var_delete] returns, the variable was live and is freed and
    off the variable list; the instructions of its use-set and of its
    assignment list were live and are freed, every other instruction is
    still live, and no other variable and no block has been freed.  The
    parameter array and the block list of the function are as they were. *)
Theorem ir_var_delete_frees (var : addr) (m m' : memory) :
  ir_var_delete var m = Done tt m' ->
  exists x,
    heap_var m !! var = Some x /\
    heap_var m' !! var = None /\
    vars_list (func m') = dlist_remove var (vars_list (func m)) /\
    args (func m') = args (func m) /\
    code_list (func m') = code_list (func m) /\
    (forall j, j ∈ used_at x \/ j ∈ assigned_at x ->
               is_Some (heap_insn m !! j) /\ heap_insn m' !! j = None) /\
    (forall j, j ∉ used_at x -> j ∉ assigned_at x ->
               is_Some (heap_insn m' !! j) <-> is_Some (heap_insn m !! j)) /\
    (forall v, v <> var ->
               (is_Some (heap_var m' !! v) <-> is_Some (heap_var m !! v))) /\
    (forall c, is_Some (heap_code m' !! c) <-> is_Some (heap_code m !! c)).
Proof.
  unfold ir_var_delete. intros H.
  apply bind_inv in H as (x & m0 & Hx & H). apply get_var_inv in Hx as [Hx ->].
  exists x. split; [exact Hx|].
  apply bind_inv in H as ([] & m1 & Hloop & H).
  apply ir_insn_delete_loop in Hloop as (Hf & Hb & Hlive & Hins & Hv & Hc);
    [|apply NoDup_elements].
  apply bind_inv in H as ([] & m2 & Hlist & H).
  unfold set_vars_list, bind_M, get_func, set_func in Hlist.
  injection Hlist as <-. injection H as <-.
  cbn [func heap_var heap_code heap_insn brk vars_list args code_list].
  assert (Hset : forall j,
             j ∈ elements (fold_left (fun s e => set_add e s) (assigned_at x)
                                     (set_addall (used_at x) PTR_SET_EMPTY))
             <-> j ∈ used_at x \/ j ∈ assigned_at x).
  { intros j. rewrite elem_of_elements.
    assert (Hfold : forall (l : list addr) (s : gset addr),
               j ∈ fold_left (fun s e => set_add e s) l s <-> j ∈ s \/ j ∈ l).
    { induction l as [|a l IH]; intros s; simpl; [set_solver|].
      rewrite IH. unfold set_add. set_solver. }
    rewrite Hfold. unfold set_addall, PTR_SET_EMPTY. set_solver. }
  split; [apply lookup_delete_eq|]. rewrite Hf.
  do 3 (split; [reflexivity|]). split; [|split; [|split]].
  - intros j Hj. apply Hset in Hj. split; [now apply Hlive|].
    rewrite Hins. now rewrite bool_decide_eq_true_2.
  - intros j Hu Ha. rewrite Hins.
    rewrite bool_decide_eq_false_2; [reflexivity|].
    rewrite Hset. tauto.
  - intros v Hne. rewrite lookup_delete_ne by congruence. apply Hv.
  - exact Hc.
Qed.

Lemma ir_var_delete_frees_witness :
  let m := memory_after (counter_function no_memory) in
  let m' := memory_after (ir_var_delete 2 m) in
  ir_var_delete 2 m = Done tt m' /\
  heap_var m' !! 2 = None /\
  vars_list (func m') = dlist_remove 2 (vars_list (func m)) /\
  args (func m') = args (func m).
Proof.
  intros m m'.
  assert (Hrun : ir_var_delete 2 m = Done tt m') by (vm_compute; reflexivity).
  split; [exact Hrun|].
  destruct (ir_var_delete_frees 2 m m' Hrun) as (x & _ & Hnone & Hvars & Hargs & _).
  split; [exact Hnone|]. split; assumption.
Defined.

(** ** One call at a time *)

(** Each call of [ir_var_create], [ir_code_create] or a builder that
    returns takes a function that satisfies the invariants of the data
    model to one that satisfies them: use-set and assignment-list
    consistency, predecessor/successor symmetry, instruction lists that
    agree with the parents, type agreement, terminator ordering, the SSA
    discipline while it is enforced, and no dangling reference. *)
Theorem api_call_keeps_invariants (c : api_call) (m m' : memory) :
  well_formed m -> run_call c m = Done tt m' -> well_formed m'.
Proof. apply run_call_well_formed. Qed.

Lemma api_call_keeps_invariants_witness :
  let m := memory_after (call_function no_memory) in
  let c := call_add_expr2 3 1 IR_OP2_ADD (op_var 1) (op_var 2) in
  let m' := memory_after (run_call c m) in
  well_formed m /\ run_call c m = Done tt m' /\ well_formed m'.
Proof.
  intros m c m'.
  assert (Hwf : well_formed m).
  { apply (built_well_formed "f" (Some "entry"%string) 2
             (Some [Some "a"; Some "b"]%string)
             [call_add_call_direct 3 "g" [op_var 1; op_var 2];
              call_add_return1 3 (op_var 2)]).
    vm_compute. reflexivity. }
  assert (Hrun : run_call c m = Done tt m') by (vm_compute; reflexivity).
  split; [exact Hwf|]. split; [exact Hrun|].
  exact (api_call_keeps_invariants c m m' Hwf Hrun).
Defined.

(** ** The serializer only reads *)

Section SerializerReads.

Variable ir_op1_names : ir_op1_type_t -> string.
Variable ir_op2_names : ir_op2_type_t -> string.
Variable ir_flow_names : ir_flow_type_t -> string.

Lemma reads_emit_each {A} (l : list A) (f : A -> M (list chunk)) :
  (forall x, reads_only (f x)) -> reads_only (emit_each l f).
Proof.
  intros Hf. induction l as [|x l IH]; simpl; [apply reads_ret|].
  apply reads_bind; [apply Hf|]. intros o.
  apply reads_bind; [exact IH|]. intros os. apply reads_ret.
Qed.

Lemma reads_ir_operand_serialize (o : ir_operand_t) :
  reads_only (ir_operand_serialize o).
Proof. unfold ir_operand_serialize. reads. Qed.

Lemma reads_serialize_args (ps : list ir_operand_t) :
  reads_only (serialize_args ps).
Proof.
  apply reads_emit_each. intros a.
  apply reads_bind; [apply reads_ir_operand_serialize|]. intros o. apply reads_ret.
Qed.

Lemma reads_ir_insn_serialize (insn : addr) :
  reads_only (ir_insn_serialize ir_op1_names ir_op2_names ir_flow_names insn).
Proof.
  unfold ir_insn_serialize.
  repeat first
    [ apply reads_ret | apply reads_get_var | apply reads_get_code
    | apply reads_get_insn | apply reads_ir_operand_serialize
    | apply reads_serialize_args
    | apply reads_emit_each; intros ?
    | apply reads_bind; [|intros ?]
    | match goal with
      | |- reads_only (match ?x with _ => _ end) => destruct x
      end ].
Qed.

(** [ir_func_serialize] leaves the function as it found it: whenever it
    returns, no record of the function, of a variable, of a block or of an
    instruction has changed, and nothing has been allocated or freed. *)
Theorem ir_func_serialize_reads (m m' : memory) (out : list chunk) :
  ir_func_serialize ir_op1_names ir_op2_names ir_flow_names m = Done out m' ->
  m' = m.
Proof.
  revert m out m'. change (reads_only
    (ir_func_serialize ir_op1_names ir_op2_names ir_flow_names)).
  unfold ir_func_serialize.
  repeat first
    [ apply reads_ret | apply reads_get_var | apply reads_get_code
    | apply reads_get_func | apply reads_ir_insn_serialize
    | apply reads_emit_each; intros ?
    | apply reads_bind; [|intros ?] ].
Qed.

End SerializerReads.

Lemma ir_func_serialize_reads_witness :
  let m := memory_after (counter_function no_memory) in
  let op1 := fun _ : ir_op1_type_t => "op1"%string in
  let op2 := fun _ : ir_op2_type_t => "op2"%string in
  let fl := fun _ : ir_flow_type_t => "flow"%string in
  exists out, ir_func_serialize op1 op2 fl m = Done out m.
Proof.
  intros m op1 op2 fl.
  destruct (ir_func_serialize op1 op2 fl m) as [out m'| | |] eqn:Hrun;
    try (vm_compute in Hrun; discriminate Hrun).
  exists out. now rewrite (ir_func_serialize_reads op1 op2 fl m m' out Hrun).
Defined.

(** ** What [ir_func_create] builds *)

Lemma ir_func_create_args_made (name : string)
    (args_name : option (list (option string))) (n : nat) :
  forall i m,
    (forall names, args_name = Some names -> (i + n <= length names)%nat) ->
    args_made name args_name i m ->
    exists m',
      ir_func_create_args args_name i n m = Done tt m' /\
      args_made name args_name (i + n) m'.
Proof.
  induction n as [|n IH]; intros i m Hlen Hm.
  - exists m. split; [reflexivity|]. now rewrite Nat.add_0_r.
  - simpl.
    assert (Hname : exists s,
               match args_name with
               | Some names =>
                   match names !! i with Some s => ret s | None => wild end
               | None => ret None
               end m = Done s m /\
               match s with Some s' => s' | None => fmt_zu i end
               = arg_name args_name i).
    { unfold arg_name. destruct args_name as [names|]; [|now exists None].
      destruct (names !! i) as [s|] eqn:Hs; [now exists s|].
      apply lookup_ge_None in Hs. specialize (Hlen names eq_refl). lia. }
    destruct Hname as (s & Hs & Harg). unfold bind_M at 1. rewrite Hs.
    destruct Hm as [Hn Hv Hl Hnd Hbelow Hfresh Harg' Hc Hssa Hhc Hhi].
    unfold bind_M at 1, ir_var_create, bind_M at 1, calloc. simpl.
    unfold bind_M at 1, get_func at 1. unfold bind_M at 1, set_func at 1. simpl.
    match goal with
    | |- context [ir_func_create_args _ _ _ ?m1] =>
        destruct (IH (S i) m1) as (m' & Hrun & Hm')
    end.
    + intros names Hnames. specialize (Hlen names Hnames). lia.
    + split; simpl; try assumption.
      * unfold dlist_append. now rewrite Hv.
      * rewrite length_app. simpl. lia.
      * apply NoDup_app. split; [exact Hnd|]. split; [|apply NoDup_singleton].
        intros a Ha ->%list_elem_of_singleton. specialize (Hbelow _ Ha). lia.
      * intros a Ha. apply elem_of_app in Ha as [Ha | ->%list_elem_of_singleton];
          [specialize (Hbelow _ Ha)|]; lia.
      * intros a Ha. rewrite lookup_insert_ne by lia. apply Hfresh. lia.
      * intros j a Hj. apply lookup_app_Some in Hj as [Hj|[Hge Hj]].
        -- rewrite lookup_insert_ne; [now apply Harg'|].
           intros <-. apply list_elem_of_lookup_2 in Hj.
           specialize (Hbelow _ Hj). lia.
        -- rewrite Hl in Hj, Hge. destruct (j - i)%nat as [|k] eqn:Hk;
             [|now destruct k]. injection Hj as <-.
           assert (j = i) as -> by lia. rewrite lookup_insert_eq.
           unfold PTR_SET_EMPTY. rewrite Hv, Hl, Harg. reflexivity.
    + exists m'. split; [exact Hrun|]. now rewrite <- Nat.add_succ_comm.
Qed.

(** [ir_func_create] always returns when the array of names, if one is
    given, has a name or [NULL] for each parameter.  The function it leaves
    has the name asked for and does not enforce SSA; its parameters are
    its variables, [args_len] of them, pairwise distinct, each a live
    [S32] with the name given or else its index in decimal, no assignment
    and an empty use-set; its only block is the entry block, live, empty,
    without predecessors or successors, named as asked or else [0]; and
    there is no instruction. *)
Theorem ir_func_create_shape (name : string) (entry_name : option string)
    (args_len : nat) (args_name : option (list (option string))) :
  (forall names, args_name = Some names -> (args_len <= length names)%nat) ->
  exists m,
    ir_func_create name entry_name args_len args_name no_memory = Done tt m /\
    func_name (func m) = name /\
    enforce_ssa (func m) = false /\
    vars_list (func m) = args (func m) /\
    length (args (func m)) = args_len /\
    NoDup (args (func m)) /\
    (forall j a, args (func m) !! j = Some a ->
       heap_var m !! a
       = Some {| var_name := arg_name args_name j;
                 var_prim_type := IR_PRIM_S32;
                 assigned_at := []; used_at := ∅ |}) /\
    code_list (func m) = [entry (func m)] /\
    heap_code m !! entry (func m)
    = Some {| code_name := default "0"%string entry_name;
              insns := []; pred := ∅; succ := ∅; visited := false;
              dfs_index := 0%nat |} /\
    heap_insn m = ∅.
Proof.
  intros Hlen. unfold ir_func_create.
  unfold bind_M at 1, get_func at 1. unfold bind_M at 1, set_func at 1.
  unfold bind_M at 1. cbn [func no_memory].
  match goal with
  | |- context [ir_func_create_args _ _ _ ?m0] =>
      destruct (ir_func_create_args_made name args_name args_len 0%nat m0)
        as (m1 & Hrun & Hm1)
  end.
  - exact Hlen.
  - split; simpl; try reflexivity; try done.
    + constructor.
    + intros a Ha. inversion Ha.
  - unfold bind_M at 1. rewrite Hrun.
    destruct Hm1 as [Hn Hv Hl Hnd Hbelow Hfresh Harg Hc Hssa Hhc Hhi].
    eexists. split; [reflexivity|]. simpl.
    split; [exact Hn|]. split; [exact Hssa|]. split; [exact Hv|].
    split; [exact Hl|]. split; [exact Hnd|]. split; [exact Harg|].
    split; [now rewrite Hc|]. split; [|exact Hhi].
    rewrite lookup_insert_eq, Hc. now destruct entry_name.
Qed.

Lemma ir_func_create_shape_witness :
  exists m,
    ir_func_create "f" None 2 (Some [Some "a"%string; None]) no_memory
    = Done tt m /\
    length (args (func m)) = 2%nat /\
    code_list (func m) = [entry (func m)].
Proof.
  destruct (ir_func_create_shape "f" None 2 (Some [Some "a"%string; None]))
    as (m & Hrun & _ & _ & _ & Hlen & _ & _ & Hcode & _).
  - intros names [= <-]. simpl. lia.
  - exists m. split; [exact Hrun|]. split; assumption.
Defined.

(** ** When a builder returns *)

Lemma during_start (m : memory) (x : ir_insn_t) : during m (with_new_insn m x).
Proof. split; try reflexivity; [now exists x | apply same_but_uses_refl]. Qed.

Lemma same_but_uses_lookup (hv hv' : gmap N ir_var_t) (v : addr) (d : ir_var_t) :
  same_but_uses hv hv' -> hv !! v = Some d ->
  exists d', hv' !! v = Some d' /\ var_prim_type d' = var_prim_type d /\
             assigned_at d' = assigned_at d.
Proof.
  intros Hs Hd. specialize (Hs v). rewrite Hd in Hs.
  destruct (hv' !! v) as [d'|]; [|discriminate]. injection Hs as _ Ht Ha. eauto.
Qed.

Lemma during_get_var (m M : memory) (v : addr) (d : ir_var_t) :
  during m M -> heap_var m !! v = Some d ->
  exists d', get_var v M = Done d' M /\ var_prim_type d' = var_prim_type d /\
             assigned_at d' = assigned_at d.
Proof.
  intros HM Hd.
  destruct (same_but_uses_lookup _ _ _ _ (du_var _ _ HM) Hd) as (d' & Hd' & Ht & Ha).
  exists d'. unfold get_var. now rewrite Hd'.
Qed.

Lemma during_operand_prim (m M : memory) (o : ir_operand_t) (p : ir_prim_t) :
  during m M -> prim_of m o = Some p -> operand_prim o M = Done p M.
Proof.
  intros HM Hp. destruct o as [k|v]; simpl in *.
  - now injection Hp as <-.
  - destruct (heap_var m !! v) as [d|] eqn:Hd; [|discriminate].
    injection Hp as <-.
    destruct (during_get_var m M v d HM Hd) as (d' & Hg & Ht & _).
    unfold bind_M. now rewrite Hg, Ht.
Qed.

Lemma during_use_operand (m M : memory) (o : ir_operand_t) (i : addr) :
  during m M -> operand_live m o ->
  exists M', use_operand o i M = Done tt M' /\ during m M'.
Proof.
  intros HM Hlive. destruct o as [k|v]; simpl in *; [now exists M|].
  destruct Hlive as [d Hd].
  destruct (during_get_var m M v d HM Hd) as (d' & Hg & _).
  unfold set_used_at, bind_M. rewrite Hg. eexists. split; [reflexivity|].
  destruct HM as [Hf Hc Hi Hv]. split; simpl; try assumption.
  eapply same_but_uses_trans; [exact Hv|].
  unfold get_var in Hg. destruct (heap_var M !! v) as [d0|] eqn:Hd0; [|discriminate].
  injection Hg as ->. intros w. rewrite lookup_insert.
  case_decide; [subst; now rewrite Hd0 | reflexivity].
Qed.

Lemma during_use_operands (m : memory) (i : addr) (l : list ir_operand_t) :
  forall M,
    during m M -> Forall (operand_live m) l ->
    exists M', foreach l (fun o => use_operand o i) M = Done tt M' /\ during m M'.
Proof.
  induction l as [|o l IH]; intros M HM Hall; simpl; [now exists M|].
  inversion Hall as [|? ? Ho Hl]; subst.
  destruct (during_use_operand m M o i HM Ho) as (M1 & Hrun & HM1).
  unfold bind_M. rewrite Hrun. now apply IH.
Qed.

Lemma mentions_live (m : memory) (x : ir_insn_body) :
  (forall v, mentions x v = true \/ defines x v = true ->
             is_Some (heap_var m !! v)) ->
  Forall (operand_live m) (operands x).
Proof.
  intros Hlive. apply Forall_forall. intros [k|v] Hin; simpl; [exact I|].
  apply Hlive. left. unfold mentions. apply existsb_exists.
  exists (op_var v). split; [now apply list_elem_of_In|].
  simpl. now apply bool_decide_eq_true.
Qed.

Lemma during_last (m M : memory) (code : addr) :
  blocks_consistent m -> heap_insn m !! brk m = None ->
  is_Some (heap_code m !! code) -> terminated m code = false ->
  during m M ->
  last_is_jump_or_branch code M = Done false M.
Proof.
  intros Hblk Hfresh [c Hc] Hterm HM.
  unfold last_is_jump_or_branch, bind_M, get_code.
  rewrite (du_code _ _ HM), Hc. unfold terminated in Hterm. rewrite Hc in Hterm.
  case_bool_decide as Hlen; [reflexivity|].
  unfold dlist_tail. destruct (last (insns c)) as [t|] eqn:Hlast.
  - assert (Hin : t ∈ insns c).
    { apply last_Some in Hlast as [l' ->]. set_solver. }
    apply (Hblk code c Hc) in Hin as (y & Hy & _).
    destruct (du_insn _ _ HM) as [e He]. unfold get_insn. simpl.
    rewrite He, lookup_insert_ne by (intros <-; congruence).
    rewrite Hy in *. destruct (body y) as [|[]]; simpl in Hterm;
      try discriminate Hterm; reflexivity.
  - apply last_None in Hlast. now rewrite Hlast in Hlen.
Qed.

Lemma during_ssa (m M : memory) (dest : addr) :
  during m M -> is_Some (heap_var m !! dest) ->
  (enforce_ssa (func m) = true ->
   forall d, heap_var m !! dest = Some d -> assigned_at d = []) ->
  ssa_assigned_twice dest M = Done false M.
Proof.
  intros HM [d Hd] Hssa.
  destruct (during_get_var m M dest d HM Hd) as (d' & Hg & _ & Ha).
  unfold ssa_assigned_twice, bind_M. rewrite Hg. unfold get_func, ret.
  rewrite (du_func _ _ HM), Ha. f_equal.
  destruct (enforce_ssa (func m)); [|apply andb_false_r].
  now rewrite (Hssa eq_refl d Hd).
Qed.

Lemma during_append (m M : memory) (code : addr) (f : list addr -> list addr) :
  during m M -> is_Some (heap_code m !! code) ->
  exists m', set_insns code f M = Done tt m'.
Proof.
  intros HM [c Hc]. unfold set_insns, bind_M, get_code.
  rewrite (du_code _ _ HM), Hc. eauto.
Qed.

Lemma during_assign_append (m M : memory) (dest code : addr)
    (f g : list addr -> list addr) :
  during m M -> is_Some (heap_var m !! dest) -> is_Some (heap_code m !! code) ->
  exists m', (set_assigned_at dest f ;;; set_insns code g) M = Done tt m'.
Proof.
  intros HM [d Hd] [c Hc].
  destruct (during_get_var m M dest d HM Hd) as (d' & Hg & _).
  unfold set_assigned_at, set_insns, bind_M. rewrite Hg. simpl.
  unfold get_code. simpl. rewrite (du_code _ _ HM), Hc. eauto.
Qed.

Lemma during_link (m M : memory) (from to fl : addr) :
  during m M -> is_Some (heap_code m !! from) -> is_Some (heap_code m !! to) ->
  exists m', (set_succ from (set_add to) ;;;
              set_pred to (set_add from) ;;;
              set_insns from (dlist_append fl)) M = Done tt m'.
Proof.
  intros HM Hfrom Hto. rewrite <- (du_code _ _ HM) in Hfrom, Hto.
  destruct (link_and_append M from to fl Hfrom Hto) as (m' & Hrun & _). eauto.
Qed.

Section Accepted.

Variables (m : memory) (code : addr) (x : ir_insn_body).
Hypothesis Hblk : blocks_consistent m.
Hypothesis Hfresh : heap_insn m !! brk m = None.
Hypothesis Hacc : accepts m code x.

Lemma accepted_dest (dest : addr) :
  defines x dest = true -> is_Some (heap_var m !! dest).
Proof. intros Hd. apply (acc_vars _ _ _ Hacc). now right. Qed.

Lemma accepted_operands : Forall (operand_live m) (operands x).
Proof. apply mentions_live, (acc_vars _ _ _ Hacc). Qed.

Lemma accepted_last (M : memory) :
  is_jump_or_branch x = false -> during m M ->
  last_is_jump_or_branch code M = Done false M.
Proof.
  intros Hx HM. apply (during_last m); try assumption.
  - apply (acc_code _ _ _ Hacc).
  - destruct (terminated m code) eqn:Ht; [|reflexivity].
    rewrite (acc_order _ _ _ Hacc Ht) in Hx. discriminate.
Qed.

Lemma accepted_ssa (M : memory) (dest : addr) :
  defines x dest = true -> during m M ->
  ssa_assigned_twice dest M = Done false M.
Proof.
  intros Hd HM. apply (during_ssa m); [exact HM | now apply accepted_dest|].
  intros He d. now apply (acc_ssa _ _ _ Hacc He dest d).
Qed.

End Accepted.

Section Returns.

Variable m : memory.
Hypothesis Hblk : blocks_consistent m.
Hypothesis Hfresh : heap_insn m !! brk m = None.

Ltac start_builder HM :=
  rewrite alloc_insn;
  match goal with
  | |- context [with_new_insn m ?i] => pose proof (during_start m i) as HM
  end.

Ltac pass_last Hacc HM :=
  erewrite bind_Done
    by (eapply accepted_last; [exact Hblk | exact Hfresh | exact Hacc
                              | reflexivity | exact HM]);
  cbv iota.

Ltac pass_ssa Hacc HM :=
  erewrite bind_Done
    by (eapply accepted_ssa; [exact Hacc | simpl; now apply bool_decide_eq_true
                             | exact HM]);
  cbv iota.

Ltac pass_use Hacc HM o M1 HM1 :=
  let Hrun := fresh "Hrun" in
  destruct (during_use_operand m _ o (brk m) HM) as (M1 & Hrun & HM1);
  [ pose proof (accepted_operands m _ _ Hacc) as Hall; simpl in Hall;
    repeat match goal with
           | H : Forall _ (_ :: _) |- _ => inversion H; subst; clear H
           end;
    assumption
  | erewrite bind_Done by exact Hrun; clear Hrun HM ].

Lemma ir_add_return0_returns (from : addr) :
  accepts m from (flow (f_return None)) ->
  exists m', ir_add_return0 from m = Done tt m'.
Proof.
  intros Hacc. unfold ir_add_return0. start_builder HM. pass_last Hacc HM.
  eapply during_append; [exact HM | apply (acc_code _ _ _ Hacc)].
Qed.

Lemma ir_add_return1_returns (from : addr) (value : ir_operand_t) :
  accepts m from (flow (f_return (Some value))) ->
  exists m', ir_add_return1 from value m = Done tt m'.
Proof.
  intros Hacc. unfold ir_add_return1. start_builder HM. pass_last Hacc HM.
  pass_use Hacc HM value M1 HM1.
  eapply during_append; [eassumption | apply (acc_code _ _ _ Hacc)].
Qed.

Lemma ir_add_call_direct_returns (from : addr) (label : string)
    (params : list ir_operand_t) :
  accepts m from (flow (f_call_direct params label)) ->
  exists m', ir_add_call_direct from label params m = Done tt m'.
Proof.
  intros Hacc. unfold ir_add_call_direct. start_builder HM. pass_last Hacc HM.
  destruct (during_use_operands m (brk m) params _ HM) as (M1 & Hrun & HM1);
    [apply (accepted_operands m _ _ Hacc)|].
  erewrite bind_Done by exact Hrun.
  eapply during_append; [eassumption | apply (acc_code _ _ _ Hacc)].
Qed.

Lemma ir_add_call_ptr_returns (from : addr) (funcptr : ir_operand_t)
    (params : list ir_operand_t) :
  accepts m from (flow (f_call_ptr params funcptr)) ->
  exists m', ir_add_call_ptr from funcptr params m = Done tt m'.
Proof.
  intros Hacc. unfold ir_add_call_ptr. start_builder HM. pass_last Hacc HM.
  pose proof (accepted_operands m _ _ Hacc) as Hops. simpl in Hops.
  inversion Hops as [|? ? Hptr Hparams]; subst.
  destruct (during_use_operand m _ funcptr (brk m) HM Hptr) as (M1 & Hrun & HM1).
  erewrite bind_Done by exact Hrun.
  destruct (during_use_operands m (brk m) params _ HM1 Hparams)
    as (M2 & Hrun2 & HM2).
  erewrite bind_Done by exact Hrun2.
  eapply during_append; [eassumption | apply (acc_code _ _ _ Hacc)].
Qed.

Lemma ir_add_jump_returns (from to : addr) :
  accepts m from (flow (f_jump to)) ->
  exists m', ir_add_jump from to m = Done tt m'.
Proof.
  intros Hacc. unfold ir_add_jump. start_builder HM.
  eapply during_link; [exact HM | apply (acc_code _ _ _ Hacc)|].
  now apply (acc_edge _ _ _ Hacc).
Qed.

Lemma ir_add_branch_returns (from : addr) (cond : ir_operand_t) (to : addr) :
  accepts m from (flow (f_branch cond to)) ->
  exists m', ir_add_branch from cond to m = Done tt m'.
Proof.
  intros Hacc. unfold ir_add_branch. start_builder HM.
  erewrite bind_Done
    by (eapply during_operand_prim; [exact HM | apply (acc_typed _ _ _ Hacc)]).
  rewrite bool_decide_eq_false_2 by (intros Hne; now apply Hne).
  pass_use Hacc HM cond M1 HM1.
  eapply during_link; [eassumption | apply (acc_code _ _ _ Hacc)|].
  now apply (acc_edge _ _ _ Hacc).
Qed.

Lemma ir_add_undefined_returns (code dest : addr) :
  accepts m code (expr dest e_undefined) ->
  exists m', ir_add_undefined code dest m = Done tt m'.
Proof.
  intros Hacc. unfold ir_add_undefined. start_builder HM. pass_last Hacc HM.
  pass_ssa Hacc HM.
  eapply during_assign_append;
    [exact HM | | apply (acc_code _ _ _ Hacc)].
  eapply accepted_dest; [exact Hacc | simpl; now apply bool_decide_eq_true].
Qed.

Lemma ir_add_expr2_returns (code dest : addr) (oper : ir_op2_type_t)
    (lhs rhs : ir_operand_t) :
  accepts m code (expr dest (e_binary oper lhs rhs)) ->
  exists m', ir_add_expr2 code dest oper lhs rhs m = Done tt m'.
Proof.
  intros Hacc. unfold ir_add_expr2. start_builder HM. pass_last Hacc HM.
  destruct (acc_typed _ _ _ Hacc) as (p & Hd & Hl & Hr). simpl in Hd.
  destruct (heap_var m !! dest) as [d|] eqn:Hdest; [|discriminate].
  injection Hd as <-.
  erewrite bind_Done by (eapply during_operand_prim; [exact HM | exact Hl]).
  destruct (during_get_var m _ dest d HM Hdest) as (d' & Hg & Ht & _).
  erewrite bind_Done by exact Hg. rewrite Ht.
  rewrite bool_decide_eq_false_2 by (intros Hne; now apply Hne).
  erewrite bind_Done by (eapply during_operand_prim; [exact HM | exact Hr]).
  rewrite bool_decide_eq_false_2 by (intros Hne; now apply Hne).
  pass_use Hacc HM lhs M1 HM1. pass_use Hacc HM1 rhs M2 HM2. pass_ssa Hacc HM2.
  eapply during_assign_append; [eassumption | eauto | apply (acc_code _ _ _ Hacc)].
Qed.

Lemma ir_add_expr1_returns (code dest : addr) (oper : ir_op1_type_t)
    (operand : ir_operand_t) :
  accepts m code (expr dest (e_unary oper operand)) ->
  exists m', ir_add_expr1 code dest oper operand m = Done tt m'.
Proof.
  intros Hacc. unfold ir_add_expr1. start_builder HM. pass_last Hacc HM.
  pass_use Hacc HM operand M1 HM1.
  destruct (accepted_dest m _ _ Hacc dest) as [d Hdest];
    [simpl; now apply bool_decide_eq_true|].
  destruct (during_get_var m _ dest d HM1 Hdest) as (d' & Hg & Ht & _).
  erewrite bind_Done by exact Hg. rewrite Ht.
  pose proof (acc_typed _ _ _ Hacc) as Hty. simpl in Hty, Hdest.
  rewrite Hdest in Hty. simpl in Hty.
  assert (Hcheck :
    (if bool_decide (oper = IR_OP1_SNEZ) || bool_decide (oper = IR_OP1_SEQZ)
     then if bool_decide (var_prim_type d ≠ IR_PRIM_BOOL)
          then abort BUG_expr1_bool else ret tt
     else if bool_decide (oper ≠ IR_OP1_MOV)
          then operand_prim' <- operand_prim operand ;;
               if bool_decide (operand_prim' ≠ var_prim_type d)
               then abort BUG_expr1_types else ret tt
          else ret tt) M1 = Done tt M1).
  { destruct oper; simpl; try reflexivity.
    1, 2: injection Hty as ->; reflexivity.
    all: destruct Hty as (p & [= <-] & Hp);
      erewrite bind_Done
        by (eapply during_operand_prim; [exact HM1 | exact Hp]);
      now rewrite bool_decide_eq_false_2 by (intros Hne; now apply Hne). }
  erewrite bind_Done by exact Hcheck. pass_ssa Hacc HM1.
  eapply during_assign_append; [eassumption | eauto | apply (acc_code _ _ _ Hacc)].
Qed.

Lemma combinator_loop_returns (dest : addr) (d : ir_var_t)
    (from : list ir_combinator_t) :
  heap_var m !! dest = Some d ->
  Forall (fun c => prim_of m (bind c) = Some (var_prim_type d)) from ->
  Forall (fun c => operand_live m (bind c)) from ->
  forall M,
    during m M ->
    exists M',
      foreach from (fun c =>
        bind_prim <- operand_prim (bind c) ;;
        d <- get_var dest ;;
        if bool_decide (bind_prim ≠ var_prim_type d) then abort BUG_phi_types
        else use_operand (bind c) (brk m)) M = Done tt M' /\
      during m M'.
Proof.
  intros Hdest Hty Hlive. induction from as [|c from IH]; intros M HM; simpl.
  - now exists M.
  - inversion Hty as [|? ? Hc Hty']; inversion Hlive as [|? ? Hl Hlive']; subst.
    destruct (during_get_var m M dest d HM Hdest) as (d' & Hg & Ht & _).
    destruct (during_use_operand m M (bind c) (brk m) HM Hl) as (M1 & Hrun & HM1).
    destruct (IH Hty' Hlive' M1 HM1) as (M' & Hrest & HM').
    exists M'. split; [|exact HM'].
    erewrite bind_Done; [exact Hrest|].
    erewrite bind_Done
      by (eapply during_operand_prim; [exact HM | exact Hc]).
    erewrite bind_Done by exact Hg. rewrite Ht.
    rewrite bool_decide_eq_false_2 by (intros Hne; now apply Hne).
    exact Hrun.
Qed.

Lemma ir_add_combinator_returns (code dest : addr)
    (from : list ir_combinator_t) :
  accepts m code (expr dest (e_combinator from)) ->
  exists m', ir_add_combinator code dest from m = Done tt m'.
Proof.
  intros Hacc. unfold ir_add_combinator. start_builder HM. pass_last Hacc HM.
  pass_ssa Hacc HM.
  destruct (accepted_dest m _ _ Hacc dest) as [d Hdest];
    [simpl; now apply bool_decide_eq_true|].
  pose proof (acc_typed _ _ _ Hacc) as Hty. simpl in Hty.
  rewrite Hdest in Hty. simpl in Hty.
  pose proof (accepted_operands m _ _ Hacc) as Hlive. simpl in Hlive.
  rewrite Forall_fmap in Hlive.
  destruct (combinator_loop_returns dest d from Hdest) with (M := with_new_insn m
    {| parent := code; body := expr dest (e_combinator from) |})
    as (M1 & Hrun & HM1); [| exact Hlive | exact HM |].
  { eapply Forall_impl; [exact Hty|]. now intros c (p & [= <-] & Hp). }
  erewrite bind_Done by exact Hrun.
  eapply during_assign_append; [eassumption | eauto | apply (acc_code _ _ _ Hacc)].
Qed.

(** A builder call returns whenever the function accepts its
    instruction. *)
Lemma run_call_returns (c : api_call) (code : addr) (x : ir_insn_body) :
  appended_by c = Some (code, x) -> accepts m code x ->
  exists m', run_call c m = Done tt m'.
Proof.
  intros Hc Hacc. destruct c; simpl in Hc; try discriminate;
    injection Hc as <- <-; simpl.
  - now apply ir_add_combinator_returns.
  - now apply ir_add_expr1_returns.
  - now apply ir_add_expr2_returns.
  - now apply ir_add_undefined_returns.
  - now apply ir_add_call_direct_returns.
  - now apply ir_add_call_ptr_returns.
  - now apply ir_add_jump_returns.
  - now apply ir_add_branch_returns.
  - now apply ir_add_return0_returns.
  - now apply ir_add_return1_returns.
Qed.

End Returns.

Lemma appended_accepts (m m' : memory) (code : addr) (x : ir_insn_body) :
  heap_insn m !! brk m = None -> appended m m' code x -> accepts m code x.
Proof.
  intros Hfresh Happ. split.
  - apply (app_live_code _ _ _ _ Happ).
  - apply (app_live_vars _ _ _ _ Happ).
  - apply (app_live_edge _ _ _ _ Happ).
  - apply (app_typed _ _ _ _ Happ).
  - apply (app_order _ _ _ _ Happ Hfresh).
  - apply (app_ssa _ _ _ _ Happ).
Qed.

(** On a function whose instruction lists agree with the instructions'
    parents and whose next address is free, a builder returns exactly when
    its block, its destination, the variables among its operands and its
    target are live, the types agree, the block does not end in a jump or a
    branch unless the instruction is one, and, while the function enforces
    the SSA form, the destination has no assignment.  Otherwise it aborts
    or follows a dangling pointer. *)
Theorem builder_returns_iff (c : api_call) (code : addr) (x : ir_insn_body)
    (m : memory) :
  blocks_consistent m ->
  heap_insn m !! brk m = None ->
  appended_by c = Some (code, x) ->
  (exists m', run_call c m = Done tt m') <-> accepts m code x.
Proof.
  intros Hblk Hfresh Hc. split.
  - intros [m' Hrun]. apply (appended_accepts m m'); [exact Hfresh|].
    destruct c; simpl in Hc; try discriminate; injection Hc as <- <-;
      simpl in Hrun.
    + now apply ir_add_combinator_appends.
    + now apply ir_add_expr1_appends.
    + now apply ir_add_expr2_appends.
    + now apply ir_add_undefined_appends.
    + now apply ir_add_call_direct_appends.
    + now apply ir_add_call_ptr_appends.
    + now apply ir_add_jump_appends.
    + now apply ir_add_branch_appends.
    + now apply ir_add_return0_appends.
    + now apply ir_add_return1_appends.
  - now apply run_call_returns.
Qed.

Lemma builder_returns_iff_witness :
  let m := memory_after (call_function no_memory) in
  let c := call_add_expr2 3 1 IR_OP2_ADD (op_var 1) (op_var 2) in
  (exists m', run_call c m = Done tt m') /\
  accepts m 3 (expr 1 (e_binary IR_OP2_ADD (op_var 1) (op_var 2))).
Proof.
  intros m c.
  assert (Hwf : well_formed m).
  { apply (built_well_formed "f" (Some "entry"%string) 2
             (Some [Some "a"; Some "b"]%string)
             [call_add_call_direct 3 "g" [op_var 1; op_var 2];
              call_add_return1 3 (op_var 2)]).
    vm_compute. reflexivity. }
  assert (Hrun : exists m', run_call c m = Done tt m')
    by (eexists; vm_compute; reflexivity).
  split; [exact Hrun|].
  apply (builder_returns_iff c 3 _ m (wf_blocks _ Hwf)); [| reflexivity | exact Hrun].
  apply (wf_alloc _ Hwf). reflexivity.
Defined.

(** ** [ir_insn_delete] returns *)

Lemma same_domain_refl (m : memory) : same_domain m m.
Proof. now split. Qed.

Lemma same_domain_set_var (m M : memory) (v : addr) (f : ir_var_t -> ir_var_t)
    (g : ir_var_t -> ir_var_t) :
  same_domain m M -> is_Some (heap_var m !! v) ->
  forall c : memory -> outcome unit,
    (forall x, heap_var M !! v = Some x ->
               c M = Done tt (with_var M (<[v := g x]> (heap_var M)))) ->
    exists M', c M = Done tt M' /\ same_domain m M'.
Proof.
  intros (Hv & Hc & Hi) Hlive c Hrun. apply Hv in Hlive as [x Hx].
  rewrite (Hrun x Hx). eexists. split; [reflexivity|].
  split; [|split]; cbn [heap_var heap_code heap_insn with_var]; try assumption.
  intros w. rewrite <- Hv, lookup_insert. case_decide; [subst|reflexivity].
  rewrite Hx. split; eauto.
Qed.

Lemma set_used_at_returns (m M : memory) (v : addr)
    (f : gset addr -> gset addr) :
  same_domain m M -> is_Some (heap_var m !! v) ->
  exists M', set_used_at v f M = Done tt M' /\ same_domain m M'.
Proof.
  intros HM Hlive.
  eapply (same_domain_set_var m M v id) ; [exact HM | exact Hlive |].
  intros x Hx. unfold set_used_at, bind_M, get_var, put_var. rewrite Hx.
  reflexivity.
Qed.

Lemma set_assigned_at_returns (m M : memory) (v : addr)
    (f : list addr -> list addr) :
  same_domain m M -> is_Some (heap_var m !! v) ->
  exists M', set_assigned_at v f M = Done tt M' /\ same_domain m M'.
Proof.
  intros HM Hlive.
  eapply (same_domain_set_var m M v id) ; [exact HM | exact Hlive |].
  intros x Hx. unfold set_assigned_at, bind_M, get_var, put_var. rewrite Hx.
  reflexivity.
Qed.

Lemma unuse_operand_returns (m M : memory) (o : ir_operand_t) (i : addr) :
  same_domain m M -> operand_live m o ->
  exists M', unuse_operand o i M = Done tt M' /\ same_domain m M'.
Proof.
  intros HM Hlive. destruct o as [k|v]; simpl; [now exists M|].
  now apply set_used_at_returns.
Qed.

Lemma unuse_operands_returns {A} (m : memory) (i : addr) (g : A -> ir_operand_t)
    (l : list A) :
  Forall (fun a => operand_live m (g a)) l ->
  forall M,
    same_domain m M ->
    exists M', foreach l (fun a => unuse_operand (g a) i) M = Done tt M' /\
               same_domain m M'.
Proof.
  induction 1 as [|a l Ha Hl IH]; intros M HM; simpl; [now exists M|].
  destruct (unuse_operand_returns m M (g a) i HM Ha) as (M1 & Hrun & HM1).
  unfold bind_M. rewrite Hrun. now apply IH.
Qed.

(** [ir_insn_delete] returns on a live instruction of a function without
    dangling references, unless it is a call through a constant address. *)
Lemma ir_insn_delete_returns (m : memory) (e : addr) (i : ir_insn_t) :
  references_live m ->
  heap_insn m !! e = Some i ->
  (forall ps k, body i <> flow (f_call_ptr ps (op_const k))) ->
  exists m', ir_insn_delete e m = Done tt m'.
Proof.
  intros [Hlive _] Hi Hnot. destruct (Hlive e i Hi) as [Hparent Hvars].
  pose proof (mentions_live m (body i) Hvars) as Hops.
  assert (Hdest : forall dest, defines (body i) dest = true ->
                               is_Some (heap_var m !! dest))
    by (intros dest Hd; apply Hvars; now right).
  unfold ir_insn_delete. unfold bind_M at 1, get_insn. rewrite Hi.
  assert (Hbody : exists M,
    match body i with
    | expr dest e0 =>
        set_assigned_at dest (dlist_remove e) ;;;
        match e0 with
        | e_unary _ value => unuse_operand value e
        | e_binary _ lhs rhs => unuse_operand lhs e ;;; unuse_operand rhs e
        | e_combinator from => foreach from (fun c => unuse_operand (bind c) e)
        | e_undefined => ret tt
        end
    | flow f =>
        match f with
        | f_branch cond _ => unuse_operand cond e
        | f_return value =>
            match value with
            | Some v => unuse_operand v e
            | None => ret tt
            end
        | f_call_direct ps _ => foreach ps (fun a => unuse_operand a e)
        | f_call_ptr ps fptr =>
            (if is_const fptr then wild else ret tt) ;;;
            foreach ps (fun a => unuse_operand a e)
        | f_jump _ => ret tt
        end
    end m = Done tt M /\ same_domain m M).
  { destruct (body i) as [dest [from|oper v|oper l r|]|[t|c t|a l|a f|[w|]]];
      simpl in Hops.
    - destruct (set_assigned_at_returns m m dest (dlist_remove e))
        as (M1 & Hrun & HM1);
        [apply same_domain_refl | apply Hdest; simpl; now apply bool_decide_eq_true|].
      rewrite Forall_fmap in Hops.
      destruct (unuse_operands_returns m e bind from Hops M1 HM1)
        as (M2 & Hrun2 & HM2).
      exists M2. split; [|exact HM2]. erewrite bind_Done by exact Hrun. exact Hrun2.
    - destruct (set_assigned_at_returns m m dest (dlist_remove e))
        as (M1 & Hrun & HM1);
        [apply same_domain_refl | apply Hdest; simpl; now apply bool_decide_eq_true|].
      inversion Hops as [|? ? Hv _]; subst.
      destruct (unuse_operand_returns m M1 v e HM1 Hv) as (M2 & Hrun2 & HM2).
      exists M2. split; [|exact HM2]. erewrite bind_Done by exact Hrun. exact Hrun2.
    - destruct (set_assigned_at_returns m m dest (dlist_remove e))
        as (M1 & Hrun & HM1);
        [apply same_domain_refl | apply Hdest; simpl; now apply bool_decide_eq_true|].
      inversion Hops as [|? ? Hl Hops']; subst.
      inversion Hops' as [|? ? Hr _]; subst.
      destruct (unuse_operand_returns m M1 l e HM1 Hl) as (M2 & Hrun2 & HM2).
      destruct (unuse_operand_returns m M2 r e HM2 Hr) as (M3 & Hrun3 & HM3).
      exists M3. split; [|exact HM3]. erewrite bind_Done by exact Hrun.
      erewrite bind_Done by exact Hrun2. exact Hrun3.
    - destruct (set_assigned_at_returns m m dest (dlist_remove e))
        as (M1 & Hrun & HM1);
        [apply same_domain_refl | apply Hdest; simpl; now apply bool_decide_eq_true|].
      exists M1. split; [|exact HM1]. erewrite bind_Done by exact Hrun. reflexivity.
    - exists m. split; [reflexivity | apply same_domain_refl].
    - inversion Hops as [|? ? Hc _]; subst.
      now apply unuse_operand_returns; [apply same_domain_refl|].
    - apply (unuse_operands_returns m e id a Hops m), same_domain_refl.
    - inversion Hops as [|? ? Hf Hps]; subst.
      destruct f as [k|v]; [now destruct (Hnot a k)|]. simpl.
      unfold bind_M at 1, ret.
      apply (unuse_operands_returns m e id a Hps m), same_domain_refl.
    - inversion Hops as [|? ? Hw _]; subst.
      now apply unuse_operand_returns; [apply same_domain_refl|].
    - exists m. split; [reflexivity | apply same_domain_refl]. }
  destruct Hbody as (M & Hrun & (_ & Hc & _)).
  erewrite bind_Done by exact Hrun.
  apply Hc in Hparent as [b Hb].
  unfold set_insns, bind_M, get_code. rewrite Hb. simpl. eauto.
Qed.

(** ** Deleting an instruction of a well-formed function *)

(** On a function that satisfies the invariants of the data model,
    [ir_insn_delete] of a live instruction that is not a call through a
    pointer returns, and the function it leaves satisfies the invariants:
    use-set and assignment-list consistency, type agreement, terminator
    ordering and the absence of dangling references among them. *)
Theorem ir_insn_delete_well_formed (m : memory) (e : addr) (i : ir_insn_t) :
  well_formed m ->
  heap_insn m !! e = Some i ->
  (forall ps fptr, body i <> flow (f_call_ptr ps fptr)) ->
  exists m', ir_insn_delete e m = Done tt m' /\ well_formed m'.
Proof.
  intros Hwf Hi Hnot.
  destruct (ir_insn_delete_returns m e i (wf_live _ Hwf) Hi) as [m' H];
    [intros ps k; apply Hnot|].
  exists m'. split; [exact H|].
  apply ir_insn_delete_effect in H as (i' & Hrem).
  assert (i' = i) as -> by (pose proof (rem_live _ _ _ _ Hrem); congruence).
  eapply removed_well_formed; eassumption.
Qed.

Lemma ir_insn_delete_well_formed_witness :
  let m := memory_after (call_function no_memory) in
  well_formed m /\
  heap_insn m !! 4
  = Some {| parent := 3;
            body := flow (f_call_direct [op_var 1; op_var 2] "g") |} /\
  exists m', ir_insn_delete 4 m = Done tt m' /\ well_formed m'.
Proof.
  intros m.
  assert (Hwf : well_formed m).
  { apply (built_well_formed "f" (Some "entry"%string) 2
             (Some [Some "a"; Some "b"]%string)
             [call_add_call_direct 3 "g" [op_var 1; op_var 2];
              call_add_return1 3 (op_var 2)]).
    vm_compute. reflexivity. }
  assert (Hi : heap_insn m !! 4
               = Some {| parent := 3;
                         body := flow (f_call_direct [op_var 1; op_var 2] "g") |})
    by (vm_compute; reflexivity).
  split; [exact Hwf|]. split; [exact Hi|].
  apply (ir_insn_delete_well_formed m 4 _ Hwf Hi).
  intros ps fptr. discriminate.
Defined.

(** ** Flow recomputation *)

Lemma linked_nil (M : memory) : linked [] M M.
Proof.
  do 4 (split; [reflexivity|]). intros c.
  destruct (heap_code M !! c) as [[]|]; simpl; [|reflexivity].
  unfold link_all. simpl. do 2 f_equal; set_solver.
Qed.

Lemma link_all_app (E1 E2 : list (addr * addr)) (c : addr) (b : ir_code_t) :
  link_all E2 c (link_all E1 c b) = link_all (E1 ++ E2) c b.
Proof.
  unfold link_all. simpl. rewrite !filter_app, !map_app, !list_to_set_app_L.
  f_equal; set_solver.
Qed.

Lemma linked_trans (E1 E2 : list (addr * addr)) (M M1 M2 : memory) :
  linked E1 M M1 -> linked E2 M1 M2 -> linked (E1 ++ E2) M M2.
Proof.
  intros (Hf1 & Hb1 & Hv1 & Hi1 & Hc1) (Hf2 & Hb2 & Hv2 & Hi2 & Hc2).
  do 4 (split; [congruence|]). intros c. rewrite Hc2, Hc1.
  destruct (heap_code M !! c); simpl; [|reflexivity].
  now rewrite link_all_app.
Qed.

Lemma linked_one (code t : addr) (M M' : memory) :
  (set_pred t (set_add code) ;;; set_succ code (set_add t)) M = Done tt M' ->
  linked [(code, t)] M M'.
Proof.
  intros H. apply bind_inv in H as ([] & M1 & Hp & Hs).
  apply set_pred_inv in Hp as [_ ->]. apply set_succ_inv in Hs as [_ ->].
  do 4 (split; [reflexivity|]). intros c.
  cbn [heap_code with_code]. rewrite !lookup_alter.
  unfold link_all. rewrite !filter_cons, !filter_nil. simpl.
  repeat match goal with
         | |- context [decide ?P] => destruct (decide P); simplify_eq/=
         end;
    match goal with
    | |- context [heap_code M !! ?b] => destruct (heap_code M !! b) as [[]|]
    end; simpl; try reflexivity;
    unfold set_add, upd_pred, upd_succ; simpl; do 2 f_equal; set_solver.
Qed.

Lemma linked_insns_of (E : list (addr * addr)) (M M' : memory) (c : addr) :
  linked E M M' -> insns_of M' c = insns_of M c.
Proof.
  intros (_ & _ & _ & _ & Hc). unfold insns_of. rewrite Hc.
  now destruct (heap_code M !! c).
Qed.

Lemma linked_live (E : list (addr * addr)) (M M' : memory) (c : addr) :
  linked E M M' -> is_Some (heap_code M' !! c) <-> is_Some (heap_code M !! c).
Proof. intros (_ & _ & _ & _ & Hc). now rewrite Hc, fmap_is_Some. Qed.

Lemma flow_target_at_spec (m : memory) (insn t : addr) :
  flow_target_at m insn = Some t <-> jump_or_branch_at m insn t.
Proof.
  unfold flow_target_at, jump_or_branch_at. split.
  - destruct (heap_insn m !! insn) as [i|]; [|discriminate].
    destruct (body i) as [dest sub|[t'|c t'|ps s|ps f|r]] eqn:Hb; simpl;
      try discriminate; intros [= ->]; exists i; (split; [reflexivity|]).
    + now left.
    + right. now exists c.
  - intros (i & -> & [->|[cond ->]]); reflexivity.
Qed.

(** The instruction loop of [ir_func_recalc_flow] on one block. *)
Lemma recalc_block (m : memory) (code : addr) (l : list addr) :
  forall M M',
    heap_insn M = heap_insn m ->
    foreach l (fun insn =>
      i <- get_insn insn ;;
      match body i with
      | expr _ _ => ret tt
      | flow f =>
          match f_jump_target f with
          | Some target =>
              set_pred target (set_add code) ;;;
              set_succ code (set_add target)
          | None => ret tt
          end
      end) M = Done tt M' ->
    linked (map (fun t => (code, t)) (omap (flow_target_at m) l)) M M'.
Proof.
  induction l as [|a l IH]; intros M M' Hi H; simpl in H.
  - apply ret_inv in H as [_ <-]. apply linked_nil.
  - apply bind_inv in H as ([] & M1 & Hstep & H).
    apply bind_inv in Hstep as (i & M0 & Hg & Hstep).
    apply get_insn_inv in Hg as [Hg ->].
    assert (Hone : linked (map (fun t => (code, t))
                              (from_option (fun t => [t]) [] (flow_target_at m a)))
                          M M1).
    { unfold flow_target_at. rewrite <- Hi, Hg.
      destruct (body i) as [dest sub|[t|c t|ps s|ps f|r]]; simpl in *;
        try (apply ret_inv in Hstep as [_ <-]; apply linked_nil);
        now apply linked_one. }
    apply IH in H; [|destruct Hone as (_ & _ & _ & -> & _); exact Hi].
    pose proof (linked_trans _ _ _ _ _ Hone H) as Hall.
    simpl. destruct (flow_target_at m a); simpl in *; exact Hall.
Qed.

(** The second loop of [ir_func_recalc_flow]. *)
Lemma recalc_blocks (m : memory) (L : list addr) :
  forall M M',
    heap_insn M = heap_insn m ->
    (forall c, insns_of M c = insns_of m c) ->
    foreach L (fun code =>
      c <- get_code code ;;
      foreach (insns c) (fun insn =>
        i <- get_insn insn ;;
        match body i with
        | expr _ _ => ret tt
        | flow f =>
            match f_jump_target f with
            | Some target =>
                set_pred target (set_add code) ;;;
                set_succ code (set_add target)
            | None => ret tt
            end
        end)) M = Done tt M' ->
    linked (flat_map (flow_edges m) L) M M' /\
    forall c, c ∈ L -> is_Some (heap_code M !! c).
Proof.
  induction L as [|code L IH]; intros M M' Hi Hins H; simpl in H.
  - apply ret_inv in H as [_ <-]. split; [apply linked_nil|].
    intros c Hc. inversion Hc.
  - apply bind_inv in H as ([] & M1 & Hstep & H).
    apply bind_inv in Hstep as (c & M0 & Hg & Hstep).
    apply get_code_inv in Hg as [Hg ->].
    apply (recalc_block m) in Hstep; [|exact Hi].
    assert (Hl : insns c = insns_of m code)
      by (rewrite <- Hins; unfold insns_of; now rewrite Hg).
    rewrite Hl in Hstep.
    apply IH in H as [Hrest Hlive].
    + split; [exact (linked_trans _ _ _ _ _ Hstep Hrest)|].
      intros b Hb. apply elem_of_cons in Hb as [->|Hb]; [eauto|].
      apply (linked_live _ _ _ _ Hstep), Hlive, Hb.
    + destruct Hstep as (_ & _ & _ & -> & _). exact Hi.
    + intros b. now rewrite (linked_insns_of _ _ _ _ Hstep).
Qed.

(** The first loop of [ir_func_recalc_flow]. *)
Lemma recalc_clear (L : list addr) :
  forall M M',
    foreach L (fun code =>
      set_pred code (fun _ => PTR_SET_EMPTY) ;;;
      set_succ code (fun _ => PTR_SET_EMPTY)) M = Done tt M' ->
    func M' = func M /\ brk M' = brk M /\ heap_var M' = heap_var M /\
    heap_insn M' = heap_insn M /\
    forall c, heap_code M' !! c
              = (if bool_decide (c ∈ L) then unlinked else id)
                <$> heap_code M !! c.
Proof.
  induction L as [|code L IH]; intros M M' H; simpl in H.
  - apply ret_inv in H as [_ <-]. do 4 (split; [reflexivity|]). intros c.
    rewrite bool_decide_eq_false_2 by (intros Hc; inversion Hc).
    now destruct (heap_code M !! c).
  - apply bind_inv in H as ([] & M1 & Hstep & H).
    apply bind_inv in Hstep as ([] & M0 & Hp & Hs).
    apply set_pred_inv in Hp as [_ ->]. apply set_succ_inv in Hs as [_ ->].
    apply IH in H as (Hf & Hb & Hv & Hi & Hc).
    cbn [func brk heap_var heap_code heap_insn with_code] in *.
    do 4 (split; [assumption|]). intros c. rewrite Hc, !lookup_alter.
    destruct (decide (code = c)) as [->|Hne].
    + rewrite (bool_decide_eq_true_2 (c ∈ c :: L)) by set_solver.
      rewrite !decide_True by reflexivity.
      destruct (heap_code M !! c) as [[]|]; simpl; [|reflexivity].
      now destruct (bool_decide (c ∈ L)).
    + destruct (decide (c ∈ L)).
      * rewrite !bool_decide_eq_true_2 by set_solver. reflexivity.
      * rewrite !bool_decide_eq_false_2 by set_solver. reflexivity.
Qed.

Lemma flow_edges_spec (m : memory) (L : list addr) (p t : addr) :
  (p, t) ∈ flat_map (flow_edges m) L <->
  p ∈ L /\ exists insn, insn ∈ insns_of m p /\ flow_target_at m insn = Some t.
Proof.
  rewrite list_elem_of_In, in_flat_map. split.
  - intros (c & Hc & Hin). apply list_elem_of_In in Hc, Hin.
    unfold flow_edges in Hin. apply list_elem_of_fmap in Hin as (t' & [= <- <-] & Ht).
    apply list_elem_of_omap in Ht as (insn & Hinsn & Ht). eauto.
  - intros (Hp & insn & Hinsn & Ht). exists p.
    split; [now apply list_elem_of_In|]. apply list_elem_of_In.
    unfold flow_edges. apply list_elem_of_fmap. exists t. split; [reflexivity|].
    apply list_elem_of_omap. eauto.
Qed.

Lemma link_all_succ (E : list (addr * addr)) (c t : addr) (b : ir_code_t) :
  t ∈ succ (link_all E c b) <-> t ∈ succ b \/ (c, t) ∈ E.
Proof.
  unfold link_all. simpl.
  rewrite elem_of_union, elem_of_list_to_set, list_elem_of_fmap. split.
  - intros [H|([p t'] & -> & Hin)]; [now left|]. right.
    apply list_elem_of_filter in Hin as [Hp Hin]. simpl in *. now subst.
  - intros [H|Hin]; [now left|]. right. exists (c, t). split; [reflexivity|].
    now apply list_elem_of_filter.
Qed.

Lemma link_all_pred (E : list (addr * addr)) (c p : addr) (b : ir_code_t) :
  p ∈ pred (link_all E c b) <-> p ∈ pred b \/ (p, c) ∈ E.
Proof.
  unfold link_all. simpl.
  rewrite elem_of_union, elem_of_list_to_set, list_elem_of_fmap. split.
  - intros [H|([p' t] & -> & Hin)]; [now left|]. right.
    apply list_elem_of_filter in Hin as [Hp Hin]. simpl in *. now subst.
  - intros [H|Hin]; [now left|]. right. exists (p, c). split; [reflexivity|].
    now apply list_elem_of_filter.
Qed.

(** What [ir_func_recalc_flow] has done when it returns: the listed
    blocks were live, the function record, the variables and the
    instructions are as they were, and each block is what it was, cleared
    when it is listed, with the flow edges of the listed blocks entered. *)
Lemma recalc_flow_effect (m m' : memory) :
  ir_func_recalc_flow m = Done tt m' ->
  func m' = func m /\ heap_var m' = heap_var m /\ heap_insn m' = heap_insn m /\
  (forall c, c ∈ code_list (func m) -> is_Some (heap_code m !! c)) /\
  forall c, heap_code m' !! c
            = link_all (flat_map (flow_edges m) (code_list (func m))) c
              <$> ((if bool_decide (c ∈ code_list (func m))
                    then unlinked else id) <$> heap_code m !! c).
Proof.
  intros H. unfold ir_func_recalc_flow in H.
  unfold bind_M at 1, get_func at 1 in H.
  apply bind_inv in H as ([] & M1 & Hclear & H).
  apply recalc_clear in Hclear as (Hf1 & Hb1 & Hv1 & Hi1 & Hc1).
  unfold bind_M at 1, get_func at 1 in H. rewrite Hf1 in H.
  assert (Hins1 : forall c, insns_of M1 c = insns_of m c).
  { intros c. unfold insns_of. rewrite Hc1.
    destruct (heap_code m !! c); [|reflexivity]. now case_bool_decide. }
  apply (recalc_blocks m) in H as [(Hf & Hb & Hv & Hi & Hc) Hlive];
    [|exact Hi1|exact Hins1].
  split; [congruence|]. split; [congruence|]. split; [congruence|]. split.
  - intros c Hin. specialize (Hlive c Hin). rewrite Hc1 in Hlive.
    now apply fmap_is_Some in Hlive.
  - intros c. now rewrite Hc, Hc1.
Qed.

(** The same, block by block. *)
Lemma recalc_flow_block (m m' : memory) :
  ir_func_recalc_flow m = Done tt m' ->
  forall c b', heap_code m' !! c = Some b' ->
    exists b,
      heap_code m !! c = Some b /\
      code_name b' = code_name b /\ insns b' = insns b /\
      visited b' = visited b /\ dfs_index b' = dfs_index b /\
      (forall t, t ∈ succ b' <->
         (c ∉ code_list (func m) /\ t ∈ succ b) \/
         (c ∈ code_list (func m) /\
          exists insn, insn ∈ insns b /\ flow_target_at m insn = Some t)) /\
      (forall p, p ∈ pred b' <->
         (c ∉ code_list (func m) /\ p ∈ pred b) \/
         (p ∈ code_list (func m) /\
          exists insn, insn ∈ insns_of m p /\ flow_target_at m insn = Some c)).
Proof.
  intros H c b' Hb'.
  apply recalc_flow_effect in H as (_ & _ & _ & _ & Hc). rewrite Hc in Hb'.
  destruct (heap_code m !! c) as [b|] eqn:Hbc; [|discriminate].
  exists b. split; [reflexivity|]. simpl in Hb'. injection Hb' as <-.
  assert (Hown : insns_of m c = insns b) by (unfold insns_of; now rewrite Hbc).
  split; [now case_bool_decide|]. split; [now case_bool_decide|].
  split; [now case_bool_decide|]. split; [now case_bool_decide|]. split.
  - intros t. rewrite link_all_succ, flow_edges_spec, Hown.
    case_bool_decide; simpl; rewrite ?elem_of_empty; tauto.
  - intros p. rewrite link_all_pred, flow_edges_spec.
    case_bool_decide; simpl; rewrite ?elem_of_empty; tauto.
Qed.

(** *** [ir_func_recalc_flow] returns *)

Lemma set_pred_returns (c : addr) (f : gset addr -> gset addr) (M : memory) :
  is_Some (heap_code M !! c) ->
  set_pred c f M = Done tt (with_code M (alter (upd_pred f) c (heap_code M))).
Proof.
  intros [x Hx]. unfold set_pred, bind_M, get_code. rewrite Hx.
  unfold put_code, with_code. do 2 f_equal.
  apply (insert_as_alter _ _ _ (upd_pred f) Hx).
Qed.

Lemma set_succ_returns (c : addr) (f : gset addr -> gset addr) (M : memory) :
  is_Some (heap_code M !! c) ->
  set_succ c f M = Done tt (with_code M (alter (upd_succ f) c (heap_code M))).
Proof.
  intros [x Hx]. unfold set_succ, bind_M, get_code. rewrite Hx.
  unfold put_code, with_code. do 2 f_equal.
  apply (insert_as_alter _ _ _ (upd_succ f) Hx).
Qed.

Lemma alter_live (f : ir_code_t -> ir_code_t) (c a : addr)
    (h : gmap N ir_code_t) :
  is_Some (alter f c h !! a) <-> is_Some (h !! a).
Proof.
  rewrite lookup_alter. case_decide; [subst; apply fmap_is_Some | reflexivity].
Qed.

Lemma set_both_returns (a b : addr) (f g : gset addr -> gset addr)
    (M : memory) :
  is_Some (heap_code M !! a) -> is_Some (heap_code M !! b) ->
  exists M', (set_pred a f ;;; set_succ b g) M = Done tt M'.
Proof.
  intros Ha Hb. rewrite (bind_Done _ _ _ _ _ (set_pred_returns a f M Ha)).
  rewrite set_succ_returns; [eauto|].
  cbn [heap_code with_code]. now apply alter_live.
Qed.

Lemma recalc_block_returns (m : memory) (code : addr) (l : list addr) :
  is_Some (heap_code m !! code) ->
  (forall insn, insn ∈ l ->
     is_Some (heap_insn m !! insn) /\
     forall t, jump_or_branch_at m insn t -> is_Some (heap_code m !! t)) ->
  forall M,
    heap_insn M = heap_insn m ->
    (forall c, is_Some (heap_code M !! c) <-> is_Some (heap_code m !! c)) ->
    exists M',
      foreach l (fun insn =>
        i <- get_insn insn ;;
        match body i with
        | expr _ _ => ret tt
        | flow f =>
            match f_jump_target f with
            | Some target =>
                set_pred target (set_add code) ;;;
                set_succ code (set_add target)
            | None => ret tt
            end
        end) M = Done tt M'.
Proof.
  intros Hcode. induction l as [|a l IH]; intros Hl M Hi Hdom; simpl.
  - eexists. reflexivity.
  - destruct (Hl a) as [[i Ha] Ht]; [left|].
    assert (Hstep : exists E M1,
      (i <- get_insn a ;;
       match body i with
       | expr _ _ => ret tt
       | flow f =>
           match f_jump_target f with
           | Some target =>
               set_pred target (set_add code) ;;;
               set_succ code (set_add target)
           | None => ret tt
           end
       end) M = Done tt M1 /\ linked E M M1).
    { assert (Hg : get_insn a M = Done i M)
        by (unfold get_insn; now rewrite Hi, Ha).
      rewrite (bind_Done _ _ _ _ _ Hg).
      destruct (body i) as [dest sub|[t|c t|ps s|ps f|r]] eqn:Hbody;
        cbn [f_jump_target];
        try (exists [], M; split; [reflexivity | apply linked_nil]).
      - destruct (set_both_returns t code (set_add code) (set_add t) M)
          as [M1 H1].
        + apply Hdom, Ht. exists i. split; [exact Ha | now left].
        + now apply Hdom.
        + exists [(code, t)], M1. split; [exact H1 | now apply linked_one].
      - destruct (set_both_returns t code (set_add code) (set_add t) M)
          as [M1 H1].
        + apply Hdom, Ht. exists i. split; [exact Ha | right; now exists c].
        + now apply Hdom.
        + exists [(code, t)], M1. split; [exact H1 | now apply linked_one]. }
    destruct Hstep as (E & M1 & Hstep & Hlink).
    rewrite (bind_Done _ _ _ _ _ Hstep).
    apply IH.
    + intros insn Hin. apply Hl. now right.
    + destruct Hlink as (_ & _ & _ & -> & _). exact Hi.
    + intros c. rewrite (linked_live _ _ _ c Hlink). apply Hdom.
Qed.

Lemma recalc_blocks_returns (m : memory) (L : list addr) :
  (forall c, c ∈ L ->
     is_Some (heap_code m !! c) /\
     forall insn, insn ∈ insns_of m c ->
       is_Some (heap_insn m !! insn) /\
       forall t, jump_or_branch_at m insn t -> is_Some (heap_code m !! t)) ->
  forall M,
    heap_insn M = heap_insn m ->
    (forall c, is_Some (heap_code M !! c) <-> is_Some (heap_code m !! c)) ->
    (forall c, insns_of M c = insns_of m c) ->
    exists M',
      foreach L (fun code =>
        c <- get_code code ;;
        foreach (insns c) (fun insn =>
          i <- get_insn insn ;;
          match body i with
          | expr _ _ => ret tt
          | flow f =>
              match f_jump_target f with
              | Some target =>
                  set_pred target (set_add code) ;;;
                  set_succ code (set_add target)
              | None => ret tt
              end
          end)) M = Done tt M'.
Proof.
  induction L as [|code L IH]; intros HL M Hi Hdom Hins; simpl.
  - eexists. reflexivity.
  - destruct (HL code) as [Hcode Hl]; [left|].
    destruct (proj2 (Hdom code) Hcode) as [c Hc].
    assert (Hg : get_code code M = Done c M)
      by (unfold get_code; now rewrite Hc).
    assert (Hown : insns c = insns_of m code)
      by (rewrite <- Hins; unfold insns_of; now rewrite Hc).
    unfold bind_M at 1. rewrite (bind_Done _ _ _ _ _ Hg), Hown.
    destruct (recalc_block_returns m code (insns_of m code) Hcode Hl M Hi Hdom)
      as [M1 H1].
    rewrite H1. pose proof (recalc_block m code _ M M1 Hi H1) as Hlink.
    apply IH.
    + intros b Hb. apply HL. now right.
    + destruct Hlink as (_ & _ & _ & -> & _). exact Hi.
    + intros b. rewrite (linked_live _ _ _ b Hlink). apply Hdom.
    + intros b. now rewrite (linked_insns_of _ _ _ _ Hlink).
Qed.

Lemma recalc_clear_returns (L : list addr) :
  forall M,
    (forall c, c ∈ L -> is_Some (heap_code M !! c)) ->
    exists M',
      foreach L (fun code =>
        set_pred code (fun _ => PTR_SET_EMPTY) ;;;
        set_succ code (fun _ => PTR_SET_EMPTY)) M = Done tt M'.
Proof.
  induction L as [|code L IH]; intros M HL; simpl.
  - eexists. reflexivity.
  - assert (Hcode : is_Some (heap_code M !! code)) by (apply HL; left).
    destruct (set_both_returns code code (fun _ => PTR_SET_EMPTY)
                (fun _ => PTR_SET_EMPTY) M Hcode Hcode) as [M1 H1].
    rewrite (bind_Done _ _ _ _ _ H1). apply IH. intros c Hc.
    apply bind_inv in H1 as ([] & M0 & Hp & Hs).
    apply set_pred_inv in Hp as [_ ->]. apply set_succ_inv in Hs as [_ ->].
    cbn [heap_code with_code]. rewrite !alter_live. apply HL. now right.
Qed.

Lemma recalc_flow_returns (m : memory) :
  flow_live m -> exists m', ir_func_recalc_flow m = Done tt m'.
Proof.
  intros Hlive. unfold ir_func_recalc_flow.
  unfold bind_M at 1, get_func at 1.
  destruct (recalc_clear_returns (code_list (func m)) m) as [M1 H1].
  { intros c Hc. now apply Hlive. }
  rewrite (bind_Done _ _ _ _ _ H1).
  apply recalc_clear in H1 as (Hf1 & _ & _ & Hi1 & Hc1).
  unfold bind_M at 1, get_func at 1. rewrite Hf1.
  apply (recalc_blocks_returns m).
  - exact Hlive.
  - exact Hi1.
  - intros c. rewrite Hc1. apply fmap_is_Some.
  - intros c. unfold insns_of. rewrite Hc1.
    destruct (heap_code m !! c); [|reflexivity]. now case_bool_decide.
Qed.

(** C7.  On a function whose listed blocks are live, with the
    instructions in their lists and the targets of the jumps and branches
    among them, [ir_func_recalc_flow] returns.  It leaves the function
    record, the variables and the instructions as they were, and every
    block live with the instruction list it had.  Afterwards the successor
    set of a listed block holds exactly the targets of the jumps and of
    the branches in its instruction list, and its predecessor set exactly
    the listed blocks that hold a jump or a branch to it: what the two
    sets held before is gone, and nothing else has been entered.  A block
    that is not on the function's list is not cleared: it keeps its
    successors, and its predecessors gain the listed blocks that lead to
    it. *)
Theorem recalc_flow_enters_jumps_and_branches (m : memory) :
  flow_live m ->
  exists m',
    ir_func_recalc_flow m = Done tt m' /\
    func m' = func m /\ heap_var m' = heap_var m /\
    heap_insn m' = heap_insn m /\
    (forall c, is_Some (heap_code m' !! c) <-> is_Some (heap_code m !! c)) /\
    (forall c, insns_of m' c = insns_of m c) /\
    (forall c, c ∈ code_list (func m) ->
       (forall t, t ∈ succ_of m' c <->
          exists insn, insn ∈ insns_of m c /\ jump_or_branch_at m insn t) /\
       (forall p, p ∈ pred_of m' c <->
          p ∈ code_list (func m) /\
          exists insn, insn ∈ insns_of m p /\ jump_or_branch_at m insn c)) /\
    (forall c, c ∉ code_list (func m) ->
       succ_of m' c = succ_of m c /\
       (forall p, p ∈ pred_of m' c <->
          p ∈ pred_of m c \/
          (p ∈ code_list (func m) /\
           exists insn, insn ∈ insns_of m p /\ jump_or_branch_at m insn c))).
Proof.
  intros Hlive. destruct (recalc_flow_returns m Hlive) as [m' Hrun].
  exists m'. split; [exact Hrun|].
  destruct (recalc_flow_effect m m' Hrun) as (Hf & Hv & Hi & _ & Hc).
  pose proof (recalc_flow_block m m' Hrun) as Hblock.
  assert (Hdom : forall c,
            is_Some (heap_code m' !! c) <-> is_Some (heap_code m !! c))
    by (intros c; rewrite Hc, !fmap_is_Some; reflexivity).
  do 3 (split; [assumption|]). split; [exact Hdom|]. split; [|split].
  - intros c. unfold insns_of. rewrite Hc.
    destruct (heap_code m !! c); [|reflexivity]. now case_bool_decide.
  - intros c Hin. destruct (Hlive c Hin) as [Hlc _].
    destruct (proj2 (Hdom c) Hlc) as [b' Hb'].
    destruct (Hblock c b' Hb') as (b & Hb & _ & _ & _ & _ & Hs & Hp).
    unfold succ_of, pred_of. rewrite Hb'.
    assert (Hown : insns_of m c = insns b) by (unfold insns_of; now rewrite Hb).
    rewrite Hown. split.
    + intros t. rewrite Hs. split.
      * intros [[Hn _]|(_ & insn & Hx & Ht)]; [contradiction|].
        exists insn. split; [exact Hx | now apply flow_target_at_spec].
      * intros (insn & Hx & Ht). right. split; [exact Hin|].
        exists insn. split; [exact Hx | now apply flow_target_at_spec].
    + intros p. rewrite Hp. split.
      * intros [[Hn _]|(Hpl & insn & Hx & Ht)]; [contradiction|].
        split; [exact Hpl|].
        exists insn. split; [exact Hx | now apply flow_target_at_spec].
      * intros (Hpl & insn & Hx & Ht). right. split; [exact Hpl|].
        exists insn. split; [exact Hx | now apply flow_target_at_spec].
  - intros c Hnot. unfold succ_of, pred_of.
    destruct (heap_code m' !! c) as [b'|] eqn:Hb'.
    + destruct (Hblock c b' Hb') as (b & Hb & _ & _ & _ & _ & Hs & Hp).
      rewrite Hb. split.
      * apply set_eq. intros t. rewrite Hs. split.
        -- intros [[_ Ht]|[Hin _]]; [exact Ht | contradiction].
        -- intros Ht. left. now split.
      * intros p. rewrite Hp. split.
        -- intros [[_ Hx]|(Hpl & insn & Hx & Ht)]; [now left|]. right.
           split; [exact Hpl|].
           exists insn. split; [exact Hx | now apply flow_target_at_spec].
        -- intros [Hx|(Hpl & insn & Hx & Ht)]; [left; now split|]. right.
           split; [exact Hpl|].
           exists insn. split; [exact Hx | now apply flow_target_at_spec].
    + assert (Hdead : heap_code m !! c = None).
      { apply eq_None_not_Some. intros Hl. apply Hdom in Hl.
        rewrite Hb' in Hl. now destruct Hl. }
      rewrite Hdead. split; [reflexivity|]. intros p. split.
      * intros Hx. now apply elem_of_empty in Hx.
      * intros [Hx|(Hpl & insn & Hx & Ht)]; [exact Hx|]. exfalso.
        destruct (Hlive p Hpl) as [_ Hl]. destruct (Hl insn Hx) as [_ Htl].
        apply Htl in Ht. rewrite Hdead in Ht. now destruct Ht.
Qed.

Lemma recalc_flow_enters_jumps_and_branches_witness :
  let m := memory_after (branch_function no_memory) in
  flow_live m /\
  exists m', ir_func_recalc_flow m = Done tt m' /\
             2 ∈ succ_of m' 1 /\ 1 ∈ pred_of m' 2.
Proof.
  intros m.
  assert (Hlist : code_list (func m) = [1; 2]) by (vm_compute; reflexivity).
  assert (Hl1 : insns_of m 1 = [3]) by (vm_compute; reflexivity).
  assert (Hl2 : insns_of m 2 = [4]) by (vm_compute; reflexivity).
  assert (H3 : flow_target_at m 3 = Some 2) by (vm_compute; reflexivity).
  assert (H4 : flow_target_at m 4 = None) by (vm_compute; reflexivity).
  assert (Hlive : flow_live m).
  { intros c Hc. rewrite Hlist in Hc.
    apply elem_of_cons in Hc as [->|Hc];
      [|apply list_elem_of_singleton in Hc as ->].
    - split; [vm_compute; eauto|]. intros insn Hin. rewrite Hl1 in Hin.
      apply list_elem_of_singleton in Hin as ->.
      split; [vm_compute; eauto|]. intros t Ht%flow_target_at_spec.
      rewrite H3 in Ht. injection Ht as <-. vm_compute. eauto.
    - split; [vm_compute; eauto|]. intros insn Hin. rewrite Hl2 in Hin.
      apply list_elem_of_singleton in Hin as ->.
      split; [vm_compute; eauto|]. intros t Ht%flow_target_at_spec.
      rewrite H4 in Ht. discriminate Ht. }
  split; [exact Hlive|].
  destruct (recalc_flow_enters_jumps_and_branches m Hlive)
    as (m' & Hrun & _ & _ & _ & _ & _ & Hlisted & _).
  exists m'. split; [exact Hrun|].
  assert (Hedge : jump_or_branch_at m 3 2) by now apply flow_target_at_spec.
  split.
  - apply (Hlisted 1); [rewrite Hlist; left|].
    exists 3. split; [rewrite Hl1; left | exact Hedge].
  - apply (Hlisted 2); [rewrite Hlist; right; left|].
    split; [rewrite Hlist; left|].
    exists 3. split; [rewrite Hl1; left | exact Hedge].
Defined.

Lemma no_branch_target (m : memory) (insn t : addr) :
  ~ branch_at m insn ->
  flow_target_at m insn = Some t <-> jump_target_at m insn = Some t.
Proof.
  intros Hnone. unfold flow_target_at, jump_target_at.
  destruct (heap_insn m !! insn) as [i|] eqn:Hi; [|reflexivity].
  destruct (body i) as [dest sub|[t'|c t'|ps s|ps f|r]] eqn:Hb; simpl;
    try reflexivity.
  exfalso. apply Hnone. now exists i, c, t'.
Qed.

(** Whenever [ir_func_recalc_flow] returns on a function whose listed
    blocks hold no branch, variables and instructions are untouched, the
    listed blocks were live, and every block keeps its name and
    instruction list.  The successor set of a listed block is exactly the
    set of targets of the jumps in its list, and its predecessor set
    exactly the set of listed blocks with a jump to it; a block that is not
    listed keeps what it had and gains the listed blocks that jump to it.
    When every live block is listed, predecessors and successors are
    symmetric afterwards. *)
Theorem ir_func_recalc_flow_jumps (m m' : memory) :
  (forall c insn, c ∈ code_list (func m) -> insn ∈ insns_of m c ->
                  ~ branch_at m insn) ->
  ir_func_recalc_flow m = Done tt m' ->
  func m' = func m /\ heap_var m' = heap_var m /\ heap_insn m' = heap_insn m /\
  (forall c, c ∈ code_list (func m) -> is_Some (heap_code m !! c)) /\
  (forall c b', heap_code m' !! c = Some b' ->
     exists b,
       heap_code m !! c = Some b /\
       code_name b' = code_name b /\ insns b' = insns b /\
       (forall t, t ∈ succ b' <->
          (c ∉ code_list (func m) /\ t ∈ succ b) \/
          (c ∈ code_list (func m) /\
           exists insn, insn ∈ insns b /\ jump_target_at m insn = Some t)) /\
       (forall p, p ∈ pred b' <->
          (c ∉ code_list (func m) /\ p ∈ pred b) \/
          (p ∈ code_list (func m) /\
           exists insn, insn ∈ insns_of m p /\
                        jump_target_at m insn = Some c))) /\
  ((forall c, is_Some (heap_code m !! c) -> c ∈ code_list (func m)) ->
   flow_symmetric m').
Proof.
  intros Hnone H.
  destruct (recalc_flow_effect m m' H) as (Hf & Hv & Hi & Hlive & _).
  pose proof (recalc_flow_block m m' H) as Hflow.
  assert (Hblock : forall c b', heap_code m' !! c = Some b' ->
     exists b,
       heap_code m !! c = Some b /\
       code_name b' = code_name b /\ insns b' = insns b /\
       (forall t, t ∈ succ b' <->
          (c ∉ code_list (func m) /\ t ∈ succ b) \/
          (c ∈ code_list (func m) /\
           exists insn, insn ∈ insns b /\ jump_target_at m insn = Some t)) /\
       (forall p, p ∈ pred b' <->
          (c ∉ code_list (func m) /\ p ∈ pred b) \/
          (p ∈ code_list (func m) /\
           exists insn, insn ∈ insns_of m p /\
                        jump_target_at m insn = Some c))).
  { intros c b' Hb'.
    destruct (Hflow c b' Hb') as (b & Hb & Hn & Hl & _ & _ & Hs & Hp).
    exists b. do 3 (split; [assumption|]).
    assert (Hown : insns_of m c = insns b) by (unfold insns_of; now rewrite Hb).
    split.
    - intros t. rewrite Hs. split.
      + intros [Hx|(Hin & insn & Hx & Ht)]; [now left|]. right.
        split; [exact Hin|]. exists insn. split; [exact Hx|].
        apply (no_branch_target m insn t); [|exact Ht].
        apply (Hnone c insn Hin). now rewrite Hown.
      + intros [Hx|(Hin & insn & Hx & Ht)]; [now left|]. right.
        split; [exact Hin|]. exists insn. split; [exact Hx|].
        apply (no_branch_target m insn t); [|exact Ht].
        apply (Hnone c insn Hin). now rewrite Hown.
    - intros p. rewrite Hp. split.
      + intros [Hx|(Hin & insn & Hx & Ht)]; [now left|]. right.
        split; [exact Hin|]. exists insn. split; [exact Hx|].
        apply (no_branch_target m insn c); [|exact Ht].
        exact (Hnone p insn Hin Hx).
      + intros [Hx|(Hin & insn & Hx & Ht)]; [now left|]. right.
        split; [exact Hin|]. exists insn. split; [exact Hx|].
        apply (no_branch_target m insn c); [|exact Ht].
        exact (Hnone p insn Hin Hx). }
  split; [exact Hf|]. split; [exact Hv|]. split; [exact Hi|].
  split; [exact Hlive|]. split; [exact Hblock|].
  intros Hall a b ca' cb' Ha Hb'.
  destruct (Hblock a ca' Ha) as (ca & Hca & _ & Hia & Hsucc & _).
  destruct (Hblock b cb' Hb') as (cb & Hcb & _ & _ & _ & Hpred).
  rewrite Hsucc, Hpred.
  assert (Hown : insns_of m a = insns ca) by (unfold insns_of; now rewrite Hca).
  rewrite Hown.
  pose proof (Hall a (mk_is_Some _ _ Hca)). pose proof (Hall b (mk_is_Some _ _ Hcb)).
  tauto.
Qed.

Lemma ir_func_recalc_flow_jumps_witness :
  let m := memory_after (counter_function no_memory) in
  let m' := memory_after (ir_func_recalc_flow m) in
  ir_func_recalc_flow m = Done tt m' /\ flow_symmetric m'.
Proof.
  intros m m'.
  assert (Hrun : ir_func_recalc_flow m = Done tt m') by (vm_compute; reflexivity).
  split; [exact Hrun|].
  assert (Hlist : code_list (func m) = [1; 3]) by (vm_compute; reflexivity).
  assert (Hnone : forall c insn, c ∈ code_list (func m) -> insn ∈ insns_of m c ->
                                 ~ branch_at m insn).
  { intros c insn Hc Hin (i & cond & t & Hi & Hb). rewrite Hlist in Hc.
    assert (Hinsn : insn ∈ [4; 5; 6; 7]).
    { apply elem_of_cons in Hc as [->|Hc];
        [|apply list_elem_of_singleton in Hc as ->].
      - assert (Hl : insns_of m 1 = [4; 5]) by (vm_compute; reflexivity).
        rewrite Hl in Hin. apply elem_of_cons in Hin as [->|Hin].
        + repeat constructor.
        + apply list_elem_of_singleton in Hin as ->. repeat constructor.
      - assert (Hl : insns_of m 3 = [6; 7]) by (vm_compute; reflexivity).
        rewrite Hl in Hin. apply elem_of_cons in Hin as [->|Hin].
        + repeat constructor.
        + apply list_elem_of_singleton in Hin as ->. repeat constructor. }
    assert (Hbodies : forall j, j ∈ [4; 5; 6; 7] ->
               forall y, heap_insn m !! j = Some y ->
               forall cond' t', body y <> flow (f_branch cond' t')).
    { intros j Hj.
      repeat (apply elem_of_cons in Hj as [->|Hj];
              [intros y Hy cond' t'; vm_compute in Hy; injection Hy as <-;
               discriminate|]).
      inversion Hj. }
    exact (Hbodies insn Hinsn i Hi cond t Hb). }
  destruct (ir_func_recalc_flow_jumps m m' Hnone Hrun) as (_ & _ & _ & _ & _ & Hsym).
  apply Hsym. intros c [b Hb]. rewrite Hlist.
  assert (Hkeys : (map_to_list (heap_code m)).*1 = [3; 1])
    by (vm_compute; reflexivity).
  assert (Hc : c ∈ (map_to_list (heap_code m)).*1).
  { apply list_elem_of_fmap. exists (c, b).
    split; [reflexivity | now apply elem_of_map_to_list]. }
  rewrite Hkeys in Hc.
  apply elem_of_cons in Hc as [->|Hc];
    [|apply list_elem_of_singleton in Hc as ->]; repeat constructor.
Defined.

(** ** The optimizer only deletes *)

Lemma shrinks_refl (m : memory) : shrinks m m.
Proof. split; auto. Qed.

Lemma shrinks_trans (m1 m2 m3 : memory) :
  shrinks m1 m2 -> shrinks m2 m3 -> shrinks m1 m3.
Proof.
  intros [] []. split; try congruence; auto.
Qed.

Lemma od_ret {A} (a : A) : only_deletes (ret a).
Proof. intros m b m' H. apply ret_inv in H as [_ <-]. apply shrinks_refl. Qed.

Lemma od_abort {A} (b : bug) : only_deletes (@abort A b).
Proof. intros m a m' H. discriminate H. Qed.

Lemma od_wild {A} : only_deletes (@wild A).
Proof. intros m a m' H. discriminate H. Qed.

Lemma od_timeout {A} : only_deletes (@timeout A).
Proof. intros m a m' H. discriminate H. Qed.

Lemma od_bind {A B} (c : M A) (k : A -> M B) :
  only_deletes c -> (forall a, only_deletes (k a)) -> only_deletes (bind_M c k).
Proof.
  intros Hc Hk m b m' H. apply bind_inv in H as (a & m1 & H1 & H2).
  eapply shrinks_trans; [eapply Hc | eapply Hk]; eassumption.
Qed.

Lemma od_reads {A} (c : M A) : reads_only c -> only_deletes c.
Proof. intros Hr m a m' H. rewrite (Hr m a m' H). apply shrinks_refl. Qed.

Lemma od_foreach {A} (l : list A) (f : A -> M unit) :
  (forall a, only_deletes (f a)) -> only_deletes (foreach l f).
Proof.
  intros Hf. induction l as [|a l IH]; simpl; [apply od_ret|].
  apply od_bind; [apply Hf | intros _; exact IH].
Qed.

Lemma od_when (b : bool) (c : M unit) : only_deletes c -> only_deletes (when b c).
Proof. destruct b; [easy | intros _; apply od_ret]. Qed.

Ltac od_prim :=
  let m := fresh "m" in
  let a := fresh "a" in
  let m' := fresh "m'" in
  let H := fresh "H" in
  intros m a m' H;
  unfold set_used_at, set_assigned_at, set_insns, set_pred, set_succ,
    set_visited, set_parent, set_body, set_code_list, set_vars_list,
    free_insn, free_code, free_var, bind_M, get_var, get_code, get_insn,
    get_func, set_func, put_var, put_code, put_insn in H;
  repeat match type of H with
         | context [match ?x with Some _ => _ | None => _ end] =>
             let E := fresh "E" in destruct x eqn:E; try discriminate H
         end;
  injection H as <- <-; split; simpl; try reflexivity;
  unfold dlist_remove;
  first
    [ intros ? ?; assumption
    | intros ? ?%list_elem_of_filter; tauto
    | intros ?; rewrite ?lookup_insert, ?lookup_delete;
      case_decide; subst; eauto; intros [? ?]; discriminate ].

Lemma od_set_used_at (v : addr) (f : gset addr -> gset addr) :
  only_deletes (set_used_at v f).
Proof. od_prim. Qed.

Lemma od_set_assigned_at (v : addr) (f : list addr -> list addr) :
  only_deletes (set_assigned_at v f).
Proof. od_prim. Qed.

Lemma od_set_insns (c : addr) (f : list addr -> list addr) :
  only_deletes (set_insns c f).
Proof. od_prim. Qed.

Lemma od_set_pred (c : addr) (f : gset addr -> gset addr) :
  only_deletes (set_pred c f).
Proof. od_prim. Qed.

Lemma od_set_succ (c : addr) (f : gset addr -> gset addr) :
  only_deletes (set_succ c f).
Proof. od_prim. Qed.

Lemma od_set_visited (c : addr) (b : bool) : only_deletes (set_visited c b).
Proof. od_prim. Qed.

Lemma od_set_parent (i p : addr) : only_deletes (set_parent i p).
Proof. od_prim. Qed.

Lemma od_set_body (i : addr) (b : ir_insn_body) : only_deletes (set_body i b).
Proof. od_prim. Qed.

Lemma od_free_insn (i : addr) : only_deletes (free_insn i).
Proof. od_prim. Qed.

Lemma od_free_code (c : addr) : only_deletes (free_code c).
Proof. od_prim. Qed.

Lemma od_free_var (v : addr) : only_deletes (free_var v).
Proof. od_prim. Qed.

Lemma od_remove_code (c : addr) : only_deletes (set_code_list (dlist_remove c)).
Proof. od_prim. Qed.

Lemma od_remove_var (v : addr) : only_deletes (set_vars_list (dlist_remove v)).
Proof. od_prim. Qed.

Ltac od_known := fail.

Ltac od :=
  repeat first
    [ apply od_ret | apply od_abort | apply od_wild | apply od_timeout
    | apply od_set_used_at | apply od_set_assigned_at | apply od_set_insns
    | apply od_set_pred | apply od_set_succ | apply od_set_visited
    | apply od_set_parent | apply od_set_body | apply od_free_insn
    | apply od_free_code | apply od_free_var | apply od_remove_code
    | apply od_remove_var
    | apply od_reads, reads_get_var | apply od_reads, reads_get_code
    | apply od_reads, reads_get_insn | apply od_reads, reads_get_func
    | od_known
    | match goal with
      | H : context [only_deletes] |- _ => apply H
      end
    | match goal with
      | |- only_deletes (foreach _ _) => apply od_foreach; intros ?
      | |- only_deletes (when _ _) => apply od_when
      | |- only_deletes (bind_M _ _) => apply od_bind; [|intros ?]
      | |- only_deletes (if ?b then _ else _) => destruct b
      | |- only_deletes (match ?x with _ => _ end) => destruct x
      end ].

Lemma od_use_operand (o : ir_operand_t) (i : addr) :
  only_deletes (use_operand o i).
Proof. unfold use_operand. od. Qed.

Lemma od_unuse_operand (o : ir_operand_t) (i : addr) :
  only_deletes (unuse_operand o i).
Proof. unfold unuse_operand. od. Qed.

Ltac od_known ::= first [apply od_use_operand | apply od_unuse_operand].

Lemma od_ir_insn_delete (insn : addr) : only_deletes (ir_insn_delete insn).
Proof. unfold ir_insn_delete. od. Qed.

Ltac od_known ::=
  first [apply od_use_operand | apply od_unuse_operand | apply od_ir_insn_delete].

Lemma od_ir_var_delete (var : addr) : only_deletes (ir_var_delete var).
Proof. unfold ir_var_delete. od. Qed.

Lemma od_ir_var_replace_insn (var : addr) (value : ir_operand_t) (insn : addr) :
  only_deletes (ir_var_replace_insn var value insn).
Proof. unfold ir_var_replace_insn. od. Qed.

Ltac od_known ::=
  first [ apply od_use_operand | apply od_unuse_operand
        | apply od_ir_insn_delete | apply od_ir_var_delete
        | apply od_ir_var_replace_insn ].

Lemma od_ir_var_replace (var : addr) (value : ir_operand_t) :
  only_deletes (ir_var_replace var value).
Proof. unfold ir_var_replace. od. Qed.

Ltac od_known ::=
  first [ apply od_use_operand | apply od_unuse_operand
        | apply od_ir_insn_delete | apply od_ir_var_delete
        | apply od_ir_var_replace_insn | apply od_ir_var_replace ].

Lemma od_remove_combinator_path (e code : addr) :
  only_deletes (remove_combinator_path e code).
Proof. unfold remove_combinator_path. od. Qed.

Ltac od_known ::=
  first [ apply od_use_operand | apply od_unuse_operand
        | apply od_ir_insn_delete | apply od_ir_var_delete
        | apply od_ir_var_replace_insn | apply od_ir_var_replace
        | apply od_remove_combinator_path ].

Lemma od_ir_code_delete (code : addr) : only_deletes (ir_code_delete code).
Proof. unfold ir_code_delete. od. Qed.

Lemma od_ir_func_recalc_flow : only_deletes ir_func_recalc_flow.
Proof. unfold ir_func_recalc_flow. od. Qed.

Ltac od_known ::=
  first [ apply od_use_operand | apply od_unuse_operand
        | apply od_ir_insn_delete | apply od_ir_var_delete
        | apply od_ir_var_replace_insn | apply od_ir_var_replace
        | apply od_remove_combinator_path | apply od_ir_code_delete
        | apply od_ir_func_recalc_flow ].

Lemma od_merge_code (first second : addr) :
  only_deletes (merge_code first second).
Proof. unfold merge_code. od. Qed.

Ltac od_known ::=
  first [ apply od_use_operand | apply od_unuse_operand
        | apply od_ir_insn_delete | apply od_ir_var_delete
        | apply od_ir_var_replace_insn | apply od_ir_var_replace
        | apply od_remove_combinator_path | apply od_ir_code_delete
        | apply od_ir_func_recalc_flow | apply od_merge_code ].

Section OnlyDeletes.

Variable ir_cast : ir_prim_t -> ir_const_t -> ir_const_t.
Variable ir_calc1 : ir_op1_type_t -> ir_const_t -> ir_const_t.
Variable ir_calc2 : ir_op2_type_t -> ir_const_t -> ir_const_t -> ir_const_t.

Lemma od_unused_vars_sweep (l : list addr) :
  forall loop, only_deletes (unused_vars_sweep l loop).
Proof. induction l as [|v l IH]; intros loop; simpl; od. Qed.

Lemma od_opt_unused_vars (fuel : nat) : only_deletes (opt_unused_vars fuel).
Proof.
  unfold opt_unused_vars. generalize false.
  induction fuel as [|fuel IH]; intros deleted; simpl; [od|].
  apply od_bind; [od|]. intros fn.
  apply od_bind; [apply od_unused_vars_sweep|]. intros loop. od.
Qed.

Lemma od_dead_code_dfs (fuel : nat) :
  forall code, only_deletes (dead_code_dfs fuel code).
Proof.
  induction fuel as [|fuel IH]; intros code; simpl; [od|].
  apply od_bind; [od|]. intros c. destruct (visited c); [od|].
  apply od_bind; [od|]. intros _. apply od_bind; [od|]. intros c'.
  match goal with
  | |- only_deletes (?walk (insns c') false false) =>
      assert (Hwalk : forall l dead changed, only_deletes (walk l dead changed));
        [|apply Hwalk]
  end.
  induction l as [|insn l IHl]; intros dead changed; [od|].
  apply od_bind; [od|]. intros i. destruct dead; [od|].
  destruct (body i) as [dest sub|[t|[k|w] t|ps s|ps f|r]]; od.
Qed.

Lemma od_opt_dead_code (fuel : nat) : only_deletes (opt_dead_code fuel).
Proof.
  unfold opt_dead_code. generalize fuel at 1. generalize false.
  induction fuel as [|fuel IH]; intros changed budget; simpl; [od|].
  apply od_bind.
  - unfold dead_code_round.
    apply od_bind; [od|]. intros fn. apply od_bind; [od|]. intros _.
    apply od_bind; [od|]. intros fn'.
    apply od_bind; [apply od_dead_code_dfs|]. intros loop. od.
  - intros loop. destruct loop; [apply IH | od].
Qed.

Lemma od_const_prop_expr (e : addr) :
  only_deletes (const_prop_expr ir_cast ir_calc1 ir_calc2 e).
Proof. unfold const_prop_expr. od. Qed.

Lemma od_const_prop_sweep (l : list addr) :
  forall loop propagated,
    only_deletes (const_prop_sweep ir_cast ir_calc1 ir_calc2 l loop propagated).
Proof.
  induction l as [|v l IH]; intros loop propagated; simpl; [od|].
  apply od_bind; [od|]. intros x. case_bool_decide; [apply IH|].
  apply od_bind; [apply od_const_prop_expr|]. intros p. apply IH.
Qed.

Lemma od_opt_const_prop (fuel : nat) :
  only_deletes (opt_const_prop ir_cast ir_calc1 ir_calc2 fuel).
Proof.
  unfold opt_const_prop. generalize false.
  induction fuel as [|fuel IH]; intros propagated; simpl; [od|].
  apply od_bind; [od|]. intros fn.
  apply od_bind; [apply od_const_prop_sweep|]. intros [loop p].
  destruct loop; [apply IH | od].
Qed.

Lemma od_branch_opt_while (fuel : nat) :
  forall code changed, only_deletes (branch_opt_while fuel code changed).
Proof.
  induction fuel as [|fuel IH]; intros code changed; simpl; [od|].
  apply od_bind; [od|]. intros c. case_bool_decide; [|od].
  apply od_bind; [od|]. intros sc. case_bool_decide; [|apply IH].
  apply od_bind; [od|]. intros _. apply IH.
Qed.

Lemma od_branch_opt_dfs (fuel : nat) :
  forall code, only_deletes (branch_opt_dfs fuel code).
Proof.
  induction fuel as [|fuel IH]; intros code; simpl; [od|].
  apply od_bind; [od|]. intros c. destruct (visited c); [od|].
  apply od_bind; [od|]. intros _.
  apply od_bind; [apply od_branch_opt_while|]. intros changed.
  apply od_bind; [od|]. intros c'.
  match goal with
  | |- only_deletes (?walk (elements (succ c')) changed) =>
      assert (Hwalk : forall l ch, only_deletes (walk l ch)); [|apply Hwalk]
  end.
  induction l as [|s l IHl]; intros ch0; [od|].
  apply od_bind; [apply IH|]. intros ch. apply IHl.
Qed.

Lemma od_opt_branches (fuel : nat) : only_deletes (opt_branches fuel).
Proof.
  unfold opt_branches. apply od_bind; [od|]. intros fn.
  apply od_bind; [od|]. intros _. apply od_bind; [od|]. intros fn'.
  apply od_branch_opt_dfs.
Qed.

Lemma od_optimize (fuel : nat) :
  only_deletes (optimize ir_cast ir_calc1 ir_calc2 fuel).
Proof.
  unfold optimize. generalize fuel at 1. generalize false.
  induction fuel as [|fuel IH]; intros changed budget; simpl; [od|].
  apply od_bind; [apply od_opt_unused_vars|]. intros l1.
  apply od_bind; [apply od_opt_const_prop|]. intros l2.
  apply od_bind; [apply od_opt_dead_code|]. intros l3.
  apply od_bind; [apply od_opt_branches|]. intros l4.
  od.
Qed.

(** The optimizer only deletes.  Whenever [optimize] or one of its four
    passes returns, the function has the name, the parameter array, the
    entry pointer and the SSA flag it had; its variable list and its
    block list hold nothing they did not hold; nothing has been allocated;
    and every variable, block and instruction that is live was live
    before. *)
Theorem optimize_only_deletes (fuel : nat) (m m' : memory) (r : bool) :
  optimize ir_cast ir_calc1 ir_calc2 fuel m = Done r m' \/
  opt_unused_vars fuel m = Done r m' \/
  opt_const_prop ir_cast ir_calc1 ir_calc2 fuel m = Done r m' \/
  opt_dead_code fuel m = Done r m' \/
  opt_branches fuel m = Done r m' ->
  shrinks m m'.
Proof.
  intros [H|[H|[H|[H|H]]]].
  - exact (od_optimize fuel m r m' H).
  - exact (od_opt_unused_vars fuel m r m' H).
  - exact (od_opt_const_prop fuel m r m' H).
  - exact (od_opt_dead_code fuel m r m' H).
  - exact (od_opt_branches fuel m r m' H).
Qed.

End OnlyDeletes.

(** The deleting and replacing functions of the IR only delete: whenever
    [ir_insn_delete], [ir_var_delete], [ir_var_replace], [ir_code_delete]
    or [ir_func_recalc_flow] returns, the function has the name, the
    parameter array, the entry pointer and the SSA flag it had, its lists
    hold nothing new, nothing has been allocated and nothing is live that
    was not. *)
Theorem deletion_only_deletes (m m' : memory) :
  (exists insn, ir_insn_delete insn m = Done tt m') \/
  (exists var, ir_var_delete var m = Done tt m') \/
  (exists var value, ir_var_replace var value m = Done tt m') \/
  (exists code, ir_code_delete code m = Done tt m') \/
  ir_func_recalc_flow m = Done tt m' ->
  shrinks m m'.
Proof.
  intros [[insn H]|[[var H]|[(var & value & H)|[[code H]|H]]]].
  - exact (od_ir_insn_delete insn m tt m' H).
  - exact (od_ir_var_delete var m tt m' H).
  - exact (od_ir_var_replace var value m tt m' H).
  - exact (od_ir_code_delete code m tt m' H).
  - exact (od_ir_func_recalc_flow m tt m' H).
Qed.

Lemma optimize_only_deletes_witness :
  let cast := fun (_ : ir_prim_t) (k : ir_const_t) => k in
  let calc1 := fun (_ : ir_op1_type_t) (k : ir_const_t) => k in
  let calc2 := fun (_ : ir_op2_type_t) (a _ : ir_const_t) => a in
  let m := memory_after (if_function no_memory) in
  let m' := memory_after (optimize cast calc1 calc2 4 m) in
  body_at m 5 = Some (flow (f_branch (op_var 2) 3)) /\
  optimize cast calc1 calc2 4 m = Done false m' /\
  body_at m' 5 = Some (flow (f_branch (op_var 2) 3)) /\
  shrinks m m'.
Proof.
  intros cast calc1 calc2 m m'.
  assert (Hrun : optimize cast calc1 calc2 4 m = Done false m')
    by (vm_compute; reflexivity).
  split; [vm_compute; reflexivity|]. split; [exact Hrun|].
  split; [vm_compute; reflexivity|].
  exact (optimize_only_deletes cast calc1 calc2 4 m m' false (or_introl Hrun)).
Defined.

Lemma deletion_only_deletes_witness :
  let m := memory_after (if_function no_memory) in
  let m' := memory_after (ir_func_recalc_flow m) in
  let n := memory_after (call_function no_memory) in
  let n' := memory_after (ir_insn_delete 4 n) in
  body_at m 5 = Some (flow (f_branch (op_var 2) 3)) /\
  ir_func_recalc_flow m = Done tt m' /\ shrinks m m' /\
  ir_insn_delete 4 n = Done tt n' /\ shrinks n n'.
Proof.
  intros m m' n n'.
  assert (Hflow : ir_func_recalc_flow m = Done tt m')
    by (vm_compute; reflexivity).
  assert (Hrun : ir_insn_delete 4 n = Done tt n') by (vm_compute; reflexivity).
  split; [vm_compute; reflexivity|]. split; [exact Hflow|]. split.
  - apply (deletion_only_deletes m m'). do 4 right. exact Hflow.
  - split; [exact Hrun|]. apply (deletion_only_deletes n n'). left. now exists 4.
Defined.

(** Whenever [ir_code_delete] returns, the block was live and is freed and
    off the block list; nothing else has been added to the function: no
    allocation, no new variable, block or instruction, and the name, the
    parameter array, the entry pointer and the SSA flag are as they
    were. *)
Theorem ir_code_delete_frees (code : addr) (m m' : memory) :
  ir_code_delete code m = Done tt m' ->
  is_Some (heap_code m !! code) /\
  heap_code m' !! code = None /\
  code ∉ code_list (func m') /\
  shrinks m m'.
Proof.
  intros H. split; [|split; [|split; [|exact (od_ir_code_delete code m tt m' H)]]].
  - unfold ir_code_delete in H. apply bind_inv in H as (c & m0 & Hc & _).
    apply get_code_inv in Hc as [Hc _]. eauto.
  - unfold ir_code_delete in H.
    repeat (apply bind_inv in H as (? & ? & _ & H)).
    injection H as <-. simpl. apply lookup_delete_eq.
  - unfold ir_code_delete in H.
    do 6 (apply bind_inv in H as (? & ? & _ & H)).
    apply bind_inv in H as ([] & M1 & Hlist & H).
    injection Hlist as <-. injection H as <-. simpl.
    unfold dlist_remove. intros Hin%list_elem_of_filter. now destruct Hin.
Qed.

Lemma ir_code_delete_frees_witness :
  let m := memory_after (dead_function no_memory) in
  let m' := memory_after (ir_code_delete 2 m) in
  ir_code_delete 2 m = Done tt m' /\
  heap_code m' !! 2 = None /\ 2 ∉ code_list (func m').
Proof.
  intros m m'.
  assert (Hrun : ir_code_delete 2 m = Done tt m') by (vm_compute; reflexivity).
  split; [exact Hrun|].
  destruct (ir_code_delete_frees 2 m m' Hrun) as (_ & Hnone & Hlist & _).
  split; assumption.
Defined.
